(** * marvel_stats.py: statistics report and plots for a GraphML network

    A shallow embedding of [src/marvel_stats.py].  The script is a
    single-pass pipeline: check that the input exists, parse it, rebuild
    it as a simple undirected graph, print statistics and rankings and,
    on request, draw the graph and its k-core.

    The graph container ([nx.Graph]) and the library calls whose result
    is determined by the graph structure (density, degree, connectivity,
    core numbers, k-core) are modelled as functions; the numerical
    library algorithms (closeness, betweenness, PageRank, eigenvector
    centrality, spring layout), the file system, the GraphML parser and
    the plotting library are fields of an environment record the program
    is run against, and each of their calls returns or raises.

    A [dict] is a finite map: its iteration order, on which no result
    below depends, is that of the map.  A [float] is the rational that
    the binary64 number denotes, and float arithmetic rounds to the
    nearest such number.  A run is the list of its events (lines
    printed, parse, layout computation, plotting calls that returned)
    with its value or the exception that ended it.  The requirements of
    the script's docstring hold: [networkx] and [matplotlib] are
    installed, so the two imports return. *)

From Stdlib Require Import ZArith QArith Qabs Qcanon Qpower Lqa.
From stdpp Require Import base option list sorting gmap strings pretty fin_maps.

Local Open Scope string_scope.
Local Open Scope Z_scope.

(** ** Python exceptions *)

(** The exception classes that the script can meet.  [OtherError] stands
    for any further subclass of [Exception] (XML parse errors, ...). *)
Inductive exn_class :=
  | BaseException | SystemExit | Exception
  | TypeError | KeyError | ValueError | RuntimeError | OtherError
  | OSError | FileNotFoundError
  | NetworkXException | NetworkXError | NetworkXPointlessConcept
  | NetworkXAlgorithmError | NetworkXNotImplemented
  | ExceededMaxIterations | PowerIterationFailedConvergence.

Global Instance exn_class_eq_dec : EqDecision exn_class.
Proof. solve_decision. Defined.

(** Direct base class, as declared in Python's builtins and in
    [networkx/exception.py]. *)
Definition base_class (c : exn_class) : option exn_class :=
  match c with
  | BaseException => None
  | SystemExit => Some BaseException
  | Exception => Some BaseException
  | TypeError | KeyError | ValueError | RuntimeError | OtherError
  | OSError => Some Exception
  | FileNotFoundError => Some OSError
  | NetworkXException => Some Exception
  | NetworkXError | NetworkXPointlessConcept | NetworkXAlgorithmError
  | NetworkXNotImplemented | ExceededMaxIterations => Some NetworkXException
  | PowerIterationFailedConvergence => Some ExceededMaxIterations
  end.

Fixpoint issubclass_fuel (fuel : nat) (c d : exn_class) : bool :=
  if decide (c = d) then true
  else match fuel with
       | O => false
       | S fuel' =>
           match base_class c with
           | Some b => issubclass_fuel fuel' b d
           | None => false
           end
       end.

(** [issubclass c d]: the hierarchy above has depth 5. *)
Definition issubclass (c d : exn_class) : bool := issubclass_fuel 5 c d.

Record exn := mkExn { exn_cls : exn_class; exn_msg : string }.

(** Outcome of a call that may raise. *)
Inductive result (A : Type) :=
  | Ok (a : A)
  | Raise (e : exn).
Arguments Ok {A} a.
Arguments Raise {A} e.

Definition result_bind {A B} (r : result A) (f : A → result B) : result B :=
  match r with
  | Ok a => f a
  | Raise e => Raise e
  end.

(** ** Attributed graphs *)

(** GraphML attribute values.  The script never inspects them. *)
Inductive attr_value :=
  | VBool (b : bool)
  | VInt (z : Z)
  | VStr (s : string).

Global Instance attr_value_eq_dec : EqDecision attr_value.
Proof. solve_decision. Defined.

Abbreviation attrs := (gmap string attr_value).

(** [d.update(new)]: the keys of [new] take their new value, the other
    keys of [d] are kept. *)
Definition dict_update {V} (d new : gmap string V) : gmap string V := new ∪ d.

(** [nx.Graph]: [self._node] maps a node to its attribute dict and
    [self._adj] maps a node to the dict of its neighbours, each with the
    attribute dict of the joining edge. *)
Record Graph := mkGraph {
  node : gmap string attrs;
  adj : gmap string (gmap string attrs)
}.

(** [nx.Graph()] *)
Definition empty_graph : Graph := mkGraph ∅ ∅.

(** The common prefix of [add_node] and [add_edge]:
    [if n not in self._node: self._adj[n] = {}; self._node[n] = {}]. *)
Definition ensure_node (G : Graph) (n : string) : Graph :=
  match node G !! n with
  | Some _ => G
  | None => mkGraph (<[n := ∅]> (node G)) (<[n := ∅]> (adj G))
  end.

(** One iteration of [Graph.add_nodes_from] on a pair [(n, ndict)]:
    the node is created when new, then [self._node[n].update(ndict)]. *)
Definition add_node_data (G : Graph) (nd : string * attrs) : Graph :=
  let G1 := ensure_node G nd.1 in
  mkGraph (<[nd.1 := dict_update (default ∅ (node G1 !! nd.1)) nd.2]> (node G1))
          (adj G1).

Definition add_nodes_from (G : Graph) (nodes_for_adding : list (string * attrs)) : Graph :=
  foldl add_node_data G nodes_for_adding.

(** [self._adj[u].get(v)] *)
Definition edge_data (G : Graph) (u v : string) : option attrs :=
  adj G !! u ≫= (.!! v).

(** [Graph.add_edge(u, v, **attr)]: both endpoints are created when new;
    the edge's dict (a fresh one when the edge is new) is updated with
    [attr] and stored, shared, under [_adj[u][v]] and [_adj[v][u]]. *)
Definition add_edge (G : Graph) (u v : string) (attr : attrs) : Graph :=
  let G1 := ensure_node (ensure_node G u) v in
  let datadict := dict_update (default ∅ (edge_data G1 u v)) attr in
  let adj1 := <[u := <[v := datadict]> (default ∅ (adj G1 !! u))]> (adj G1) in
  let adj2 := <[v := <[u := datadict]> (default ∅ (adj1 !! v))]> adj1 in
  mkGraph (node G1) adj2.

(** The parameter names of [add_edge(self, u_of_edge, v_of_edge, **attr)]:
    a keyword argument of one of these names clashes with the positional
    arguments and the call raises [TypeError]. *)
Definition add_edge_params : list string := ["self"; "u_of_edge"; "v_of_edge"].

(** The call [G.add_edge(u, v, **data)]. *)
Definition call_add_edge (G : Graph) (u v : string) (data : attrs) : result Graph :=
  if decide (Exists (λ k, is_Some (data !! k)) add_edge_params)
  then Raise (mkExn TypeError "add_edge() got multiple values for argument")
  else Ok (add_edge G u v data).

(** What the script reads of the graph returned by [nx.read_graphml]
    (a [Graph], [DiGraph], [MultiGraph] or [MultiDiGraph]): its node
    dict, and the triples yielded by [edges(data=True)] in their order;
    a multigraph yields one triple per parallel edge. *)
Record RawGraph := mkRaw {
  raw_node : gmap string attrs;
  raw_edges : list (string * string * attrs)
}.

(** [Graw.nodes(data=True)] *)
Definition nodes_data (Graw : RawGraph) : list (string * attrs) :=
  map_to_list (raw_node Graw).

(** Body of the loop of lines 42-44. *)
Definition simplify_step (G : Graph) (e : string * string * attrs) : result Graph :=
  let '(u, v, data) := e in
  if decide (u ≠ v) then call_add_edge G u v data else Ok G.

Fixpoint simplify_loop (G : Graph) (es : list (string * string * attrs)) : result Graph :=
  match es with
  | [] => Ok G
  | e :: es' => result_bind (simplify_step G e) (λ G', simplify_loop G' es')
  end.

(** Lines 40-44 of [main]: the simple undirected graph built from the
    parsed one. *)
Definition simplify (Graw : RawGraph) : result Graph :=
  let G := empty_graph in
  let G := add_nodes_from G (nodes_data Graw) in
  simplify_loop G (raw_edges Graw).

(** [G.edges(data=True)] on an undirected graph: every node in turn
    yields its neighbours that are not yet in [seen], then joins
    [seen]. *)
Fixpoint edges_from (seen : gset string) (l : list (string * gmap string attrs))
    : list (string * string * attrs) :=
  match l with
  | [] => []
  | (n, nbrs) :: l' =>
      ((λ md : string * attrs, (n, md.1, md.2))
         <$> filter (λ md, md.1 ∉ seen) (map_to_list nbrs))
      ++ edges_from ({[n]} ∪ seen) l'
  end.

Definition edges (G : Graph) : list (string * string * attrs) :=
  edges_from ∅ (map_to_list (adj G)).

(** The unordered pair of endpoints of an edge triple. *)
Definition endpoints (e : string * string * attrs) : gset string :=
  {[e.1.1; e.1.2]}.

(** A raw edge that the loop inserts between [u] and [v], in either
    direction. *)
Definition joins (u v : string) (e : string * string * attrs) : Prop :=
  e.1.1 ≠ e.1.2 ∧ ((e.1.1 = u ∧ e.1.2 = v) ∨ (e.1.1 = v ∧ e.1.2 = u)).

Global Instance joins_dec u v e : Decision (joins u v e).
Proof. unfold joins. apply _. Defined.

(** The attributes of the edge between [u] and [v] after one more raw
    edge: an insertion between them updates the dict. *)
Definition merged_step (u v : string) (acc : option attrs)
    (e : string * string * attrs) : option attrs :=
  if decide (joins u v e) then Some (dict_update (default ∅ acc) e.2) else acc.

(** The attributes that the raw edges between [u] and [v] leave, taken
    in order; [None] when there is no such edge. *)
Definition merged_attrs (u v : string) (es : list (string * string * attrs)) : option attrs :=
  foldl (merged_step u v) None es.

(** Every node with an adjacency dict is a node of the graph. *)
Definition adj_in_node (G : Graph) : Prop :=
  ∀ n, node G !! n = None → adj G !! n = None.

(** Both directions of an edge carry the same attributes. *)
Definition symmetric (G : Graph) : Prop :=
  ∀ u v, edge_data G u v = edge_data G v u.

(** A raw edge that the loop inserts and that has an attribute named
    like a parameter of [add_edge]. *)
Definition reserved_clash (e : string * string * attrs) : Prop :=
  e.1.1 ≠ e.1.2 ∧ Exists (λ key, is_Some (e.2 !! key)) add_edge_params.

(** A raw edge with its endpoints exchanged. *)
Definition flip_edge (e : string * string * attrs) : string * string * attrs :=
  (e.1.2, e.1.1, e.2).

(** The same raw edge, up to its direction. *)
Definition same_undirected (e e' : string * string * attrs) : Prop :=
  e' = e ∨ e' = flip_edge e.

(** The unordered pairs of distinct nodes that some raw edge joins. *)
Definition linked_pairs (es : list (string * string * attrs)) : gset (gset string) :=
  list_to_set (endpoints <$> filter (λ e, e.1.1 ≠ e.1.2) es).

(** Two nodes joined by an edge. *)
Definition linked (G : Graph) (u v : string) : Prop := is_Some (edge_data G u v).

(** Two nodes joined by a path. *)
Definition joined (G : Graph) (u v : string) : Prop := rtc (linked G) u v.

(** Every node of the graph has an adjacency dict. *)
Definition node_in_adj (G : Graph) : Prop :=
  ∀ n, is_Some (node G !! n) → is_Some (adj G !! n).

(** What the script would read of the graph built, were it the parsed
    one: [G.nodes(data=True)] and [G.edges(data=True)]. *)
Definition as_raw (G : Graph) : RawGraph := mkRaw (node G) (edges G).

(** Two parallel raw edges between [a] and [b] with different attribute
    keys. *)
Definition parallel2 : RawGraph :=
  mkRaw (list_to_map [("a", ∅); ("b", ∅)])
        [("a", "b", {["weight" := VInt 1]}); ("b", "a", {["label" := VStr "x"]})].

Definition parallel2_graph : Graph :=
  add_edge (add_edge (add_nodes_from empty_graph [("a", ∅); ("b", ∅)])
    "a" "b" {["weight" := VInt 1]}) "b" "a" {["label" := VStr "x"]}.

(** The two parallel edges of [parallel2], the first one reversed. *)
Definition parallel2_reversed : RawGraph :=
  mkRaw (raw_node parallel2)
        [("b", "a", {["weight" := VInt 1]}); ("b", "a", {["label" := VStr "x"]})].

(** ** Rankings: [top_n] *)

(** What [top_n] asks of a score: unary minus, [==] and [<].  The degree
    is an [int]; the centralities are finite [float]s, on which the three
    operations are exact. *)
Class Score (A : Type) := {
  score_eq_dec :: EqDecision A;
  score_neg : A → A;
  score_lt : A → A → Prop;
  score_lt_dec :: RelDecision score_lt;
  score_lt_strict :: StrictOrder score_lt;
  score_lt_trichotomy :: Trichotomy score_lt;
  score_neg_lt : ∀ x y, score_lt (score_neg x) (score_neg y) ↔ score_lt y x
}.

#[export] Instance Z_lt_trichotomy : Trichotomy Z.lt.
Proof. intros x y. lia. Qed.

#[export] Instance Z_score : Score Z := {|
  score_neg := Z.opp;
  score_lt := Z.lt;
  score_neg_lt := λ x y, iff_sym (Z.opp_lt_mono y x)
|}.

#[export] Instance Qc_lt_trichotomy : Trichotomy Qclt.
Proof.
  intros x y. destruct (Qc_dec x y) as [[?|?]|?]; auto.
Qed.

#[export] Instance Qc_score : Score Qc.
Proof.
  refine {| score_neg := Qcopp; score_lt := Qclt |}.
  intros x y. rewrite !Qclt_nge. split; intros H Hle; apply H.
  - by apply Qcopp_le_compat.
  - apply Qcopp_le_compat in Hle. by rewrite !Qcopp_involutive in Hle.
Defined.

(** [<] on [str]: lexicographic on code points, which on UTF-8 encoded
    strings is the lexicographic order on bytes. *)
Definition str_lt (s1 s2 : string) : bool := String.ltb s1 s2.

Section TopN.
Context {A : Type} `{Score A}.

(** [d.items()] *)
Definition items (d : gmap string A) : list (string * A) := map_to_list d.

(** The sort key [lambda x: (-x[1], x[0])]. *)
Definition sort_key (x : string * A) : A * string := (score_neg x.2, x.1).

(** [<] on the key tuples: the first components decide unless they are
    equal. *)
Definition key_lt (a b : A * string) : bool :=
  if decide (a.1 = b.1) then str_lt a.2 b.2
  else bool_decide (score_lt a.1 b.1).

(** Insertion of [x] before the first element that is not below it. *)
Fixpoint insert_by {X K} (key : X → K) (lt : K → K → bool) (x : X) (l : list X) : list X :=
  match l with
  | [] => [x]
  | y :: l' => if lt (key y) (key x) then y :: insert_by key lt x l' else x :: l
  end.

(** [sorted(l, key=key)]: a stable ascending sort that compares keys
    with [<] only. *)
Definition sorted {X K} (l : list X) (key : X → K) (lt : K → K → bool) : list X :=
  foldr (insert_by key lt) [] l.

(** [l[:k]] for a Python [int] [k]: a negative [k] counts from the end. *)
Definition slice_to {X} (l : list X) (k : Z) : list X :=
  if decide (0 ≤ k) then take (Z.to_nat k) l
  else take (Z.to_nat (Z.of_nat (length l) + k)) l.

(** The full ranking, [sorted(d.items(), key=lambda x: (-x[1], x[0]))]. *)
Definition ranking (d : gmap string A) : list (string * A) :=
  sorted (items d) sort_key key_lt.

Definition top_n (d : gmap string A) (k : Z) : list (string * A) :=
  slice_to (ranking d) k.

(** An entry ranks before another: higher score, or equal score and
    smaller identifier. *)
Definition ranks_before (x y : string * A) : Prop :=
  score_lt y.2 x.2 ∨ (x.2 = y.2 ∧ str_lt x.1 y.1 = true).

End TopN.

(** ** Floating point *)

(** A Python [float] is a binary64 number; a finite one is the rational
    it denotes.  The operations round the exact result to the nearest
    binary64 number, ties to even.  The exponent range is not bounded:
    overflow and subnormal numbers are out of the model. *)

(** Nearest integer, ties to even. *)
Definition round_half_even (q : Q) : Z :=
  let n := Qnum q in
  let d := Z.pos (Qden q) in
  let fl := n `div` d in
  let r := n `mod` d in
  if decide (2 * r < d) then fl
  else if decide (d < 2 * r) then fl + 1
  else if Z.even fl then fl else fl + 1.

(** [floor (log2 q)] for a positive rational: the difference of the
    binary logarithms of numerator and denominator, or one less. *)
Definition ilog2 (q : Q) : Z :=
  let c := Z.log2 (Qnum q) - Z.log2 (Z.pos (Qden q)) in
  if Qle_bool (2 ^ c) q then c else c - 1.

(** The binary64 number nearest to a rational: a significand of 53 bits,
    rounded to even, at the exponent of the rational. *)
Definition to_double (q : Q) : Q :=
  if Qeq_bool q 0 then 0%Q
  else
    let a := Qabs q in
    let e := ilog2 a - 52 in
    let m := round_half_even (a / 2 ^ e) in
    ((if Qle_bool 0 q then inject_Z m else inject_Z (- m)) * 2 ^ e)%Q.

(** The [float] nearest to an exact result. *)
Definition float_of (x : Qc) : Qc := Q2Qc (to_double (this x)).

(** [float(z)] for an [int]. *)
Definition float_of_int (z : Z) : Qc := float_of (Qc_of_Z z).

(** ** Library calls on the graph structure *)

(** [G.nodes()], the keys of [self._node]. *)
Definition nodes (G : Graph) : list string := (map_to_list (node G)).*1.

(** [G.number_of_nodes()], that is [len(self._node)]. *)
Definition number_of_nodes (G : Graph) : Z := Z.of_nat (size (node G)).

(** One item of [G.degree()]: [len(nbrs) + (n in nbrs)] for
    [nbrs = self._adj[n]]. *)
Definition degree_of (G : Graph) (n : string) : Z :=
  let nbrs := default ∅ (adj G !! n) in
  Z.of_nat (size nbrs) + (if decide (is_Some (nbrs !! n)) then 1 else 0).

(** [dict(G.degree())], one item per node. *)
Definition degree (G : Graph) : gmap string Z :=
  map_imap (λ n _, Some (degree_of G n)) (node G).

(** [sum(...)] over the values of a dict of integers. *)
Definition sum_values (d : gmap string Z) : Z :=
  foldr Z.add 0 (map_to_list d).*2.

(** The sum of [f] over the keys of a dict. *)
Definition sum_over {V} (f : string → Z) (m : gmap string V) : Z :=
  sum_values (map_imap (λ n _, Some (f n)) m).

(** [G.number_of_edges()], that is [G.size()]: half the sum of the
    degrees. *)
Definition number_of_edges (G : Graph) : Z := sum_values (degree G) `div` 2.

(** [nx.density(G)] for an undirected graph:
    [n = number_of_nodes(G); m = number_of_edges(G);
     if m == 0 or n <= 1: return 0;
     d = m / (n * (n - 1)); d *= 2; return d]. *)
Definition density (G : Graph) : Qc :=
  let n := number_of_nodes G in
  let m := number_of_edges G in
  if decide (m = 0 ∨ n ≤ 1) then Q2Qc 0
  else
    let d := float_of (Qc_of_Z m / Qc_of_Z (n * (n - 1))) in
    float_of (d * float_of_int 2).

(** The density as a rational: [2E / (N (N - 1))] for [N >= 2] nodes and
    [E] edges, 0 for [N < 2]. *)
Definition exact_density (G : Graph) : Q :=
  if decide (2 ≤ number_of_nodes G)
  then (inject_Z (2 * number_of_edges G)
        / inject_Z (number_of_nodes G * (number_of_nodes G - 1)))%Q
  else 0%Q.

(** The number of millionths that the specification gives for the
    density line: the quotient [2E / (N (N - 1))], or 0 when [N < 2],
    rounded to six decimal places. *)
Definition spec_density_millionths (G : Graph) : Z :=
  round_half_even (exact_density G * inject_Z 1000000).

(** Neighbours of a node, the keys of [self._adj[n]]. *)
Definition neighbors (G : Graph) (n : string) : gset string :=
  dom (default ∅ (adj G !! n)).

(** [_plain_bfs]: the nodes reachable from the source, level by level;
    every level but the last adds a node, so [len(G)] levels are
    enough. *)
Fixpoint bfs_levels (fuel : nat) (G : Graph) (seen thislevel : gset string) : gset string :=
  match fuel with
  | O => seen
  | S fuel' =>
      let nextlevel := ⋃ (neighbors G <$> elements thislevel) ∖ seen in
      if decide (nextlevel = ∅) then seen
      else bfs_levels fuel' G (seen ∪ nextlevel) nextlevel
  end.

Definition plain_bfs (G : Graph) (source : string) : gset string :=
  bfs_levels (size (node G)) G {[source]} {[source]}.

(** [nx.is_connected(G)]: raises on the null graph, else compares the
    number of nodes reached from an arbitrary node with [len(G)]. *)
Definition is_connected (G : Graph) : result bool :=
  match nodes G with
  | [] => Raise (mkExn NetworkXPointlessConcept
                   "Connectivity is undefined for the null graph.")
  | source :: _ =>
      Ok (bool_decide (size (plain_bfs G source) = size (node G)))
  end.

(** [nx.degree_centrality(G)]:
    [if len(G) <= 1: return {n: 1 for n in G};
     s = 1.0 / (len(G) - 1.0); return {n: d * s for n, d in G.degree()}]. *)
Definition degree_centrality (G : Graph) : gmap string Qc :=
  if decide (number_of_nodes G ≤ 1) then (λ _, Q2Qc 1) <$> node G
  else
    let s := float_of (Q2Qc 1
                       / float_of (float_of_int (number_of_nodes G) - Q2Qc 1)) in
    (λ d, float_of (float_of_int d * s)) <$> degree G.

(** [nx.number_of_selfloops(G)] *)
Definition number_of_selfloops (G : Graph) : nat :=
  length (filter (λ n, is_Some (edge_data G n n)) (nodes G)).

(** First item of minimal value of a list of items. *)
Fixpoint min_item (x : string * Z) (l : list (string * Z)) : string * Z :=
  match l with
  | [] => x
  | y :: l' => if decide (y.2 < x.2) then min_item y l' else min_item x l'
  end.

(** Core numbers by peeling: a node of least remaining degree is removed
    and gets as core number the largest such degree met so far; its
    remaining neighbours lose one degree.  (The library runs this with
    the nodes bin-sorted by degree.) *)
Fixpoint core_peel (fuel : nat) (G : Graph) (deg : gmap string Z) (cur : Z)
    (core : gmap string Z) : gmap string Z :=
  match fuel with
  | O => core
  | S fuel' =>
      match map_to_list deg with
      | [] => core
      | x :: l =>
          let '(v, dv) := min_item x l in
          let cur' := Z.max cur dv in
          let deg' := delete v deg in
          let deg'' := map_imap (λ u du,
                         Some (if decide (u ∈ neighbors G v) then du - 1 else du)) deg' in
          core_peel fuel' G deg'' cur' (<[v := cur']> core)
      end
  end.

(** [nx.core_number(G)] on an undirected simple graph type: graphs with
    self-loops are refused, here with the class that the handler of the
    script names.  (Later versions of the library raise
    [NetworkXNotImplemented] there; on the graph that the script builds
    neither is raised.) *)
Definition core_number (G : Graph) : result (gmap string Z) :=
  if decide (0 < number_of_selfloops G)%nat
  then Raise (mkExn NetworkXError
                "Input graph has self loops which is not permitted; Consider using G.remove_edges_from(nx.selfloop_edges(G)).")
  else Ok (core_peel (size (node G)) G (degree G) 0 ∅).

(** [G.subgraph(nodes).copy()]: the subgraph induced by a set of nodes. *)
Definition subgraph (G : Graph) (keep : gset string) : Graph :=
  mkGraph (filter (λ na, na.1 ∈ keep) (node G))
          (filter (λ mb, mb.1 ∈ keep) <$> filter (λ na, na.1 ∈ keep) (adj G)).

(** [nx.k_core(G, k=k)]:
    [core = core_number(G);
     nodes = (v for v in core if core[v] >= k);
     return G.subgraph(nodes).copy()]. *)
Definition k_core (G : Graph) (k : Z) : result Graph :=
  result_bind (core_number G) (λ core,
    Ok (subgraph G (dom (filter (λ vc, k ≤ vc.2) core)))).

(** ** A worked graph: the path A - B - C - D *)

Definition path4 : RawGraph :=
  mkRaw (list_to_map [("A", ∅); ("B", ∅); ("C", ∅); ("D", ∅)])
        [("A", "B", ∅); ("B", "C", ∅); ("C", "D", ∅)].

Definition path4_graph : Graph :=
  add_edge (add_edge (add_edge
    (add_nodes_from empty_graph [("A", ∅); ("B", ∅); ("C", ∅); ("D", ∅)])
    "A" "B" ∅) "B" "C" ∅) "C" "D" ∅.

(** ** A graph at a rounding boundary *)

(** The 256 nodes [0], ..., [255] and the 153 edges of the path from [0]
    to [153]: the quotient [2E / (N (N - 1))] is 0.0046875. *)
Definition tie_raw : RawGraph :=
  mkRaw (list_to_map ((λ i, (pretty i, ∅)) <$> seqZ 0 256))
        ((λ i, (pretty i, pretty (i + 1), ∅)) <$> seqZ 0 153).

(** The graph built from it. *)
Definition tie_graph : Graph :=
  match simplify tie_raw with
  | Ok G => G
  | Raise _ => empty_graph
  end.

(** ** Formatting *)

Definition nl : string := String (Ascii.ascii_of_nat 10) "".

(** [str(b)] for a [bool]. *)
Definition str_bool (b : bool) : string := if b then "True" else "False".

Definition zero_pad (width : nat) (s : string) : string :=
  String.concat "" (replicate (width - String.length s) "0") +:+ s.

(** The number of millionths that [format(x, ".6f")] shows: the
    value of the float, rounded. *)
Definition millionths (x : Qc) : Z := round_half_even (this x * inject_Z 1000000).

(** [format(x, ".6f")]: sign, integer part, point, six digits. *)
Definition fmt6f (x : Qc) : string :=
  let a := Z.abs (millionths x) in
  (if decide (x < Q2Qc 0)%Qc then "-" else "")
  +:+ pretty (a `div` 1000000) +:+ "." +:+ zero_pad 6 (pretty (a `mod` 1000000)).

(** *** Reading a printed number back *)

(** The value of a decimal digit. *)
Definition digit_value (c : Ascii.ascii) : option Z :=
  let n := Z.of_N (Ascii.N_of_ascii c) in
  if (48 <=? n) && (n <=? 57) then Some (n - 48) else None.

(** The number that a string of decimal digits denotes, read after the
    digits of [acc]. *)
Fixpoint decimal_value (acc : Z) (s : string) : option Z :=
  match s with
  | EmptyString => Some acc
  | String c s' => d ← digit_value c; decimal_value (10 * acc + d) s'
  end.

(** The decimal point. *)
Definition point : Ascii.ascii := Ascii.ascii_of_nat 46.

(** The number of millionths that a text of digits, a point and six
    digits denotes. *)
Fixpoint fixed6_value (acc : Z) (s : string) : option Z :=
  match s with
  | EmptyString => None
  | String c s' =>
      if decide (c = point)
      then if decide (String.length s' = 6%nat)
           then frac ← decimal_value 0 s'; Some (acc * 1000000 + frac)
           else None
      else d ← digit_value c; fixed6_value (10 * acc + d) s'
  end.

Definition read_fixed6 (s : string) : option Z := fixed6_value 0 s.

(** ** The run: events and exceptions *)

Abbreviation layout := (gmap string (Qc * Qc)).

(** What a run does to the outside, in order.  [EvPrint] is one call of
    [print]; the other events are the parse, the layout computation and
    the calls into the plotting library.  The parse and the layout
    computation are recorded when they start, a call into the plotting
    library when it has returned. *)
Inductive event :=
  | EvPrint (line : string)
  | EvReadGraphml (path : string)
  | EvSpringLayout (G : Graph) (seed : Z)
  | EvFigure
  | EvDrawEdges (G : Graph) (pos : layout)
  | EvDrawNodes (G : Graph) (pos : layout) (node_size : list Qc)
  | EvText (x y : Qc) (s : string) (fontsize : Z)
  | EvAxisOff
  | EvTightLayout
  | EvSavefig (fname : string) (dpi : Z)
  | EvClose.

(** A computation: the events it performed, then its value or the
    exception that stopped it. *)
Definition M (A : Type) : Type := list event * result A.

Global Instance M_ret : MRet M := λ A a, ([], Ok a).
Global Instance M_bind : MBind M := λ A B f m,
  match m.2 with
  | Ok a => let r := f a in ((m.1 ++ r.1)%list, r.2)
  | Raise e => (m.1, Raise e)
  end.

Definition emit (w : list event) : M unit := (w, Ok tt).
Definition print (line : string) : M unit := emit [EvPrint line].
Definition lift {A} (r : result A) : M A := ([], r).
Definition raise {A} (e : exn) : M A := ([], Raise e).

(** [try: body except cls as e: handler(e)] *)
Definition try_except {A} (body : M A) (cls : exn_class) (handler : exn → M A) : M A :=
  match body.2 with
  | Raise e =>
      if issubclass (exn_cls e) cls
      then let r := handler e in ((body.1 ++ r.1)%list, r.2)
      else body
  | Ok _ => body
  end.

(** [sys.exit(msg)] raises [SystemExit(msg)]. *)
Definition sys_exit {A} (msg : string) : M A := raise (mkExn SystemExit msg).

(** [d[k]] *)
Definition getitem {V} (d : gmap string V) (k : string) : result V :=
  match d !! k with
  | Some v => Ok v
  | None => Raise (mkExn KeyError k)
  end.

(** [max(d.values())] *)
Definition max_values (d : gmap string Z) : result Z :=
  match (map_to_list d).*2 with
  | [] => Raise (mkExn ValueError "max() arg is an empty sequence")
  | x :: l => Ok (foldr Z.max x l)
  end.

(** A list comprehension whose element expression may raise. *)
Fixpoint comprehension {X Y} (f : X → result Y) (l : list X) : result (list Y) :=
  match l with
  | [] => Ok []
  | x :: l' =>
      result_bind (f x) (λ y,
      result_bind (comprehension f l') (λ ys, Ok (y :: ys)))
  end.

(** ** The environment of a run *)

(** The command line after [argparse]. *)
Record Args := mkArgs {
  graphml : string;
  top : Z;
  plot : bool;
  k : Z;
  seed : Z;
  prefix : string;
  label_top : Z
}.

(** The two figures of a run: the plot of the whole graph and the plot
    of its k-core. *)
Inductive figure := FullFigure | CoreFigure.

(** The file system, the parser, the numerical library algorithms and
    the plotting library, at the arguments the script passes them; each
    call returns or raises.  [path_exists] and [path_resolve] are
    [Path.exists()] and [Path.resolve()]: the first raises [OSError] on
    a name that the system refuses, the second raises on a loop of
    symbolic links.  [plotting fig ev] is the outcome of the call [ev] of
    [plt.figure], [nx.draw_networkx_edges], [nx.draw_networkx_nodes],
    [plt.axis], [plt.tight_layout], [plt.savefig] or [plt.close] made
    while the figure [fig] is drawn: [savefig] raises when the file
    cannot be written, a draw call when a node has no position. *)
Record Env := mkEnv {
  path_exists : string → result bool;
  path_resolve : string → result string;
  read_graphml : string → result RawGraph;
  closeness_centrality : Graph → result (gmap string Qc);
  betweenness_centrality : Graph → result (gmap string Qc);
  pagerank : Graph → result (gmap string Qc);
  eigenvector_centrality : Graph → result (gmap string Qc);
  spring_layout : Graph → Z → result layout;
  plotting : figure → event → result unit
}.

(** A call into the plotting library: it is recorded when it returns, and
    its exception is that of the run when it raises. *)
Definition call (env : Env) (fig : figure) (ev : event) : M unit :=
  lift (plotting env fig ev);;
  emit [ev].

(** ** The script *)

(** [for i, (n, val) in enumerate(l, 1): print(f"{i}. {n}: {fmt(val)}")] *)
Definition print_ranking {A} (fmt : A → string) (l : list (string * A)) : M unit :=
  emit (imap (λ i x,
          EvPrint (pretty (Z.of_nat (S i)) +:+ ". " +:+ x.1 +:+ ": " +:+ fmt x.2)) l).

(** Lines 46-57: basic statistics and the degree ranking. *)
Definition basic_statistics (G : Graph) (top : Z) : M (gmap string Z) :=
  print "=== Basic Statistics ===";;
  print ("Nodes: " +:+ pretty (number_of_nodes G));;
  print ("Edges: " +:+ pretty (number_of_edges G));;
  print ("Density: " +:+ fmt6f (density G));;
  connected ← lift (is_connected G);
  print ("Connected: " +:+ str_bool connected);;
  let degree := degree G in
  let top_degree := top_n degree top in
  print (nl +:+ "=== Top by Degree (most interactions) ===");;
  print_ranking pretty top_degree;;
  mret degree.

(** Lines 60-79: the four centralities that must succeed. *)
Definition centralities (env : Env) (G : Graph) (top : Z) : M unit :=
  print (nl +:+ "=== Centralities (popularity/influence) ===");;
  let deg_cent := degree_centrality G in
  print (nl +:+ "Top Degree Centrality:");;
  print_ranking fmt6f (top_n deg_cent top);;
  close ← lift (closeness_centrality env G);
  print (nl +:+ "Top Closeness Centrality:");;
  print_ranking fmt6f (top_n close top);;
  bet ← lift (betweenness_centrality env G);
  print (nl +:+ "Top Betweenness Centrality:");;
  print_ranking fmt6f (top_n bet top);;
  pr ← lift (pagerank env G);
  print (nl +:+ "Top PageRank:");;
  print_ranking fmt6f (top_n pr top).

(** Lines 82-88: eigenvector centrality, skipped on a library failure. *)
Definition eigenvector_section (env : Env) (G : Graph) (top : Z) : M unit :=
  try_except
    (eig ← lift (eigenvector_centrality env G);
     print (nl +:+ "Top Eigenvector Centrality:");;
     print_ranking fmt6f (top_n eig top))
    NetworkXException
    (λ e, print (nl +:+ "[Eigenvector centrality skipped: " +:+ exn_msg e +:+ "]")).

(** [for n, _ in top: x, y = pos[n];
     plt.text(x, y, str(n), fontsize=fontsize)]: the lookup raises
    [KeyError] for a node without position; [plt.text] adds the label to
    the current figure, where [savefig] renders it. *)
Fixpoint label_nodes {A} (pos : layout) (fontsize : Z) (l : list (string * A)) : M unit :=
  match l with
  | [] => mret tt
  | (n, _) :: l' =>
      xy ← lift (getitem pos n);
      emit [EvText xy.1 xy.2 n fontsize];;
      label_nodes pos fontsize l'
  end.

(** Lines 97-109: the plot of the whole graph. *)
Definition plot_full (env : Env) (args : Args) (G : Graph) (degree : gmap string Z)
    (pos : layout) : M unit :=
  sizes ← lift (comprehension
                  (λ n, result_bind (getitem degree n) (λ d,
                          Ok (float_of (float_of_int 8
                                + float_of (float_of (Q2Qc (2 # 5))
                                            * float_of_int d)))))
                  (nodes G));
  call env FullFigure EvFigure;;
  call env FullFigure (EvDrawEdges G pos);;
  call env FullFigure (EvDrawNodes G pos sizes);;
  (if decide (0 < label_top args)
   then label_nodes pos 6
          (slice_to (sorted (items degree) sort_key key_lt) (label_top args))
   else mret tt);;
  call env FullFigure EvAxisOff;;
  let out_full := prefix args +:+ "_full.png" in
  call env FullFigure EvTightLayout;;
  call env FullFigure (EvSavefig out_full 200);;
  call env FullFigure EvClose;;
  print ("Wrote " +:+ out_full).

(** Lines 112-118: the k-core, with the value of [args.k] after the
    statement. *)
Definition extract_core (args : Args) (G : Graph) : M (Graph * Z) :=
  try_except
    (core ← lift (k_core G (k args));
     mret (core, k args))
    NetworkXError
    (λ _,
       kmax ← lift (core_number G);
       k' ← lift (max_values kmax);
       print ("[Note] Requested k too high; using max k=" +:+ pretty k');;
       core ← lift (k_core G k');
       mret (core, k')).

(** Lines 120-133: the plot of the k-core. *)
Definition plot_core (env : Env) (args : Args) (core : Graph) (k : Z) (pos : layout) :
    M unit :=
  let deg_core := degree core in
  sizes_core ← lift (comprehension
                  (λ n, result_bind (getitem deg_core n) (λ d,
                          Ok (float_of (float_of_int 12
                                + float_of (float_of (Q2Qc (7 # 10))
                                            * float_of_int d)))))
                  (nodes core));
  call env CoreFigure EvFigure;;
  call env CoreFigure (EvDrawEdges core pos);;
  call env CoreFigure (EvDrawNodes core pos sizes_core);;
  (if decide (0 < label_top args)
   then label_nodes pos 7
          (slice_to (sorted (items deg_core) sort_key key_lt) (label_top args))
   else mret tt);;
  call env CoreFigure EvAxisOff;;
  let out_core := prefix args +:+ "_kcore" +:+ pretty k +:+ ".png" in
  call env CoreFigure EvTightLayout;;
  call env CoreFigure (EvSavefig out_core 220);;
  call env CoreFigure EvClose;;
  print ("Wrote " +:+ out_core).

(** Lines 90-133: the plots, when asked for. *)
Definition plots (env : Env) (args : Args) (G : Graph) (degree : gmap string Z) : M unit :=
  if plot args then
    emit [EvSpringLayout G (seed args)];;
    pos ← lift (spring_layout env G (seed args));
    plot_full env args G degree pos;;
    ck ← extract_core args G;
    plot_core env args ck.1 ck.2 pos
  else mret tt.

(** Lines 46-133. *)
Definition report (env : Env) (args : Args) (G : Graph) : M unit :=
  degree ← basic_statistics G (top args);
  centralities env G (top args);;
  eigenvector_section env G (top args);;
  plots env args G degree.

(** [main], after the command line is parsed. *)
Definition main (env : Env) (args : Args) : M unit :=
  let gpath := graphml args in
  found ← lift (path_exists env gpath);
  if negb found
  then
    resolved ← lift (path_resolve env gpath);
    sys_exit ("ERROR: GraphML not found at " +:+ resolved)
  else
    emit [EvReadGraphml gpath];;
    Graw ← lift (read_graphml env gpath);
    G ← lift (simplify Graw);
    report env args G.

(** ** The process *)

(** Exit status: 0 on return; an uncaught exception, [SystemExit] with a
    message included, gives status 1. *)
Definition exit_status (r : M unit) : Z :=
  match r.2 with
  | Ok _ => 0
  | Raise _ => 1
  end.

(** Lines written to the error stream: the message of [SystemExit], or
    the traceback of another exception, of which the first line and the
    message are kept. *)
Definition stderr (r : M unit) : list string :=
  match r.2 with
  | Ok _ => []
  | Raise e =>
      if decide (exn_cls e = SystemExit) then [exn_msg e]
      else ["Traceback (most recent call last):"; exn_msg e]
  end.

(** The lines printed by a sequence of events. *)
Definition printed (w : list event) : list string :=
  omap (λ ev, match ev with EvPrint s => Some s | _ => None end) w.

(** The files written by a sequence of events: the targets of
    [savefig]. *)
Definition saved (w : list event) : list string :=
  omap (λ ev, match ev with EvSavefig f _ => Some f | _ => None end) w.

Definition stdout {A} (r : M A) : list string := printed r.1.

Definition files_written {A} (r : M A) : list string := saved r.1.

(** The layout computations among a sequence of events. *)
Definition layouts_computed (w : list event) : list (Graph * Z) :=
  omap (λ ev, match ev with EvSpringLayout G s => Some (G, s) | _ => None end) w.

(** The graphs drawn, each with the layout it was drawn with. *)
Definition drawn (w : list event) : list (Graph * layout) :=
  omap (λ ev, match ev with
              | EvDrawEdges G pos | EvDrawNodes G pos _ => Some (G, pos)
              | _ => None
              end) w.

Definition is_print (ev : event) : Prop :=
  match ev with EvPrint _ => True | _ => False end.

(** A label placed where the layout has its node. *)
Definition is_text_at (pos : layout) (ev : event) : Prop :=
  match ev with EvText x y n _ => pos !! n = Some (x, y) | _ => False end.

(** A label, if the event is one, is placed where the layout has its
    node. *)
Definition text_ok (pos : layout) (ev : event) : Prop :=
  match ev with EvText x y n _ => pos !! n = Some (x, y) | _ => True end.

(** An event other than a layout computation. *)
Definition not_layout (ev : event) : Prop :=
  match ev with EvSpringLayout _ _ => False | _ => True end.

(** An event of a run without plots: a line printed, or the parse. *)
Definition prints_or_reads (p : string) (ev : event) : Prop :=
  is_print ev ∨ ev = EvReadGraphml p.

(** The labels placed by a sequence of events, each with its font
    size. *)
Definition labelled (w : list event) : list (string * Z) :=
  omap (λ ev, match ev with EvText _ _ s fs => Some (s, fs) | _ => None end) w.

(** The line that reports a file. *)
Definition wrote (fname : string) : string := "Wrote " +:+ fname.

(** The notice of the k-core fallback. *)
Definition fallback_note (k : Z) : string :=
  "[Note] Requested k too high; using max k=" +:+ pretty k.

(** The notice that replaces the eigenvector section. *)
Definition eigenvector_notice (e : exn) : string :=
  nl +:+ "[Eigenvector centrality skipped: " +:+ exn_msg e +:+ "]".

(** The events of the three statistics sections, lines 46-88. *)
Definition statistics_events (env : Env) (args : Args) (G : Graph) : list event :=
  ((basic_statistics G (top args)).1 ++ (centralities env G (top args)).1
   ++ (eigenvector_section env G (top args)).1)%list.

(** The names of the two image files. *)
Definition out_full (args : Args) : string := prefix args +:+ "_full.png".
Definition out_core (args : Args) (k : Z) : string :=
  prefix args +:+ "_kcore" +:+ pretty k +:+ ".png".




(** ** A sample environment *)

(** The file [path4.graphml] holds the path A - B - C - D; every other
    path is missing.  The library algorithms return fixed values,
    eigenvector centrality fails to converge, and every plotting call
    returns. *)
Definition demo_env : Env := {|
  path_exists := λ p, Ok (bool_decide (p = "path4.graphml"));
  path_resolve := λ p, Ok ("/data/" +:+ p);
  read_graphml := λ _, Ok path4;
  closeness_centrality := λ G, Ok (degree_centrality G);
  betweenness_centrality := λ G, Ok ((λ _, Q2Qc 0) <$> node G);
  pagerank := λ G, Ok ((λ _, Q2Qc (1 # 4)) <$> node G);
  eigenvector_centrality := λ _,
    Raise (mkExn PowerIterationFailedConvergence
             "power iteration failed to converge within 1000 iterations");
  spring_layout := λ G _, Ok ((λ _, (Q2Qc 0, Q2Qc 1)) <$> node G);
  plotting := λ _ _, Ok tt
|}.

Definition demo_args : Args :=
  {| graphml := "path4.graphml"; top := 2; plot := true; k := 20; seed := 42;
     prefix := "marvel_network"; label_top := 1 |}.

(** The same environment, but the file holds a graph with no node, on
    which eigenvector centrality is refused. *)
Definition null_env : Env := {|
  path_exists := path_exists demo_env;
  path_resolve := path_resolve demo_env;
  read_graphml := λ _, Ok (mkRaw ∅ []);
  closeness_centrality := closeness_centrality demo_env;
  betweenness_centrality := betweenness_centrality demo_env;
  pagerank := pagerank demo_env;
  eigenvector_centrality := λ _,
    Raise (mkExn NetworkXPointlessConcept
             "cannot compute centrality for the null graph");
  spring_layout := spring_layout demo_env;
  plotting := plotting demo_env
|}.

(** The default command line on a file that is not there. *)
Definition missing_args : Args :=
  {| graphml := "does_not_exist.graphml"; top := 5; plot := true; k := 20;
     seed := 42; prefix := "marvel_network"; label_top := 0 |}.

(** The sample command line without [--plot]. *)
Definition stats_args : Args :=
  {| graphml := "path4.graphml"; top := 2; plot := false; k := 20; seed := 42;
     prefix := "marvel_network"; label_top := 0 |}.

(** The sample environment with a parser that fails. *)
Definition unreadable_env (e : exn) : Env := {|
  path_exists := path_exists demo_env;
  path_resolve := path_resolve demo_env;
  read_graphml := λ _, Raise e;
  closeness_centrality := closeness_centrality demo_env;
  betweenness_centrality := betweenness_centrality demo_env;
  pagerank := pagerank demo_env;
  eigenvector_centrality := eigenvector_centrality demo_env;
  spring_layout := spring_layout demo_env;
  plotting := plotting demo_env
|}.

(** The sample environment with a PageRank that fails. *)
Definition pagerank_fails_env (e : exn) : Env := {|
  path_exists := path_exists demo_env;
  path_resolve := path_resolve demo_env;
  read_graphml := read_graphml demo_env;
  closeness_centrality := closeness_centrality demo_env;
  betweenness_centrality := betweenness_centrality demo_env;
  pagerank := λ _, Raise e;
  eigenvector_centrality := eigenvector_centrality demo_env;
  spring_layout := spring_layout demo_env;
  plotting := plotting demo_env
|}.

(** The sample environment with another failure of eigenvector
    centrality. *)
Definition eigenvector_fails_env (e : exn) : Env := {|
  path_exists := path_exists demo_env;
  path_resolve := path_resolve demo_env;
  read_graphml := read_graphml demo_env;
  closeness_centrality := closeness_centrality demo_env;
  betweenness_centrality := betweenness_centrality demo_env;
  pagerank := pagerank demo_env;
  eigenvector_centrality := λ _, Raise e;
  spring_layout := spring_layout demo_env;
  plotting := plotting demo_env
|}.

(** An input path caught in a loop of symbolic links: [exists()] is
    false and [resolve()] raises. *)
Definition symlink_loop : exn :=
  mkExn RuntimeError "Symlink loop from '/data/loop.graphml'".

Definition looping_env : Env := {|
  path_exists := λ _, Ok false;
  path_resolve := λ _, Raise symlink_loop;
  read_graphml := read_graphml demo_env;
  closeness_centrality := closeness_centrality demo_env;
  betweenness_centrality := betweenness_centrality demo_env;
  pagerank := pagerank demo_env;
  eigenvector_centrality := eigenvector_centrality demo_env;
  spring_layout := spring_layout demo_env;
  plotting := plotting demo_env
|}.

(** An input name that the system refuses: [exists()] raises. *)
Definition name_too_long : exn := mkExn OSError "[Errno 36] File name too long".

Definition refused_name_env : Env := {|
  path_exists := λ _, Raise name_too_long;
  path_resolve := path_resolve demo_env;
  read_graphml := read_graphml demo_env;
  closeness_centrality := closeness_centrality demo_env;
  betweenness_centrality := betweenness_centrality demo_env;
  pagerank := pagerank demo_env;
  eigenvector_centrality := eigenvector_centrality demo_env;
  spring_layout := spring_layout demo_env;
  plotting := plotting demo_env
|}.

(** An output prefix in a directory that is not there: [savefig]
    raises. *)
Definition no_such_directory : exn :=
  mkExn FileNotFoundError "[Errno 2] No such file or directory".

Definition no_directory_env : Env := {|
  path_exists := path_exists demo_env;
  path_resolve := path_resolve demo_env;
  read_graphml := read_graphml demo_env;
  closeness_centrality := closeness_centrality demo_env;
  betweenness_centrality := betweenness_centrality demo_env;
  pagerank := pagerank demo_env;
  eigenvector_centrality := eigenvector_centrality demo_env;
  spring_layout := spring_layout demo_env;
  plotting := λ _ ev, match ev with EvSavefig _ _ => Raise no_such_directory | _ => Ok tt end
|}.

(** A plotting library whose [plt.close()] raises. *)
Definition close_fails_env : Env := {|
  path_exists := path_exists demo_env;
  path_resolve := path_resolve demo_env;
  read_graphml := read_graphml demo_env;
  closeness_centrality := closeness_centrality demo_env;
  betweenness_centrality := betweenness_centrality demo_env;
  pagerank := pagerank demo_env;
  eigenvector_centrality := eigenvector_centrality demo_env;
  spring_layout := spring_layout demo_env;
  plotting := λ _ ev,
    match ev with
    | EvClose => Raise (mkExn RuntimeError "close failed")
    | _ => Ok tt
    end
|}.

Definition no_directory_args : Args :=
  {| graphml := "path4.graphml"; top := 2; plot := true; k := 20; seed := 42;
     prefix := "no_such_dir/out"; label_top := 1 |}.

(** * Properties *)

(** ** Floating point *)

Lemma round_half_even_near (q : Q) :
  (Qabs (inject_Z (round_half_even q) - q) <= 1 # 2)%Q.
Proof.
  apply Qabs_Qle_condition. destruct q as [n d]. unfold round_half_even. simpl.
  pose proof (Z.div_mod n (Z.pos d) ltac:(done)) as Hdiv.
  pose proof (Z.mod_pos_bound n (Z.pos d) ltac:(done)) as Hmod.
  set (fl := n `div` Z.pos d) in *. set (r := n `mod` Z.pos d) in *.
  repeat case_decide; try destruct (Z.even fl);
    unfold Qle, Qminus, Qplus, Qopp, inject_Z; simpl; nia.
Qed.

Lemma Qpower2_pos (e : Z) : (0 < 2 ^ e)%Q.
Proof. apply Qpower_0_lt. reflexivity. Qed.

Lemma ilog2_le (q : Q) : (0 < q)%Q → (2 ^ ilog2 q <= q)%Q.
Proof.
  intros Hq. unfold ilog2.
  destruct (Qle_bool _ q) eqn:Hle; [by apply Qle_bool_iff|]. clear Hle.
  destruct q as [n d]. cbn [Qnum Qden].
  assert (0 < n) as Hn. { unfold Qlt in Hq. simpl in Hq. lia. }
  pose proof (Z.log2_spec n Hn) as [Ha _].
  pose proof (Z.log2_spec (Z.pos d) ltac:(done)) as [_ Hb].
  pose proof (Z.log2_nonneg n) as Ha0.
  pose proof (Z.log2_nonneg (Z.pos d)) as Hb0.
  set (a := Z.log2 n) in *. set (b := Z.log2 (Z.pos d)) in *.
  replace (a - b - 1) with (a + - (b + 1)) by lia.
  rewrite Qpower_plus by done. rewrite Qpower_opp.
  change 2%Q with (inject_Z 2).
  rewrite <-!Zpower_Qpower by lia.
  rewrite (Qmake_Qdiv n d).
  replace (Z.succ b) with (b + 1) in Hb by lia.
  assert (0 < 2 ^ a) as HA by (apply Z.pow_pos_nonneg; lia).
  assert (0 < 2 ^ (b + 1)) as HB by (apply Z.pow_pos_nonneg; lia).
  rewrite Zlt_Qlt in HA, HB, Hn, Hb. rewrite Zle_Qle in Ha.
  assert (0 < inject_Z (Z.pos d))%Q as Hd by reflexivity.
  set (qa := inject_Z (2 ^ a)) in *. set (qb := inject_Z (2 ^ (b + 1))) in *.
  set (qn := inject_Z n) in *. set (qd := inject_Z (Z.pos d)) in *.
  apply Qle_shift_div_l; [done|].
  change (inject_Z 0) with 0%Q in *.
  assert (qa * / qb * qd == qa * qd / qb)%Q as -> by (field; lra).
  apply Qle_shift_div_r; [done|]. nra.
Qed.

Lemma to_double_error (q : Q) :
  (0 < q)%Q → (Qabs (to_double q - q) <= q * 2 ^ (-53))%Q.
Proof.
  intros Hq. unfold to_double.
  destruct (Qeq_bool q 0) eqn:H0.
  { apply Qeq_bool_iff in H0. lra. }
  clear H0. rewrite (proj2 (Qle_bool_iff 0 q)) by lra.
  assert (Qabs q = q) as ->.
  { destruct q as [n d]. unfold Qabs. f_equal. apply Z.abs_eq.
    unfold Qlt in Hq. simpl in Hq. lia. }
  pose proof (ilog2_le q Hq) as HL.
  set (e := ilog2 q - 52) in *.
  replace (ilog2 q) with (e + 52) in HL by lia.
  rewrite Qpower_plus in HL by done.
  pose proof (Qpower2_pos e) as Hs. set (s := (2 ^ e)%Q) in *.
  pose proof (round_half_even_near (q / s)) as Hm.
  set (m := inject_Z (round_half_even (q / s))) in *.
  apply Qabs_Qle_condition in Hm. apply Qabs_Qle_condition.
  assert (q / s * s == q)%Q as Ht by (field; lra).
  set (t := (q / s)%Q) in *.
  change (2 ^ 52)%Q with (4503599627370496 # 1)%Q in HL.
  change (2 ^ (-53))%Q with (1 # 9007199254740992)%Q.
  split; nra.
Qed.

Lemma ilog2_lt (q : Q) : (0 < q)%Q → (q < 2 ^ (ilog2 q + 1))%Q.
Proof.
  intros Hq. unfold ilog2.
  destruct (Qle_bool _ q) eqn:Hle.
  2:{ replace (Z.log2 (Qnum q) - Z.log2 (Z.pos (Qden q)) - 1 + 1)
        with (Z.log2 (Qnum q) - Z.log2 (Z.pos (Qden q))) by lia.
      apply Qnot_le_lt. intros Hc. apply Qle_bool_iff in Hc. congruence. }
  clear Hle. destruct q as [n d]. cbn [Qnum Qden].
  assert (0 < n) as Hn. { unfold Qlt in Hq. simpl in Hq. lia. }
  pose proof (Z.log2_spec n Hn) as [_ Ha].
  pose proof (Z.log2_spec (Z.pos d) ltac:(done)) as [Hb _].
  pose proof (Z.log2_nonneg n) as Ha0.
  pose proof (Z.log2_nonneg (Z.pos d)) as Hb0.
  set (a := Z.log2 n) in *. set (b := Z.log2 (Z.pos d)) in *.
  replace (a - b + 1) with ((a + 1) + - b) by lia.
  rewrite Qpower_plus by done. rewrite Qpower_opp.
  change 2%Q with (inject_Z 2).
  rewrite <-!Zpower_Qpower by lia.
  rewrite (Qmake_Qdiv n d).
  replace (Z.succ a) with (a + 1) in Ha by lia.
  assert (0 < 2 ^ b) as HB by (apply Z.pow_pos_nonneg; lia).
  rewrite Zlt_Qlt in HB, Hn, Ha. rewrite Zle_Qle in Hb.
  assert (0 < inject_Z (Z.pos d))%Q as Hd by reflexivity.
  set (qa := inject_Z (2 ^ (a + 1))) in *. set (qb := inject_Z (2 ^ b)) in *.
  set (qn := inject_Z n) in *. set (qd := inject_Z (Z.pos d)) in *.
  change (inject_Z 0) with 0%Q in *.
  apply Qlt_shift_div_r; [done|].
  assert (qa * / qb * qd == qa * qd / qb)%Q as -> by (field; lra).
  apply Qlt_shift_div_l; [done|]. nra.
Qed.

Lemma Qpower2_le_inv (a b : Z) : (2 ^ a < 2 ^ (b + 1))%Q → a ≤ b.
Proof.
  intros Hlt. destruct (decide (a ≤ b)) as [|Hn]; [done|]. exfalso.
  assert (2 ^ (b + 1) <= 2 ^ a)%Q as Hle.
  { apply Qpower_le_compat_l; [lia|done]. }
  lra.
Qed.

Lemma ilog2_unique (q : Q) (L : Z) :
  (2 ^ L <= q)%Q → (q < 2 ^ (L + 1))%Q → ilog2 q = L.
Proof.
  intros H1 H2.
  assert (0 < q)%Q as Hq by (pose proof (Qpower2_pos L); lra).
  pose proof (ilog2_le q Hq) as H3. pose proof (ilog2_lt q Hq) as H4.
  assert (L ≤ ilog2 q) by (apply Qpower2_le_inv; lra).
  assert (ilog2 q ≤ L) by (apply Qpower2_le_inv; lra).
  lia.
Qed.

Lemma round_half_even_Qeq (p q : Q) :
  (p == q)%Q → round_half_even p = round_half_even q.
Proof.
  destruct p as [n1 d1], q as [n2 d2]. unfold Qeq, round_half_even. simpl.
  intros Heq.
  pose proof (Z.div_mod n1 (Z.pos d1) ltac:(done)) as Hdiv1.
  pose proof (Z.mod_pos_bound n1 (Z.pos d1) ltac:(done)) as Hmod1.
  pose proof (Z.div_mod n2 (Z.pos d2) ltac:(done)) as Hdiv2.
  pose proof (Z.mod_pos_bound n2 (Z.pos d2) ltac:(done)) as Hmod2.
  set (f1 := n1 `div` Z.pos d1) in *. set (r1 := n1 `mod` Z.pos d1) in *.
  set (f2 := n2 `div` Z.pos d2) in *. set (r2 := n2 `mod` Z.pos d2) in *.
  clearbody f1 r1 f2 r2.
  set (D := Z.pos d1 * Z.pos d2).
  assert (0 < D) as HD by (unfold D; lia).
  assert (D * f1 + r1 * Z.pos d2 = D * f2 + r2 * Z.pos d1) as Hcross.
  { unfold D. rewrite Hdiv1, Hdiv2 in Heq. lia. }
  assert (0 ≤ r1 * Z.pos d2 < D) as Hb1 by (unfold D; nia).
  assert (0 ≤ r2 * Z.pos d1 < D) as Hb2 by (unfold D; nia).
  assert (f1 = f2) as Hf.
  { destruct (Z.lt_trichotomy f1 f2) as [?|[?|?]]; [|done|]; exfalso; nia. }
  subst f2.
  assert (r1 * Z.pos d2 = r2 * Z.pos d1) as Hr by lia.
  assert (2 * r1 < Z.pos d1 ↔ 2 * r2 < Z.pos d2) as Hlt by (split; nia).
  assert (Z.pos d1 < 2 * r1 ↔ Z.pos d2 < 2 * r2) as Hgt by (split; nia).
  repeat case_decide; try done; exfalso; tauto.
Qed.

Lemma round_half_even_inject (z : Z) : round_half_even (inject_Z z) = z.
Proof.
  unfold round_half_even, inject_Z. simpl.
  rewrite Z.div_1_r, Z.mod_1_r. by rewrite decide_True by lia.
Qed.

Lemma Qabs_pos_eq (q : Q) : (0 < q)%Q → Qabs q = q.
Proof.
  destruct q as [n d]. unfold Qlt, Qabs. simpl. intros Hq.
  f_equal. apply Z.abs_eq. lia.
Qed.

Lemma to_double_pos (q : Q) :
  (0 < q)%Q →
  to_double q
  = (inject_Z (round_half_even (q / 2 ^ (ilog2 q - 52))) * 2 ^ (ilog2 q - 52))%Q.
Proof.
  intros Hq. unfold to_double.
  destruct (Qeq_bool q 0) eqn:H0.
  { apply Qeq_bool_iff in H0. lra. }
  rewrite (proj2 (Qle_bool_iff 0 q)) by lra.
  by rewrite (Qabs_pos_eq q Hq).
Qed.

Lemma ilog2_Qeq (p q : Q) : (0 < p)%Q → (p == q)%Q → ilog2 p = ilog2 q.
Proof.
  intros Hp Heq. symmetry. apply ilog2_unique.
  - rewrite <-Heq. by apply ilog2_le.
  - rewrite <-Heq. by apply ilog2_lt.
Qed.

Lemma to_double_Qeq (p q : Q) : (0 < p)%Q → (p == q)%Q → to_double p = to_double q.
Proof.
  intros Hp Heq. assert (0 < q)%Q as Hq by (by rewrite <-Heq).
  rewrite !to_double_pos by done. rewrite <-(ilog2_Qeq p q Hp Heq).
  f_equal. f_equal. apply round_half_even_Qeq.
  apply Qdiv_comp; [done|reflexivity].
Qed.

Lemma ilog2_double (q : Q) : (0 < q)%Q → ilog2 (2 * q) = ilog2 q + 1.
Proof.
  intros Hq. pose proof (ilog2_le q Hq) as H1. pose proof (ilog2_lt q Hq) as H2.
  apply ilog2_unique.
  - rewrite Qpower_plus by done. change (2 ^ 1)%Q with 2%Q. lra.
  - rewrite Qpower_plus by done. change (2 ^ 1)%Q with 2%Q. lra.
Qed.

(** Doubling is exact. *)
Lemma to_double_scale2 (q : Q) :
  (0 < q)%Q → (to_double (2 * q) == 2 * to_double q)%Q.
Proof.
  intros Hq. rewrite !to_double_pos by lra. rewrite ilog2_double by done.
  replace (ilog2 q + 1 - 52) with ((ilog2 q - 52) + 1) by lia.
  set (e := ilog2 q - 52).
  pose proof (Qpower2_pos e) as Hs.
  assert (2 ^ (e + 1) == 2 ^ e * 2)%Q as He.
  { rewrite Qpower_plus by done. reflexivity. }
  rewrite (round_half_even_Qeq (2 * q / 2 ^ (e + 1)) (q / 2 ^ e)).
  - rewrite He. ring.
  - rewrite He. field. lra.
Qed.

(** The significand of the double nearest to a positive rational. *)
Lemma significand_range (q : Q) :
  (0 < q)%Q →
  2 ^ 52 ≤ round_half_even (q / 2 ^ (ilog2 q - 52)) ≤ 2 ^ 53.
Proof.
  intros Hq. pose proof (ilog2_le q Hq) as H1. pose proof (ilog2_lt q Hq) as H2.
  set (e := ilog2 q - 52) in *.
  replace (ilog2 q) with (e + 52) in H1 by lia.
  replace (ilog2 q + 1) with (e + 53) in H2 by lia.
  rewrite Qpower_plus in H1, H2 by done.
  pose proof (Qpower2_pos e) as Hs. set (s := (2 ^ e)%Q) in *.
  pose proof (round_half_even_near (q / s)) as Hm.
  apply Qabs_Qle_condition in Hm.
  assert (q / s * s == q)%Q as Ht by (field; lra).
  set (t := (q / s)%Q) in *.
  change (2 ^ 52)%Q with (4503599627370496 # 1)%Q in H1.
  change (2 ^ 53)%Q with (9007199254740992 # 1)%Q in H2.
  assert (4503599627370496 # 1 <= t)%Q as Ht1 by nra.
  assert (t < 9007199254740992 # 1)%Q as Ht2 by nra.
  set (m := round_half_even t) in *.
  assert ((4503599627370496 # 1) - 1 < inject_Z m)%Q as Hm1 by lra.
  assert (inject_Z m < (9007199254740992 # 1) + 1)%Q as Hm2 by lra.
  change ((4503599627370496 # 1) - 1)%Q with (inject_Z (2 ^ 52 - 1)) in Hm1.
  change ((9007199254740992 # 1) + 1)%Q with (inject_Z (2 ^ 53 + 1)) in Hm2.
  rewrite <-Zlt_Qlt in Hm1, Hm2. lia.
Qed.

Lemma to_double_positive (q : Q) : (0 < q)%Q → (0 < to_double q)%Q.
Proof.
  intros Hq. rewrite to_double_pos by done.
  pose proof (significand_range q Hq) as [Hm _].
  pose proof (Qpower2_pos (ilog2 q - 52)).
  assert (0 < inject_Z (round_half_even (q / 2 ^ (ilog2 q - 52))))%Q.
  { change 0%Q with (inject_Z 0). rewrite <-Zlt_Qlt. lia. }
  nra.
Qed.

(** A double is the double nearest to itself. *)
Lemma to_double_idem (q : Q) :
  (0 < q)%Q → (to_double (to_double q) == to_double q)%Q.
Proof.
  intros Hq. pose proof (to_double_positive q Hq) as Hx.
  rewrite (to_double_pos (to_double q) Hx).
  rewrite (to_double_pos q Hq) in Hx |- *.
  pose proof (significand_range q Hq) as [Hm1 Hm2].
  set (e := ilog2 q - 52) in *.
  set (m := round_half_even (q / 2 ^ e)) in *.
  pose proof (Qpower2_pos e) as Hs.
  destruct (decide (m = 2 ^ 53)) as [Hmax|Hlt].
  - assert (inject_Z m * 2 ^ e == 2 ^ (e + 53))%Q as Hval.
    { rewrite Hmax, Qpower_plus by done.
      change (inject_Z (2 ^ 53)) with (2 ^ 53)%Q. ring. }
    assert (ilog2 (inject_Z m * 2 ^ e) = e + 53) as ->.
    { apply ilog2_unique; rewrite Hval; [lra|].
      apply Qpower_lt_compat_l; [lia|done]. }
    replace (e + 53 - 52) with (e + 1) by lia.
    assert (2 ^ (e + 1) == 2 ^ e * 2)%Q as He.
    { rewrite Qpower_plus by done. reflexivity. }
    rewrite (round_half_even_Qeq _ (inject_Z (2 ^ 52))).
    + rewrite round_half_even_inject, He, Hmax.
      change (inject_Z (2 ^ 52)) with (4503599627370496 # 1)%Q.
      change (inject_Z (2 ^ 53)) with (9007199254740992 # 1)%Q. ring.
    + rewrite He, Hmax.
      change (inject_Z (2 ^ 52)) with (4503599627370496 # 1)%Q.
      change (inject_Z (2 ^ 53)) with (9007199254740992 # 1)%Q. field. lra.
  - assert (ilog2 (inject_Z m * 2 ^ e) = e + 52) as ->.
    { assert (inject_Z (2 ^ 52) <= inject_Z m)%Q as Ha by (rewrite <-Zle_Qle; lia).
      assert (inject_Z m < inject_Z (2 ^ 53))%Q as Hb by (rewrite <-Zlt_Qlt; lia).
      change (inject_Z (2 ^ 52)) with (4503599627370496 # 1)%Q in Ha.
      change (inject_Z (2 ^ 53)) with (9007199254740992 # 1)%Q in Hb.
      apply ilog2_unique; [|replace (e + 52 + 1) with (e + 53) by lia];
        rewrite Qpower_plus by done.
      + rewrite (Qmult_comm (2 ^ e) (2 ^ 52)).
        change (2 ^ 52)%Q with (4503599627370496 # 1)%Q.
        apply Qmult_le_compat_r; [done|lra].
      + rewrite (Qmult_comm (2 ^ e) (2 ^ 53)).
        change (2 ^ 53)%Q with (9007199254740992 # 1)%Q.
        by apply Qmult_lt_compat_r. }
    replace (e + 52 - 52) with e by lia.
    rewrite (round_half_even_Qeq _ (inject_Z m)).
    + by rewrite round_half_even_inject.
    + field. lra.
Qed.

(** The rounding error of a positive rational is at most [2^-53] of
    it. *)
Lemma float_of_error (x : Qc) :
  (0 < this x)%Q →
  (Qabs (this (float_of x) - this x) <= this x * 2 ^ (-53))%Q.
Proof.
  intros Hx. unfold float_of, Q2Qc. cbn [this]. rewrite Qred_correct.
  by apply to_double_error.
Qed.

Lemma float_of_zero : float_of (Q2Qc 0) = Q2Qc 0.
Proof. apply Qc_is_canon. reflexivity. Qed.

Lemma this_float_of (x : Qc) : (this (float_of x) == to_double (this x))%Q.
Proof. apply Qred_correct. Qed.

Lemma this_Qcmult (x y : Qc) : (this (x * y)%Qc == this x * this y)%Q.
Proof. apply Qred_correct. Qed.

(** The doubling of a float is exact: rounding a quotient and doubling
    it gives the float nearest to the double of the quotient. *)
Lemma float_of_double (x : Qc) :
  (0 < this x)%Q →
  float_of (float_of x * float_of_int 2) = float_of (Qc_of_Z 2 * x).
Proof.
  intros Hx. apply Qc_is_canon. rewrite !this_float_of.
  pose proof (to_double_positive (this x) Hx) as Hpos.
  assert (this (float_of x * float_of_int 2)%Qc == 2 * to_double (this x))%Q as Ha.
  { rewrite this_Qcmult, this_float_of. unfold float_of_int.
    rewrite this_float_of.
    assert (to_double (this (Qc_of_Z 2)) == 2)%Q as -> by (vm_compute; reflexivity).
    ring. }
  assert (this (Qc_of_Z 2 * x)%Qc == 2 * this x)%Q as Hb.
  { rewrite this_Qcmult. reflexivity. }
  assert (0 < this (float_of x * float_of_int 2)%Qc)%Q as Hpa by (rewrite Ha; lra).
  assert (0 < this (Qc_of_Z 2 * x)%Qc)%Q as Hpb by (rewrite Hb; lra).
  rewrite (to_double_Qeq _ _ Hpa Ha), (to_double_Qeq _ _ Hpb Hb).
  rewrite (to_double_Qeq (2 * to_double (this x)) (to_double (2 * this x))).
  - apply to_double_idem. lra.
  - lra.
  - symmetry. by apply to_double_scale2.
Qed.

(** ** The worked graph *)

Lemma simplify_path4 : simplify path4 = Ok path4_graph.
Proof. vm_compute. reflexivity. Qed.

(** ** The order on identifiers *)

Lemma str_lt_spec (s1 s2 : string) :
  str_lt s1 s2 = true ↔ strict String.le s1 s2.
Proof.
  unfold str_lt, strict, String.le, String.ltb, String.leb.
  rewrite (String.compare_antisym s2 s1).
  destruct (String.compare s1 s2); simpl; split; try done.
  - intros [_ Hn]. by destruct Hn.
  - intros _. split; [done|]. by intros [].
  - by intros [[] _].
Qed.

Lemma str_lt_irrefl (s : string) : str_lt s s = false.
Proof.
  apply not_true_is_false. rewrite str_lt_spec. intros [? ?]. done.
Qed.

Lemma str_lt_trans (s1 s2 s3 : string) :
  str_lt s1 s2 = true → str_lt s2 s3 = true → str_lt s1 s3 = true.
Proof. rewrite !str_lt_spec. intros. by etrans. Qed.

Lemma str_lt_total (s1 s2 : string) :
  s1 ≠ s2 → str_lt s1 s2 = true ∨ str_lt s2 s1 = true.
Proof.
  intros Hne. rewrite !str_lt_spec.
  destruct (total String.le s1 s2) as [Hle|Hle]; [left|right]; split; try done.
  all: intros Hle'; apply Hne; by apply (anti_symm String.le).
Qed.

(** ** Rankings *)

Section TopNFacts.
Context {A : Type} `{Score A}.
Implicit Types (x y z : string * A) (l : list (string * A)) (d : gmap string A).

Lemma score_neg_inj (a b : A) : score_neg a = score_neg b → a = b.
Proof.
  intros Heq. destruct (trichotomy score_lt a b) as [Hlt|[?|Hlt]]; [|done|].
  all: apply score_neg_lt in Hlt; rewrite Heq in Hlt;
    by apply (irreflexivity score_lt) in Hlt.
Qed.

Lemma key_lt_spec x y :
  key_lt (sort_key x) (sort_key y) = true ↔ ranks_before x y.
Proof.
  unfold key_lt, sort_key, ranks_before; simpl. case_decide as Hneg.
  - apply score_neg_inj in Hneg. split; [by auto|].
    intros [Hlt|[_ ?]]; [|done].
    rewrite Hneg in Hlt. by apply (irreflexivity score_lt) in Hlt.
  - rewrite bool_decide_eq_true, score_neg_lt. split; [by auto|].
    intros [?|[Heq _]]; [done|]. destruct Hneg. by rewrite Heq.
Qed.

Lemma ranks_before_irrefl x : ¬ ranks_before x x.
Proof.
  intros [Hlt|[_ Hlt]].
  - by apply (irreflexivity score_lt) in Hlt.
  - by rewrite str_lt_irrefl in Hlt.
Qed.

Lemma ranks_before_trans x y z :
  ranks_before x y → ranks_before y z → ranks_before x z.
Proof.
  intros [Hxy|[Hxy Hn]] [Hyz|[Hyz Hm]].
  - left. by etrans.
  - left. by rewrite <-Hyz.
  - left. by rewrite Hxy.
  - right. split; [congruence|]. by eapply str_lt_trans.
Qed.

Lemma ranks_before_total x y :
  x.1 ≠ y.1 → ranks_before x y ∨ ranks_before y x.
Proof.
  intros Hne. destruct (trichotomy score_lt x.2 y.2) as [Hlt|[Heq|Hlt]].
  - right. by left.
  - destruct (str_lt_total _ _ Hne); [left|right]; right; done.
  - left. by left.
Qed.

Lemma insert_by_Permutation {X K} (key : X → K) lt (x : X) (l : list X) :
  insert_by key lt x l ≡ₚ x :: l.
Proof.
  induction l as [|y l IH]; simpl; [done|].
  destruct (lt (key y) (key x)); [|done].
  rewrite IH. apply Permutation_swap.
Qed.

Lemma sorted_Permutation {X K} (key : X → K) lt (l : list X) :
  sorted l key lt ≡ₚ l.
Proof.
  induction l as [|x l IH]; simpl; [done|].
  by rewrite insert_by_Permutation, IH.
Qed.

Lemma insert_by_ranked x l :
  StronglySorted ranks_before l →
  Forall (λ y, y.1 ≠ x.1) l →
  StronglySorted ranks_before (insert_by sort_key key_lt x l).
Proof.
  induction l as [|y l IH]; intros Hs Hd; simpl.
  { by repeat constructor. }
  apply StronglySorted_inv in Hs as [Hs Hy].
  apply Forall_cons in Hd as [Hyx Hd].
  destruct (key_lt (sort_key y) (sort_key x)) eqn:Hlt.
  - apply key_lt_spec in Hlt. constructor; [by apply IH|].
    rewrite insert_by_Permutation. by constructor.
  - assert (ranks_before x y) as Hxy.
    { destruct (ranks_before_total y x Hyx) as [Hb|?]; [|done].
      apply key_lt_spec in Hb. congruence. }
    constructor; [by constructor|]. constructor; [done|].
    eapply Forall_impl; [exact Hy|]. intros z. by apply ranks_before_trans.
Qed.

Lemma sorted_ranked l :
  NoDup l.*1 → StronglySorted ranks_before (sorted l sort_key key_lt).
Proof.
  induction l as [|x l IH]; simpl; intros Hnd; [constructor|].
  apply NoDup_cons in Hnd as [Hx Hnd].
  apply insert_by_ranked; [by apply IH|].
  rewrite sorted_Permutation. apply Forall_forall. intros y Hy Heq.
  apply Hx. rewrite <-Heq. by apply list_elem_of_fmap_2.
Qed.

Lemma ranking_Permutation d : ranking d ≡ₚ map_to_list d.
Proof. apply sorted_Permutation. Qed.

Lemma ranking_ranked d : StronglySorted ranks_before (ranking d).
Proof. apply sorted_ranked, NoDup_fst_map_to_list. Qed.

Lemma length_ranking d : length (ranking d) = size d.
Proof. by rewrite ranking_Permutation, length_map_to_list. Qed.

Lemma elem_of_ranking d n s : (n, s) ∈ ranking d ↔ d !! n = Some s.
Proof. by rewrite ranking_Permutation, elem_of_map_to_list. Qed.

Lemma StronglySorted_take {X} (R : relation X) (l : list X) n :
  StronglySorted R l → StronglySorted R (take n l).
Proof.
  intros Hs. rewrite <-(take_drop n l) in Hs.
  by apply StronglySorted_app_1_l in Hs.
Qed.

Lemma slice_to_nonneg {X} (l : list X) (k : Z) :
  0 ≤ k → slice_to l k = take (Z.to_nat k) l.
Proof. intros. unfold slice_to. by case_decide. Qed.

Lemma slice_to_neg {X} (l : list X) (k : Z) :
  k < 0 → slice_to l k = take (Z.to_nat (Z.of_nat (length l) + k)) l.
Proof. intros. unfold slice_to. case_decide; [lia|done]. Qed.

Lemma slice_to_subseteq {X} (l : list X) (k : Z) : slice_to l k ⊆ l.
Proof. unfold slice_to. case_decide; apply subseteq_take. Qed.

Lemma slice_to_ranked l (k : Z) :
  StronglySorted ranks_before l → StronglySorted ranks_before (slice_to l k).
Proof. unfold slice_to. case_decide; apply StronglySorted_take. Qed.

(** The whole ranking is [top_n] at the number of nodes. *)
Lemma top_n_all d : top_n d (Z.of_nat (size d)) = ranking d.
Proof.
  unfold top_n. rewrite slice_to_nonneg by lia.
  apply take_ge. rewrite length_ranking. lia.
Qed.

End TopNFacts.

Section TopNClaims.
Context {A : Type} `{Score A}.
Implicit Types (d : gmap string A).

(** C2: for every score mapping [d] over N nodes and every count
    [top >= 0], the list [top_n d top] is sorted by strictly descending
    score, entries of equal score by strictly ascending identifier (in
    the lexicographic order of strings); it has [min top N] entries,
    and each of them is an item of [d]. *)
Theorem top_n_ranked_length d (top : Z) :
  0 ≤ top →
  StronglySorted ranks_before (top_n d top)
  ∧ Z.of_nat (length (top_n d top)) = Z.min top (Z.of_nat (size d))
  ∧ ∀ n s, (n, s) ∈ top_n d top → d !! n = Some s.
Proof.
  intros Htop. split_and!.
  - apply slice_to_ranked, ranking_ranked.
  - unfold top_n. rewrite slice_to_nonneg, length_take, length_ranking by done.
    lia.
  - intros n s Hin. apply elem_of_ranking.
    by apply (slice_to_subseteq (ranking d) top).
Qed.

(** C9: for a negative count [t], [top_n d t] is the first [N - |t|]
    entries of the full ranking when [|t| < N] and the empty list when
    [|t| >= N]; in no case does it have [min t N] entries. *)
Theorem top_n_negative d (t : Z) :
  t < 0 →
  let N := Z.of_nat (size d) in
  top_n d t = take (Z.to_nat (N - Z.abs t)) (top_n d N)
  ∧ (Z.abs t < N → Z.of_nat (length (top_n d t)) = N - Z.abs t)
  ∧ (N ≤ Z.abs t → top_n d t = [])
  ∧ Z.of_nat (length (top_n d t)) ≠ Z.min t N.
Proof.
  intros Ht N. subst N.
  assert (top_n d t
          = take (Z.to_nat (Z.of_nat (size d) - Z.abs t)) (ranking d)) as Heq.
  { unfold top_n. rewrite slice_to_neg, length_ranking by done.
    f_equal. lia. }
  split_and!.
  - by rewrite top_n_all.
  - intros Hlt. rewrite Heq, length_take, length_ranking. lia.
  - intros Hge. rewrite Heq.
    replace (Z.to_nat (Z.of_nat (size d) - Z.abs t)) with 0%nat by lia. done.
  - lia.
Qed.

End TopNClaims.

Lemma top_n_ranked_length_witness :
  0 ≤ 2
  ∧ (StronglySorted ranks_before (top_n (degree path4_graph) 2)
     ∧ Z.of_nat (length (top_n (degree path4_graph) 2))
       = Z.min 2 (Z.of_nat (size (degree path4_graph)))
     ∧ ∀ n s, (n, s) ∈ top_n (degree path4_graph) 2 →
              degree path4_graph !! n = Some s).
Proof.
  split; [lia|]. apply (top_n_ranked_length (degree path4_graph) 2). lia.
Defined.

Lemma top_n_negative_witness :
  -1 < 0
  ∧ (top_n (degree path4_graph) (-1)
       = take (Z.to_nat (Z.of_nat (size (degree path4_graph)) - Z.abs (-1)))
           (top_n (degree path4_graph) (Z.of_nat (size (degree path4_graph))))
     ∧ (Z.abs (-1) < Z.of_nat (size (degree path4_graph)) →
        Z.of_nat (length (top_n (degree path4_graph) (-1)))
          = Z.of_nat (size (degree path4_graph)) - Z.abs (-1))
     ∧ (Z.of_nat (size (degree path4_graph)) ≤ Z.abs (-1) →
        top_n (degree path4_graph) (-1) = [])
     ∧ Z.of_nat (length (top_n (degree path4_graph) (-1)))
         ≠ Z.min (-1) (Z.of_nat (size (degree path4_graph)))).
Proof.
  split; [lia|]. apply (top_n_negative (degree path4_graph) (-1)). lia.
Defined.

(** On the path A - B - C - D, [--top -1] lists three of the four nodes
    and [--top -4] none. *)
Example top_n_negative_path4 :
  top_n (degree path4_graph) (-1) = [("B", 2); ("C", 2); ("A", 1)]
  ∧ top_n (degree path4_graph) (-4) = [].
Proof. split; vm_compute; reflexivity. Qed.

(** ** Missing input file *)

(** C4: when the input path does not exist ([exists()] returns [False]
    and [resolve()] returns the absolute path), the run stops with a
    non-zero status before any parse attempt; the error stream gets one
    line, ["ERROR: GraphML not found at "] followed by the resolved
    path; nothing is printed and no file is written. *)
Theorem missing_input_exits (env : Env) (args : Args) (resolved : string) :
  path_exists env (graphml args) = Ok false →
  path_resolve env (graphml args) = Ok resolved →
  exit_status (main env args) ≠ 0
  ∧ stderr (main env args) = ["ERROR: GraphML not found at " +:+ resolved]
  ∧ (main env args).1 = []
  ∧ stdout (main env args) = []
  ∧ files_written (main env args) = [].
Proof.
  intros Hex Hres. unfold main. rewrite Hex. simpl. rewrite Hres. done.
Qed.

Lemma missing_input_exits_witness :
  path_exists demo_env (graphml missing_args) = Ok false
  ∧ path_resolve demo_env (graphml missing_args) = Ok "/data/does_not_exist.graphml"
  ∧ exit_status (main demo_env missing_args) ≠ 0
  ∧ stderr (main demo_env missing_args)
    = ["ERROR: GraphML not found at " +:+ "/data/does_not_exist.graphml"]
  ∧ (main demo_env missing_args).1 = []
  ∧ stdout (main demo_env missing_args) = []
  ∧ files_written (main demo_env missing_args) = [].
Proof.
  split; [reflexivity|]. split; [reflexivity|].
  exact (missing_input_exits demo_env missing_args "/data/does_not_exist.graphml"
           eq_refl eq_refl).
Defined.

Example missing_input_message :
  stderr (main demo_env missing_args)
  = ["ERROR: GraphML not found at /data/does_not_exist.graphml"].
Proof. reflexivity. Qed.

(** ** Simplification *)

Lemma default_empty_lookup {V} (o : option (gmap string V)) (v : string) :
  default ∅ o !! v = o ≫= (.!! v).
Proof. destruct o; simpl; [done|apply lookup_empty]. Qed.

Lemma adj_in_node_empty : adj_in_node empty_graph.
Proof. intros n _. apply lookup_empty. Qed.

Lemma ensure_node_adj_in_node G n : adj_in_node G → adj_in_node (ensure_node G n).
Proof.
  intros Hwf m. unfold ensure_node. destruct (node G !! n) eqn:Hn; [apply Hwf|].
  simpl. destruct (decide (n = m)) as [->|Hne].
  - by rewrite lookup_insert_eq.
  - rewrite !lookup_insert_ne by done. apply Hwf.
Qed.

Lemma ensure_node_edge_data G n u v :
  adj_in_node G → edge_data (ensure_node G n) u v = edge_data G u v.
Proof.
  intros Hwf. unfold ensure_node, edge_data.
  destruct (node G !! n) eqn:Hn; [done|]. simpl.
  destruct (decide (n = u)) as [->|Hne].
  - rewrite lookup_insert_eq, (Hwf _ Hn). simpl. apply lookup_empty.
  - by rewrite lookup_insert_ne.
Qed.

Lemma ensure_node_keeps G n m a :
  node G !! m = Some a → node (ensure_node G n) !! m = Some a.
Proof.
  intros Hm. unfold ensure_node. destruct (node G !! n) eqn:Hn; [done|].
  simpl. rewrite lookup_insert_ne; [done|]. congruence.
Qed.

Lemma ensure_node_is_node G n : is_Some (node (ensure_node G n) !! n).
Proof.
  unfold ensure_node. destruct (node G !! n) eqn:Hn; [by rewrite Hn|].
  simpl. by rewrite lookup_insert_eq.
Qed.

Lemma add_node_data_new G n a :
  node G !! n = None → node (add_node_data G (n, a)) = <[n := a]> (node G).
Proof.
  intros Hn. unfold add_node_data, ensure_node, dict_update. simpl.
  rewrite Hn. simpl. rewrite lookup_insert_eq. simpl.
  by rewrite insert_insert_eq, (right_id_L ∅ (∪)).
Qed.

Lemma add_node_data_invariants G nd u v :
  adj_in_node G →
  adj_in_node (add_node_data G nd)
  ∧ edge_data (add_node_data G nd) u v = edge_data G u v.
Proof.
  intros Hwf. split.
  - intros m Hm. unfold add_node_data in *. simpl in *.
    apply (ensure_node_adj_in_node G nd.1 Hwf).
    destruct (decide (nd.1 = m)) as [<-|Hne].
    + by rewrite lookup_insert_eq in Hm.
    + by rewrite lookup_insert_ne in Hm.
  - apply (ensure_node_edge_data G nd.1 u v Hwf).
Qed.

Lemma add_nodes_from_invariants l G u v :
  adj_in_node G →
  adj_in_node (add_nodes_from G l)
  ∧ edge_data (add_nodes_from G l) u v = edge_data G u v.
Proof.
  revert G. induction l as [|nd l IH]; intros G Hwf; simpl; [done|].
  destruct (add_node_data_invariants G nd u v Hwf) as [Hwf' Heq].
  destruct (IH _ Hwf') as [? Heq']. split; [done|]. by rewrite Heq'.
Qed.

Lemma add_nodes_from_node l :
  NoDup l.*1 → node (add_nodes_from empty_graph l) = list_to_map l.
Proof.
  induction l as [|[n a] l IH] using rev_ind; intros Hnd; [done|].
  rewrite fmap_app in Hnd. apply NoDup_app in Hnd as (Hl & Hfresh & _).
  assert (n ∉ l.*1) as Hn.
  { intros Hin. apply (Hfresh n Hin). simpl. by left. }
  unfold add_nodes_from in *. rewrite foldl_snoc, list_to_map_snoc by done.
  rewrite add_node_data_new; rewrite (IH Hl); [done|].
  by apply not_elem_of_list_to_map_1.
Qed.

(** The nodes of the parsed graph, added to the empty graph. *)
Lemma add_nodes_from_raw Graw :
  node (add_nodes_from empty_graph (nodes_data Graw)) = raw_node Graw.
Proof.
  unfold nodes_data. rewrite add_nodes_from_node.
  - apply list_to_map_to_list.
  - apply NoDup_fst_map_to_list.
Qed.

Lemma add_edge_keeps G a b d n x :
  node G !! n = Some x → node (add_edge G a b d) !! n = Some x.
Proof. intros Hn. simpl. by do 2 apply ensure_node_keeps. Qed.

Lemma add_edge_edge_data G a b d u v :
  adj_in_node G → symmetric G → a ≠ b →
  edge_data (add_edge G a b d) u v
  = if decide ((u = a ∧ v = b) ∨ (u = b ∧ v = a))
    then Some (dict_update (default ∅ (edge_data G u v)) d)
    else edge_data G u v.
Proof.
  intros Hwf Hsym Hab. unfold add_edge.
  set (G1 := ensure_node (ensure_node G a) b).
  assert (∀ x y, edge_data G1 x y = edge_data G x y) as HG1.
  { intros x y. unfold G1.
    rewrite !ensure_node_edge_data; auto using ensure_node_adj_in_node. }
  unfold edge_data at 1. simpl.
  destruct (decide (u = b)) as [->|Hub].
  - rewrite lookup_insert_eq. simpl. rewrite (lookup_insert_ne _ a b) by done.
    destruct (decide (v = a)) as [->|Hva].
    + rewrite lookup_insert_eq, decide_True by auto.
      by rewrite HG1, (Hsym a b).
    + rewrite lookup_insert_ne, default_empty_lookup by done.
      fold (edge_data G1 b v). rewrite HG1, decide_False; [done|].
      intros [[? ?]|[_ ?]]; congruence.
  - rewrite (lookup_insert_ne _ b u) by done.
    destruct (decide (u = a)) as [->|Hua].
    + rewrite lookup_insert_eq. simpl.
      destruct (decide (v = b)) as [->|Hvb].
      * rewrite lookup_insert_eq, decide_True by auto. by rewrite HG1.
      * rewrite lookup_insert_ne, default_empty_lookup by done.
        fold (edge_data G1 a v). rewrite HG1, decide_False; [done|].
        intros [[_ ?]|[? _]]; congruence.
    + rewrite lookup_insert_ne by done. fold (edge_data G1 u v).
      rewrite HG1, decide_False; [done|].
      intros [[? _]|[? _]]; congruence.
Qed.

Lemma add_edge_adj_in_node G a b d :
  adj_in_node G → adj_in_node (add_edge G a b d).
Proof.
  intros Hwf m. unfold add_edge.
  set (G1 := ensure_node (ensure_node G a) b). simpl. intros Hm.
  assert (adj_in_node G1) as Hwf1 by (unfold G1; auto using ensure_node_adj_in_node).
  assert (m ≠ b) as Hmb.
  { intros ->. destruct (ensure_node_is_node (ensure_node G a) b).
    unfold G1 in Hm. congruence. }
  assert (m ≠ a) as Hma.
  { intros ->. destruct (ensure_node_is_node G a) as [x Hx].
    apply (ensure_node_keeps _ b) in Hx. unfold G1 in Hm. congruence. }
  rewrite !lookup_insert_ne by done. by apply Hwf1.
Qed.

Lemma add_edge_symmetric G a b d :
  adj_in_node G → symmetric G → a ≠ b → symmetric (add_edge G a b d).
Proof.
  intros Hwf Hsym Hab u v. rewrite !add_edge_edge_data by done.
  rewrite (Hsym v u).
  destruct (decide ((u = a ∧ v = b) ∨ (u = b ∧ v = a))) as [Hc|Hc];
    [rewrite decide_True|rewrite decide_False]; tauto.
Qed.

(** One raw edge: the invariants stay, the attributes of every pair of
    nodes change by [merged_step], the nodes keep their attributes. *)
Lemma simplify_step_spec G e G' :
  adj_in_node G → symmetric G → simplify_step G e = Ok G' →
  adj_in_node G' ∧ symmetric G'
  ∧ (∀ u v, edge_data G' u v = merged_step u v (edge_data G u v) e)
  ∧ (∀ n x, node G !! n = Some x → node G' !! n = Some x).
Proof.
  intros Hwf Hsym. destruct e as [[a b] d]. unfold simplify_step, call_add_edge.
  case_decide as Hab.
  - case_decide; [done|]. intros [= <-]. split_and!.
    + by apply add_edge_adj_in_node.
    + by apply add_edge_symmetric.
    + intros u v. rewrite add_edge_edge_data by done.
      unfold merged_step, joins. simpl.
      destruct (decide ((u = a ∧ v = b) ∨ (u = b ∧ v = a))) as [Hc|Hc];
        [rewrite decide_True|rewrite decide_False]; try done.
      * split; [done|]. destruct Hc as [[-> ->]|[-> ->]]; auto.
      * intros [_ [[-> ->]|[-> ->]]]; auto.
    + intros n x. apply add_edge_keeps.
  - intros [= <-]. split_and!; try done.
    intros u v. unfold merged_step, joins. simpl.
    rewrite decide_False; [done|]. by intros [? _].
Qed.

Lemma simplify_loop_spec es G G' :
  adj_in_node G → symmetric G → simplify_loop G es = Ok G' →
  adj_in_node G' ∧ symmetric G'
  ∧ (∀ u v, edge_data G' u v = foldl (merged_step u v) (edge_data G u v) es)
  ∧ (∀ n x, node G !! n = Some x → node G' !! n = Some x).
Proof.
  revert G. induction es as [|e es IH]; intros G Hwf Hsym; simpl.
  { by intros [= <-]. }
  destruct (simplify_step G e) as [G1|] eqn:Hstep; simpl; [|done].
  destruct (simplify_step_spec G e G1 Hwf Hsym Hstep) as (Hwf1 & Hsym1 & He1 & Hn1).
  intros Hloop. destruct (IH G1 Hwf1 Hsym1 Hloop) as (? & ? & He & Hn).
  split_and!; try done.
  - intros u v. by rewrite He, He1.
  - intros n x Hx. by apply Hn, Hn1.
Qed.

Lemma merged_step_loop u acc e : merged_step u u acc e = acc.
Proof.
  unfold merged_step. rewrite decide_False; [done|].
  intros [Hne [[? ?]|[? ?]]]; congruence.
Qed.

Lemma merged_attrs_loop u es : merged_attrs u u es = None.
Proof.
  unfold merged_attrs. induction es as [|e es IH]; simpl; [done|].
  by rewrite merged_step_loop.
Qed.

Lemma merged_attrs_snoc u v es e :
  joins u v e →
  merged_attrs u v (es ++ [e])
  = Some (dict_update (default ∅ (merged_attrs u v es)) e.2).
Proof.
  intros Hj. unfold merged_attrs. rewrite foldl_snoc.
  unfold merged_step at 1. by rewrite decide_True.
Qed.

(** After an insertion the keys of the inserted dict have its values and
    the other keys keep the value they had. *)
Lemma dict_update_lookup {V} (d new : gmap string V) key :
  dict_update d new !! key
  = match new !! key with Some x => Some x | None => d !! key end.
Proof.
  unfold dict_update. rewrite lookup_union.
  destruct (new !! key), (d !! key); done.
Qed.

(** The loop goes through when no inserted edge has an attribute named
    like a parameter of [add_edge]. *)
Lemma simplify_loop_total es G :
  Forall (λ e : string * string * attrs,
            e.1.1 ≠ e.1.2 → Forall (λ key, e.2 !! key = None) add_edge_params) es →
  ∃ G', simplify_loop G es = Ok G'.
Proof.
  revert G. induction es as [|[[a b] d] es IH]; intros G Hes; simpl; [by eexists|].
  apply Forall_cons in Hes as [He Hes]. simpl in He.
  unfold call_add_edge. case_decide as Hab; simpl; [|by apply IH].
  rewrite decide_False; simpl; [by apply IH|].
  intros Hex. apply Exists_exists in Hex as (key & Hin & [x Hx]).
  specialize (He Hab). rewrite Forall_forall in He.
  specialize (He key Hin). congruence.
Qed.

Lemma simplify_total Graw :
  Forall (λ e : string * string * attrs,
            e.1.1 ≠ e.1.2 → Forall (λ key, e.2 !! key = None) add_edge_params)
         (raw_edges Graw) →
  ∃ G, simplify Graw = Ok G.
Proof. apply simplify_loop_total. Qed.

(** *** The edge view *)

Lemma edges_from_elem seen l e :
  e ∈ edges_from seen l →
  ∃ nbrs, (e.1.1, nbrs) ∈ l ∧ nbrs !! e.1.2 = Some e.2 ∧ e.1.2 ∉ seen.
Proof.
  revert seen. induction l as [|[n nbrs] l IH]; intros seen; simpl.
  { by intros ?%elem_of_nil. }
  rewrite elem_of_app. intros [Hin|Hin].
  - apply list_elem_of_fmap in Hin as ([m x] & -> & Hin).
    apply list_elem_of_filter in Hin as [Hseen Hin].
    apply elem_of_map_to_list in Hin. exists nbrs. simpl in *.
    split_and!; [by left|done..].
  - destruct (IH _ Hin) as (nbrs' & ? & ? & Hseen). exists nbrs'.
    split_and!; [by right|done|set_solver].
Qed.

Lemma endpoints_inj n (x y : string * attrs) :
  endpoints (n, x.1, x.2) = endpoints (n, y.1, y.2) → x.1 = y.1.
Proof.
  unfold endpoints. simpl. intros Heq. rewrite set_eq in Heq.
  pose proof (Heq x.1) as Hx. pose proof (Heq y.1) as Hy.
  rewrite !elem_of_union, !elem_of_singleton in Hx, Hy.
  destruct Hx as [Hx _], Hy as [_ Hy].
  destruct (Hx (or_intror eq_refl)) as [Hxn|?]; [|done].
  destruct (Hy (or_intror eq_refl)) as [Hyn|?]; congruence.
Qed.

Lemma edges_from_NoDup l seen :
  NoDup l.*1 → NoDup (endpoints <$> edges_from seen l).
Proof.
  revert seen. induction l as [|[n nbrs] l IH]; intros seen Hnd; simpl.
  { constructor. }
  apply NoDup_cons in Hnd as [Hn Hnd]. rewrite fmap_app.
  apply NoDup_app. split_and!.
  - rewrite <-list_fmap_compose. apply NoDup_fmap_2_strong.
    + intros x y Hx Hy Heq. simpl in Heq. apply endpoints_inj in Heq.
      apply list_elem_of_filter in Hx as [_ Hx], Hy as [_ Hy].
      destruct x as [m x], y as [m' y]. simpl in Heq. subst m'.
      apply elem_of_map_to_list in Hx, Hy. congruence.
    + apply NoDup_filter, NoDup_map_to_list.
  - intros s Hs Hs'.
    apply list_elem_of_fmap in Hs as (e & -> & He).
    apply list_elem_of_fmap in He as ([m x] & -> & _).
    apply list_elem_of_fmap in Hs' as (e' & Heq & He').
    apply edges_from_elem in He' as (nbrs' & Hin & _ & Hseen).
    assert (e'.1.1 ≠ n) as Hne.
    { intros <-. apply Hn. apply list_elem_of_fmap. by exists (e'.1.1, nbrs'). }
    unfold endpoints in Heq. simpl in Heq. rewrite set_eq in Heq.
    specialize (Heq n). rewrite !elem_of_union, !elem_of_singleton in Heq.
    rewrite elem_of_union, elem_of_singleton in Hseen.
    destruct Heq as [Heq _]. destruct (Heq (or_introl eq_refl)); auto.
  - by apply IH.
Qed.

Lemma edges_NoDup G : NoDup (endpoints <$> edges G).
Proof. apply edges_from_NoDup, NoDup_fst_map_to_list. Qed.

Lemma edges_edge_data G u v x : (u, v, x) ∈ edges G → edge_data G u v = Some x.
Proof.
  intros Hin. apply edges_from_elem in Hin as (nbrs & Hin & Hv & _).
  simpl in *. apply elem_of_map_to_list in Hin. unfold edge_data.
  by rewrite Hin.
Qed.

(** The edges of the graph built from a parsed one: both directions
    agree, and the attributes are those that the parsed edges leave; the
    parsed nodes are there with their attributes. *)
Lemma simplify_edge_data (Graw : RawGraph) (G : Graph) :
  simplify Graw = Ok G →
  symmetric G
  ∧ (∀ u v, edge_data G u v = merged_attrs u v (raw_edges Graw))
  ∧ (∀ n x, raw_node Graw !! n = Some x → node G !! n = Some x).
Proof.
  unfold simplify. intros Hloop.
  pose proof (add_nodes_from_invariants (nodes_data Graw) empty_graph) as Hinv.
  set (G0 := add_nodes_from empty_graph (nodes_data Graw)) in *.
  assert (adj_in_node G0) as Hwf by apply (Hinv "" "" adj_in_node_empty).
  assert (∀ u v, edge_data G0 u v = None) as Hnone.
  { intros u v. destruct (Hinv u v adj_in_node_empty) as [_ ->].
    unfold edge_data. simpl. by rewrite lookup_empty. }
  assert (symmetric G0) as Hsym by (intros u v; by rewrite !Hnone).
  destruct (simplify_loop_spec _ _ _ Hwf Hsym Hloop) as (_ & Hsym' & He & Hn).
  split_and!; [done| |].
  - intros u v. by rewrite He, Hnone.
  - intros n x Hx. apply Hn. unfold G0. by rewrite add_nodes_from_raw.
Qed.

(** The graph that the script builds has no self-loop. *)
Lemma simplify_loopfree (Graw : RawGraph) (G : Graph) :
  simplify Graw = Ok G → ∀ u, edge_data G u u = None.
Proof.
  intros HG u. destruct (simplify_edge_data Graw G HG) as (_ & Hm & _).
  by rewrite Hm, merged_attrs_loop.
Qed.

(** C1 (as amended): the graph built from a parsed graph has every parsed
    node with its attributes, no self-loop, and one edge at most for an
    unordered pair of nodes; the attributes of the edge between [u] and
    [v] are those that the parsed edges between them leave when each, in
    its turn, updates the dict: an insertion sets its own keys and
    leaves the keys that only earlier insertions had. *)
Theorem simplify_spec (Graw : RawGraph) (G : Graph) :
  simplify Graw = Ok G →
  (∀ n x, raw_node Graw !! n = Some x → node G !! n = Some x)
  ∧ (∀ u, edge_data G u u = None)
  ∧ (∀ u v x, (u, v, x) ∈ edges G → u ≠ v)
  ∧ NoDup (endpoints <$> edges G)
  ∧ (∀ u v, edge_data G u v = edge_data G v u)
  ∧ (∀ u v, edge_data G u v = merged_attrs u v (raw_edges Graw))
  ∧ (∀ u v es e key, raw_edges Graw = (es ++ [e])%list → joins u v e →
       edge_data G u v ≫= (.!! key)
       = match e.2 !! key with
         | Some x => Some x
         | None => merged_attrs u v es ≫= (.!! key)
         end).
Proof.
  intros HG. destruct (simplify_edge_data Graw G HG) as (Hsym & Hm & Hn).
  pose proof (simplify_loopfree Graw G HG) as Hloopfree.
  split_and!; try done.
  - intros u v x Hin ->. apply edges_edge_data in Hin.
    by rewrite Hloopfree in Hin.
  - apply edges_NoDup.
  - intros u v es e key Hes Hj.
    rewrite Hm, Hes, merged_attrs_snoc by done. simpl.
    rewrite dict_update_lookup. destruct (e.2 !! key); [done|].
    by destruct (merged_attrs u v es).
Qed.

Lemma simplify_parallel2 : simplify parallel2 = Ok parallel2_graph.
Proof. vm_compute. reflexivity. Qed.

Lemma simplify_spec_witness :
  simplify parallel2 = Ok parallel2_graph
  ∧ ((∀ n x, raw_node parallel2 !! n = Some x → node parallel2_graph !! n = Some x)
     ∧ (∀ u, edge_data parallel2_graph u u = None)
     ∧ (∀ u v x, (u, v, x) ∈ edges parallel2_graph → u ≠ v)
     ∧ NoDup (endpoints <$> edges parallel2_graph)
     ∧ (∀ u v, edge_data parallel2_graph u v = edge_data parallel2_graph v u)
     ∧ (∀ u v, edge_data parallel2_graph u v
               = merged_attrs u v (raw_edges parallel2))
     ∧ (∀ u v es e key, raw_edges parallel2 = (es ++ [e])%list → joins u v e →
          edge_data parallel2_graph u v ≫= (.!! key)
          = match e.2 !! key with
            | Some x => Some x
            | None => merged_attrs u v es ≫= (.!! key)
            end)).
Proof.
  split; [vm_compute; reflexivity|].
  apply (simplify_spec parallel2 parallel2_graph). vm_compute. reflexivity.
Defined.

(** C1 as stated fails: of two insertions between [a] and [b], the first
    with the key [weight] only and the second with the key [label] only,
    the edge keeps both keys, not the attributes of the second alone. *)
Lemma simplify_merges_attributes :
  simplify parallel2 = Ok parallel2_graph
  ∧ raw_edges parallel2
    = [("a", "b", {["weight" := VInt 1]}); ("b", "a", {["label" := VStr "x"]})]
  ∧ edge_data parallel2_graph "a" "b"
    = Some {["label" := VStr "x"; "weight" := VInt 1]}
  ∧ edge_data parallel2_graph "a" "b" ≠ Some {["label" := VStr "x"]}.
Proof.
  split_and!; [vm_compute; reflexivity..|].
  intros Heq. apply (f_equal (λ o : option attrs, o ≫= (.!! "weight"))) in Heq.
  vm_compute in Heq. discriminate.
Qed.

(** ** Runs *)

Lemma bind_emit {B} (w : list event) (f : unit → M B) :
  emit w ≫= f = ((w ++ (f tt).1)%list, (f tt).2).
Proof. done. Qed.

Lemma bind_print {B} (line : string) (f : unit → M B) :
  print line ≫= f = (EvPrint line :: (f tt).1, (f tt).2).
Proof. done. Qed.

Lemma bind_lift_ok {A B} (a : A) (f : A → M B) : lift (Ok a) ≫= f = f a.
Proof. unfold mbind, M_bind, lift. simpl. by destruct (f a). Qed.

Lemma bind_lift_raise {A B} (e : exn) (f : A → M B) :
  lift (Raise e) ≫= f = ([], Raise e).
Proof. done. Qed.

Lemma bind_ret {A B} (a : A) (f : A → M B) : mret a ≫= f = f a.
Proof. apply (bind_lift_ok a f). Qed.

(** A computation that returns is made of steps that return. *)
Lemma bind_ok {A B} (m : M A) (f : A → M B) (w : list event) (b : B) :
  m ≫= f = (w, Ok b) →
  ∃ w1 a w2, m = (w1, Ok a) ∧ f a = (w2, Ok b) ∧ w = (w1 ++ w2)%list.
Proof.
  destruct m as [w1 [a|e]]; unfold mbind, M_bind; simpl; [|done].
  destruct (f a) as [w2 r] eqn:Hf. simpl. intros [= <- ->].
  by exists w1, a, w2.
Qed.

(** ** Density *)

Lemma degree_of_nonneg G n : 0 ≤ degree_of G n.
Proof. unfold degree_of. case_decide; lia. Qed.

Lemma degree_lookup G n d : degree G !! n = Some d → d = degree_of G n.
Proof.
  unfold degree. rewrite map_lookup_imap.
  destruct (node G !! n); simpl; congruence.
Qed.

Lemma number_of_edges_nonneg G : 0 ≤ number_of_edges G.
Proof.
  unfold number_of_edges, sum_values. apply Z.div_pos; [|lia].
  assert (Forall (λ d, 0 ≤ d) (map_to_list (degree G)).*2) as Hall.
  { apply Forall_forall. intros d Hd.
    apply list_elem_of_fmap in Hd as ([n d'] & -> & Hin).
    apply elem_of_map_to_list, degree_lookup in Hin as ->.
    apply degree_of_nonneg. }
  induction Hall as [|d l Hd _ IH]; simpl; lia.
Qed.

Lemma Qc_of_Z_pos (z : Z) : 0 < z → (0 < Qc_of_Z z)%Qc.
Proof. intros Hz. by rewrite <-Z2Qc_inj_0, <-Z2Qc_inj_lt. Qed.

(** With two nodes or more the density is the float nearest to
    [2E / (N (N - 1))]. *)
Lemma density_formula G :
  2 ≤ number_of_nodes G →
  density G
  = float_of (Qc_of_Z (2 * number_of_edges G)
              / Qc_of_Z (number_of_nodes G * (number_of_nodes G - 1))).
Proof.
  intros HN. unfold density. pose proof (number_of_edges_nonneg G) as HE.
  case_decide as Hc.
  - destruct Hc as [->|?]; [|lia].
    rewrite Z.mul_0_r, Z2Qc_inj_0. unfold Qcdiv. rewrite Qcmult_0_l.
    by rewrite float_of_zero.
  - cbv zeta. rewrite float_of_double.
    + f_equal. rewrite (Z2Qc_inj_mul 2). unfold Qcdiv. ring.
    + apply (Qcmult_pos_pos (Qc_of_Z (number_of_edges G))).
      * apply Qc_of_Z_pos. lia.
      * apply Qcinv_pos, Qc_of_Z_pos. nia.
Qed.

Lemma density_small G : number_of_nodes G < 2 → density G = Q2Qc 0.
Proof. intros HN. unfold density. rewrite decide_True; [done|lia]. Qed.

Lemma fmt6f_zero : fmt6f (Q2Qc 0) = "0.000000".
Proof. vm_compute. reflexivity. Qed.

Lemma basic_statistics_density_line G top :
  (basic_statistics G top).1 !! 3%nat
  = Some (EvPrint ("Density: " +:+ fmt6f (density G))).
Proof. unfold basic_statistics. by rewrite !bind_print. Qed.

Lemma this_Qcdiv_Z (a b : Z) :
  (this (Qc_of_Z a / Qc_of_Z b)%Qc == inject_Z a / inject_Z b)%Q.
Proof.
  unfold Qcdiv, Qcmult, Qcinv, Q2Qc. cbn [this]. by rewrite !Qred_correct.
Qed.

(** The density differs from the exact quotient by the rounding of one
    float operation. *)
Lemma density_error G :
  (Qabs (this (density G) - exact_density G) <= exact_density G * 2 ^ (-53))%Q.
Proof.
  unfold exact_density. pose proof (number_of_edges_nonneg G) as HE.
  case_decide as HN.
  - rewrite density_formula by done.
    destruct (decide (number_of_edges G = 0)) as [->|Hne].
    + rewrite Z.mul_0_r, Z2Qc_inj_0. unfold Qcdiv. rewrite Qcmult_0_l.
      rewrite float_of_zero. vm_compute. discriminate.
    + rewrite <-this_Qcdiv_Z. apply float_of_error.
      apply (Qcmult_pos_pos (Qc_of_Z (2 * number_of_edges G))).
      * apply Qc_of_Z_pos. lia.
      * apply Qcinv_pos, Qc_of_Z_pos. nia.
  - rewrite density_small by lia. vm_compute. discriminate.
Qed.

(** ** The worked graph, continued *)

(** C7: for the graph with nodes A, B, C, D and edges (A,B), (B,C),
    (C,D) the density is 0.5, the graph is connected, and the two first
    nodes by degree are B then C, both of degree 2, before A and D of
    degree 1; the report prints these. *)
Theorem path4_report :
  simplify path4 = Ok path4_graph
  ∧ density path4_graph = Q2Qc (1 # 2)
  ∧ is_connected path4_graph = Ok true
  ∧ top_n (degree path4_graph) 2 = [("B", 2); ("C", 2)]
  ∧ ranking (degree path4_graph) = [("B", 2); ("C", 2); ("A", 1); ("D", 1)]
  ∧ stdout (basic_statistics path4_graph 2)
    = ["=== Basic Statistics ==="; "Nodes: 4"; "Edges: 3"; "Density: 0.500000";
       "Connected: True"; nl +:+ "=== Top by Degree (most interactions) ===";
       "1. B: 2"; "2. C: 2"].
Proof.
  split_and!; try (vm_compute; reflexivity).
  apply Qc_is_canon. vm_compute. reflexivity.
Qed.

(** ** Steps of a run *)

Lemma bind_ok_eq {A B} (m : M A) (f : A → M B) (a : A) :
  m.2 = Ok a → m ≫= f = ((m.1 ++ (f a).1)%list, (f a).2).
Proof. intros Hm. unfold mbind, M_bind. by rewrite Hm. Qed.

Lemma bind_raise_eq {A B} (m : M A) (f : A → M B) (e : exn) :
  m.2 = Raise e → m ≫= f = (m.1, Raise e).
Proof. intros Hm. unfold mbind, M_bind. by rewrite Hm. Qed.

Lemma bind_Forall {A B} (P : event → Prop) (m : M A) (f : A → M B) :
  Forall P m.1 → (∀ a, Forall P (f a).1) → Forall P (m ≫= f).1.
Proof.
  intros Hm Hf. unfold mbind, M_bind. destruct (m.2); simpl; [|done].
  apply Forall_app. auto.
Qed.

Lemma try_except_Forall {A} (P : event → Prop) (body : M A) cls handler :
  Forall P body.1 → (∀ e, Forall P (handler e).1) →
  Forall P (try_except body cls handler).1.
Proof.
  intros Hb Hh. unfold try_except. destruct (body.2); [done|].
  destruct (issubclass _ _); simpl; [|done]. apply Forall_app. auto.
Qed.

Lemma print_ranking_prints {A} (fmt : A → string) (l : list (string * A)) :
  Forall is_print (print_ranking fmt l).1.
Proof.
  unfold print_ranking, emit. simpl. apply Forall_forall. intros ev Hin.
  apply list_elem_of_lookup in Hin as [i Hi].
  rewrite list_lookup_imap in Hi.
  destruct (l !! i); simplify_eq/=. done.
Qed.

Lemma print_prints line : Forall is_print (print line).1.
Proof. by repeat constructor. Qed.

Lemma lift_silent {A} (P : event → Prop) (r : result A) : Forall P (lift r).1.
Proof. constructor. Qed.

Lemma mret_silent {A} (P : event → Prop) (a : A) : Forall P (mret (M := M) a).1.
Proof. constructor. Qed.

Create HintDb prints discriminated.
#[local] Hint Resolve print_prints print_ranking_prints lift_silent mret_silent : prints.

Ltac only_prints :=
  repeat first
    [ apply bind_Forall; [|intros ?]
    | apply try_except_Forall; [|intros ?]
    | solve [auto with prints] ].

Lemma basic_statistics_prints G top : Forall is_print (basic_statistics G top).1.
Proof. unfold basic_statistics. only_prints. Qed.

Lemma centralities_prints env G top : Forall is_print (centralities env G top).1.
Proof. unfold centralities. only_prints. Qed.

Lemma eigenvector_section_prints env G top :
  Forall is_print (eigenvector_section env G top).1.
Proof. unfold eigenvector_section. only_prints. Qed.

(** The first sections return when the library calls in them do. *)
Lemma basic_statistics_ok G top c :
  is_connected G = Ok c → (basic_statistics G top).2 = Ok (degree G).
Proof.
  intros Hc. unfold basic_statistics. rewrite !bind_print. cbn [fst snd].
  rewrite Hc, bind_lift_ok, !bind_print. cbn [fst snd].
  unfold print_ranking. by rewrite bind_emit.
Qed.

Lemma centralities_ok env G top close bet pr :
  closeness_centrality env G = Ok close →
  betweenness_centrality env G = Ok bet →
  pagerank env G = Ok pr →
  (centralities env G top).2 = Ok tt.
Proof.
  intros Hclose Hbet Hpr. unfold centralities, print_ranking.
  rewrite !bind_print. cbn [fst snd]. rewrite bind_emit. cbn [fst snd].
  rewrite Hclose, bind_lift_ok, !bind_print. cbn [fst snd].
  rewrite bind_emit. cbn [fst snd].
  rewrite Hbet, bind_lift_ok, !bind_print. cbn [fst snd].
  rewrite bind_emit. cbn [fst snd].
  by rewrite Hpr, bind_lift_ok, !bind_print.
Qed.

(** ** Eigenvector centrality *)

Lemma eigenvector_section_caught env G top e :
  eigenvector_centrality env G = Raise e →
  issubclass (exn_cls e) NetworkXException = true →
  eigenvector_section env G top = print (eigenvector_notice e).
Proof.
  intros He Hsub. unfold eigenvector_section. rewrite He, bind_lift_raise.
  unfold try_except. simpl. by rewrite Hsub.
Qed.

(** Non-convergence and the refusal of a graph are library exceptions. *)
Lemma eigenvector_failures_are_caught :
  issubclass PowerIterationFailedConvergence NetworkXException = true
  ∧ issubclass NetworkXPointlessConcept NetworkXException = true
  ∧ issubclass NetworkXError NetworkXException = true
  ∧ issubclass NetworkXNotImplemented NetworkXException = true.
Proof. done. Qed.

Lemma printed_app w1 w2 : printed (w1 ++ w2) = (printed w1 ++ printed w2)%list.
Proof. apply omap_app. Qed.

Lemma printed_cons ev w : printed (ev :: w) = (printed [ev] ++ printed w)%list.
Proof. apply (printed_app [ev] w). Qed.

Lemma saved_app w1 w2 : saved (w1 ++ w2) = (saved w1 ++ saved w2)%list.
Proof. apply omap_app. Qed.

Lemma saved_cons ev w : saved (ev :: w) = (saved [ev] ++ saved w)%list.
Proof. apply (saved_app [ev] w). Qed.

Lemma main_reads env args Graw G :
  path_exists env (graphml args) = Ok true →
  read_graphml env (graphml args) = Ok Graw →
  simplify Graw = Ok G →
  main env args
  = (EvReadGraphml (graphml args) :: (report env args G).1, (report env args G).2).
Proof.
  intros Hex Hread Hsimp. unfold main. rewrite Hex, bind_lift_ok. cbn [negb].
  by rewrite bind_emit, Hread, bind_lift_ok, Hsimp, bind_lift_ok.
Qed.

Lemma report_steps env args G d :
  (basic_statistics G (top args)).2 = Ok d →
  (centralities env G (top args)).2 = Ok tt →
  (eigenvector_section env G (top args)).2 = Ok tt →
  report env args G
  = ((basic_statistics G (top args)).1 ++ (centralities env G (top args)).1
     ++ (eigenvector_section env G (top args)).1 ++ (plots env args G d).1,
     (plots env args G d).2)%list.
Proof.
  intros Hb Hc He. unfold report.
  rewrite (bind_ok_eq _ _ d Hb), (bind_ok_eq _ _ tt Hc), (bind_ok_eq _ _ tt He).
  done.
Qed.

(** C5: when the statistics and the four first centralities are computed
    and eigenvector centrality fails with a library exception (as
    non-convergence and the refusal of the graph are), the run does not
    stop there: the sections before are printed in full, then one line,
    the notice with the failure message, and the run goes on with the
    plots when they are asked for, and returns when they are not. *)
Theorem eigenvector_failure_skipped (env : Env) (args : Args) (Graw : RawGraph)
    (G : Graph) (c : bool) (close bet pr : gmap string Qc) (e : exn) :
  path_exists env (graphml args) = Ok true →
  read_graphml env (graphml args) = Ok Graw →
  simplify Graw = Ok G →
  is_connected G = Ok c →
  closeness_centrality env G = Ok close →
  betweenness_centrality env G = Ok bet →
  pagerank env G = Ok pr →
  eigenvector_centrality env G = Raise e →
  issubclass (exn_cls e) NetworkXException = true →
  (basic_statistics G (top args)).2 = Ok (degree G)
  ∧ (centralities env G (top args)).2 = Ok tt
  ∧ main env args
    = ((EvReadGraphml (graphml args)
        :: (basic_statistics G (top args)).1 ++ (centralities env G (top args)).1
           ++ [EvPrint (eigenvector_notice e)]
           ++ (plots env args G (degree G)).1)%list,
       (plots env args G (degree G)).2)
  ∧ stdout (main env args)
    = (stdout (basic_statistics G (top args)) ++ stdout (centralities env G (top args))
       ++ [eigenvector_notice e] ++ stdout (plots env args G (degree G)))%list
  ∧ (plot args = false → (main env args).2 = Ok tt ∧ exit_status (main env args) = 0)
  ∧ (plot args = true →
     EvSpringLayout G (seed args) ∈ (main env args).1
     ∧ (plots env args G (degree G)).1 !! 0%nat = Some (EvSpringLayout G (seed args))).
Proof.
  intros Hex Hread Hsimp Hc Hclose Hbet Hpr He Hsub.
  pose proof (basic_statistics_ok G (top args) c Hc) as Hb.
  pose proof (centralities_ok env G (top args) _ _ _ Hclose Hbet Hpr) as Hcent.
  pose proof (eigenvector_section_caught env G (top args) e He Hsub) as Heig.
  assert (main env args
    = ((EvReadGraphml (graphml args)
        :: (basic_statistics G (top args)).1 ++ (centralities env G (top args)).1
           ++ [EvPrint (eigenvector_notice e)]
           ++ (plots env args G (degree G)).1)%list,
       (plots env args G (degree G)).2)) as Hmain.
  { rewrite (main_reads env args Graw G Hex Hread Hsimp).
    rewrite (report_steps env args G (degree G) Hb Hcent); by rewrite Heig. }
  split_and!; try done.
  - rewrite Hmain. unfold stdout. cbn [fst].
    by rewrite printed_cons, !printed_app.
  - intros Hplot. rewrite Hmain. unfold exit_status, plots. rewrite Hplot.
    by split.
  - intros Hplot. rewrite Hmain. unfold plots. rewrite Hplot, bind_emit.
    cbn [fst]. split; [|done].
    apply elem_of_cons. right. rewrite !elem_of_app. do 3 right. left.
    constructor.
Qed.

(** ** The plots *)

Lemma bind_returns {A B} (m : M A) (f : A → M B) (b : B) :
  (m ≫= f).2 = Ok b →
  ∃ a, m.2 = Ok a ∧ (f a).2 = Ok b ∧ (m ≫= f).1 = (m.1 ++ (f a).1)%list.
Proof.
  unfold mbind, M_bind. destruct (m.2) as [a|e]; simpl; [|done].
  intros Hf. by exists a.
Qed.

(** A plotting call that returns is recorded; one that raises ends the
    computation. *)
Lemma call_eq env fig ev :
  call env fig ev
  = match plotting env fig ev with
    | Ok _ => ([ev], Ok tt)
    | Raise e => ([], Raise e)
    end.
Proof. unfold call. by destruct (plotting env fig ev) as [[]|e]. Qed.


Lemma bind_call_raise {B} env fig ev (f : unit → M B) e :
  plotting env fig ev = Raise e → call env fig ev ≫= f = ([], Raise e).
Proof. intros Hc. by rewrite call_eq, Hc. Qed.

Lemma bind_call_returns {B} env fig ev (f : unit → M B) (b : B) :
  (call env fig ev ≫= f).2 = Ok b →
  plotting env fig ev = Ok tt ∧ (f tt).2 = Ok b
  ∧ (call env fig ev ≫= f).1 = ev :: (f tt).1.
Proof.
  rewrite call_eq. destruct (plotting env fig ev) as [[]|e]; [|done].
  intros Hf. done.
Qed.

Lemma call_Forall (P : event → Prop) env fig ev : P ev → Forall P (call env fig ev).1.
Proof.
  intros Hev. rewrite call_eq. destruct (plotting env fig ev); by repeat constructor.
Qed.

Ltac call_returned H :=
  apply bind_call_returns in H as (_ & H & ->); cbv beta zeta in H |- *.

Lemma label_nodes_texts {A} (pos : layout) (fontsize : Z) (l : list (string * A)) :
  Forall (is_text_at pos) (label_nodes pos fontsize l).1.
Proof.
  induction l as [|[n s] l IH]; cbn [label_nodes]; [constructor|].
  unfold getitem. destruct (pos !! n) as [[x y]|] eqn:Hn.
  - rewrite bind_lift_ok, bind_emit. cbn [fst snd]. by constructor.
  - rewrite bind_lift_raise. constructor.
Qed.

(** The events of a plot of the whole graph that returns. *)
Lemma plot_full_shape env args G d pos :
  (plot_full env args G d pos).2 = Ok tt →
  ∃ sizes labels,
    Forall (is_text_at pos) labels
    ∧ (plot_full env args G d pos).1
      = ([EvFigure; EvDrawEdges G pos; EvDrawNodes G pos sizes] ++ labels
         ++ [EvAxisOff; EvTightLayout; EvSavefig (prefix args +:+ "_full.png") 200;
             EvClose; EvPrint ("Wrote " +:+ prefix args +:+ "_full.png")])%list.
Proof.
  unfold plot_full. intros Hret.
  apply bind_returns in Hret as (sizes & Hsizes & Hret & ->).
  do 3 call_returned Hret.
  apply bind_returns in Hret as ([] & Hlab & Hret & ->).
  do 4 call_returned Hret.
  eexists sizes, _. split; [|reflexivity].
  destruct (decide (0 < label_top args)); [apply label_nodes_texts|constructor].
Qed.

(** The events of a plot of the k-core that returns. *)
Lemma plot_core_shape env args core k pos :
  (plot_core env args core k pos).2 = Ok tt →
  ∃ sizes labels,
    Forall (is_text_at pos) labels
    ∧ (plot_core env args core k pos).1
      = ([EvFigure; EvDrawEdges core pos; EvDrawNodes core pos sizes] ++ labels
         ++ [EvAxisOff; EvTightLayout;
             EvSavefig (prefix args +:+ "_kcore" +:+ pretty k +:+ ".png") 220;
             EvClose;
             EvPrint ("Wrote " +:+ prefix args +:+ "_kcore" +:+ pretty k +:+ ".png")])%list.
Proof.
  unfold plot_core. intros Hret.
  apply bind_returns in Hret as (sizes & Hsizes & Hret & ->).
  do 3 call_returned Hret.
  apply bind_returns in Hret as ([] & Hlab & Hret & ->).
  do 4 call_returned Hret.
  eexists sizes, _. split; [|reflexivity].
  destruct (decide (0 < label_top args)); [apply label_nodes_texts|constructor].
Qed.

(** ** The k-core *)

Lemma number_of_selfloops_zero G :
  (∀ u, edge_data G u u = None) → number_of_selfloops G = 0%nat.
Proof.
  intros Hloop. unfold number_of_selfloops.
  induction (nodes G) as [|n l IH]; [done|].
  rewrite filter_cons_False; [done|]. rewrite Hloop. by intros [? ?].
Qed.

Lemma core_number_loopfree G :
  (∀ u, edge_data G u u = None) →
  core_number G = Ok (core_peel (size (node G)) G (degree G) 0 ∅).
Proof.
  intros Hloop. unfold core_number.
  rewrite number_of_selfloops_zero by done. rewrite decide_False; [done|lia].
Qed.

Lemma k_core_loopfree G k :
  (∀ u, edge_data G u u = None) →
  ∃ cores, core_number G = Ok cores
    ∧ k_core G k = Ok (subgraph G (dom (filter (λ vc, k ≤ vc.2) cores))).
Proof.
  intros Hloop. eexists. split; [by apply core_number_loopfree|].
  unfold k_core. by rewrite core_number_loopfree.
Qed.

(** On a graph without self-loops the handler does not run: nothing is
    printed and [args.k] stays. *)
Lemma extract_core_loopfree args G :
  (∀ u, edge_data G u u = None) →
  ∃ cores core, core_number G = Ok cores
    ∧ k_core G (k args) = Ok core
    ∧ core = subgraph G (dom (filter (λ vc, k args ≤ vc.2) cores))
    ∧ extract_core args G = ([], Ok (core, k args)).
Proof.
  intros Hloop. destruct (k_core_loopfree G (k args) Hloop) as (cores & Hc & Hk).
  eexists cores, _. split_and!; [done..|].
  unfold extract_core. by rewrite Hk, bind_lift_ok.
Qed.

Lemma foldr_max_ge (x : Z) (l : list Z) :
  x ≤ foldr Z.max x l ∧ Forall (λ y, y ≤ foldr Z.max x l) l.
Proof.
  induction l as [|y l [IH1 IH2]]; simpl; [by split|].
  split; [lia|]. constructor; [lia|].
  eapply Forall_impl; [exact IH2|]. simpl. lia.
Qed.

Lemma max_values_ge (d : gmap string Z) (m : Z) :
  max_values d = Ok m → ∀ v c, d !! v = Some c → c ≤ m.
Proof.
  unfold max_values. intros Hmax v c Hv.
  assert (c ∈ (map_to_list d).*2) as Hin.
  { apply list_elem_of_fmap. exists (v, c). by rewrite elem_of_map_to_list. }
  destruct ((map_to_list d).*2) as [|x l]; [done|]. injection Hmax as <-.
  destruct (foldr_max_ge x l) as [Hx Hl].
  apply elem_of_cons in Hin as [->|Hin]; [done|].
  rewrite Forall_forall in Hl. by apply Hl.
Qed.

Lemma subgraph_empty G : subgraph G ∅ = empty_graph.
Proof.
  unfold subgraph, empty_graph. f_equal.
  - apply map_empty. intros n. apply map_lookup_filter_None. right.
    intros x _. simpl. set_solver.
  - apply map_empty. intros n. rewrite lookup_fmap.
    rewrite (proj2 (map_lookup_filter_None _ (adj G) n)); [done|].
    right. intros x _. simpl. set_solver.
Qed.

(** A request above every core number selects no node. *)
Lemma k_core_above (G : Graph) (cores : gmap string Z) (k : Z) :
  (∀ v c, cores !! v = Some c → c < k) →
  subgraph G (dom (filter (λ vc, k ≤ vc.2) cores)) = empty_graph.
Proof.
  intros Hk. replace (filter (λ vc : string * Z, k ≤ vc.2) cores)
    with (∅ : gmap string Z); [by rewrite dom_empty_L, subgraph_empty|].
  symmetry. apply map_empty. intros v. apply map_lookup_filter_None.
  destruct (cores !! v) as [c|] eqn:Hv; [right|by left].
  intros x [= <-]. simpl. specialize (Hk v c Hv). lia.
Qed.

Lemma subgraph_nodes G keep n : n ∈ nodes (subgraph G keep) → n ∈ nodes G ∧ n ∈ keep.
Proof.
  unfold nodes, subgraph. simpl. intros Hin.
  apply list_elem_of_fmap in Hin as ([m x] & -> & Hin).
  apply elem_of_map_to_list, map_lookup_filter_Some in Hin as [Hm Hk].
  split; [|done]. apply list_elem_of_fmap. exists (m, x).
  by rewrite elem_of_map_to_list.
Qed.

(** ** Runs that return *)

Lemma lift_returns {A} (r : result A) (a : A) : (lift r).2 = Ok a → r = Ok a.
Proof. done. Qed.

Lemma basic_statistics_returns G top d :
  (basic_statistics G top).2 = Ok d → d = degree G.
Proof.
  destruct (is_connected G) as [c|e] eqn:Hc.
  - rewrite (basic_statistics_ok G top c Hc). congruence.
  - unfold basic_statistics. rewrite !bind_print. cbn [fst snd].
    by rewrite Hc, bind_lift_raise.
Qed.

Lemma statistics_events_prints env args G :
  Forall is_print (statistics_events env args G).
Proof.
  unfold statistics_events. rewrite !Forall_app.
  auto using basic_statistics_prints, centralities_prints,
    eigenvector_section_prints.
Qed.

(** A run that returns has found its input, parsed and simplified it,
    gone through the statistics and then through the plots. *)
Lemma main_returns env args :
  (main env args).2 = Ok tt →
  ∃ Graw G,
    path_exists env (graphml args) = Ok true
    ∧ read_graphml env (graphml args) = Ok Graw
    ∧ simplify Graw = Ok G
    ∧ (plots env args G (degree G)).2 = Ok tt
    ∧ (main env args).1
      = (EvReadGraphml (graphml args)
         :: statistics_events env args G ++ (plots env args G (degree G)).1)%list.
Proof.
  unfold main. intros Hret.
  apply bind_returns in Hret as (found & Hex%lift_returns & Hret & ->).
  destruct found; cbn [negb] in Hret |- *.
  2:{ by apply bind_returns in Hret as (resolved & _ & Hret & _). }
  rewrite bind_emit in Hret |- *. cbn [fst snd] in Hret |- *.
  apply bind_returns in Hret as (Graw & HGraw%lift_returns & Hret & ->).
  apply bind_returns in Hret as (G & HG%lift_returns & Hret & ->).
  unfold report in *.
  apply bind_returns in Hret as (d & Hd & Hret & ->).
  apply bind_returns in Hret as ([] & _ & Hret & ->).
  apply bind_returns in Hret as ([] & _ & Hret & ->).
  apply basic_statistics_returns in Hd as ->.
  exists Graw, G. split_and!; try done.
  unfold statistics_events. cbn [lift fst app]. by rewrite <-!(assoc_L (++)).
Qed.

(** The events of the plotting phase when it returns, on a graph without
    self-loops: one layout computation, the plot of the graph, and the
    plot of the k-core for the [k] of the command line, with nothing
    printed in between. *)
Lemma plots_shape env args G d :
  (∀ u, edge_data G u u = None) →
  plot args = true →
  (plots env args G d).2 = Ok tt →
  ∃ pos cores core sizes labels sizes_core labels_core,
    spring_layout env G (seed args) = Ok pos
    ∧ core_number G = Ok cores
    ∧ k_core G (k args) = Ok core
    ∧ core = subgraph G (dom (filter (λ vc, k args ≤ vc.2) cores))
    ∧ Forall (is_text_at pos) labels
    ∧ Forall (is_text_at pos) labels_core
    ∧ (plots env args G d).1
      = ([EvSpringLayout G (seed args)]
         ++ ([EvFigure; EvDrawEdges G pos; EvDrawNodes G pos sizes] ++ labels
             ++ [EvAxisOff; EvTightLayout; EvSavefig (out_full args) 200; EvClose;
                 EvPrint ("Wrote " +:+ out_full args)])
         ++ ([EvFigure; EvDrawEdges core pos; EvDrawNodes core pos sizes_core]
             ++ labels_core
             ++ [EvAxisOff; EvTightLayout; EvSavefig (out_core args (k args)) 220;
                 EvClose; EvPrint ("Wrote " +:+ out_core args (k args))]))%list.
Proof.
  intros Hloop Hplot. unfold plots. rewrite Hplot, bind_emit. cbn [fst snd].
  intros Hret.
  apply bind_returns in Hret as (pos & Hpos%lift_returns & Hret & ->).
  apply bind_returns in Hret as ([] & Hfull & Hret & ->).
  destruct (extract_core_loopfree args G Hloop) as (cores & core & Hc & Hk & Hsub & Hx).
  rewrite Hx in Hret |- *.
  apply bind_returns in Hret as ([core' k'] & [= <- <-] & Hret & ->).
  cbn [fst snd] in Hret |- *.
  apply plot_full_shape in Hfull as (sizes & labels & Hlabels & ->).
  apply plot_core_shape in Hret as (sizes_core & labels_core & Hlc & ->).
  exists pos, cores, core, sizes, labels, sizes_core, labels_core.
  split_and!; try done.
Qed.

Lemma drawn_app w1 w2 : drawn (w1 ++ w2) = (drawn w1 ++ drawn w2)%list.
Proof. apply omap_app. Qed.

Lemma layouts_computed_app w1 w2 :
  layouts_computed (w1 ++ w2) = (layouts_computed w1 ++ layouts_computed w2)%list.
Proof. apply omap_app. Qed.

(** Labels print nothing, save nothing, draw no graph and compute no
    layout. *)
Lemma texts_quiet pos w :
  Forall (is_text_at pos) w →
  printed w = [] ∧ saved w = [] ∧ drawn w = [] ∧ layouts_computed w = [].
Proof.
  induction 1 as [|ev w Hev _ IH]; [done|].
  destruct ev; done.
Qed.

Lemma prints_quiet w :
  Forall is_print w → saved w = [] ∧ drawn w = [] ∧ layouts_computed w = [].
Proof.
  induction 1 as [|ev w Hev _ IH]; [done|].
  destruct ev; done.
Qed.

Lemma not_layout_quiet w : Forall not_layout w → layouts_computed w = [].
Proof.
  induction 1 as [|ev w Hev _ IH]; [done|]. destruct ev; done.
Qed.

Lemma bind_events {A B} (m : M A) (f : A → M B) :
  (m ≫= f).1
  = (m.1 ++ match m.2 with Ok a => (f a).1 | Raise _ => [] end)%list.
Proof.
  unfold mbind, M_bind. destruct (m.2); simpl; [done|by rewrite app_nil_r].
Qed.

(** After a step without layout computation, what follows decides. *)
Lemma bind_layouts_once {A B} (m : M A) (f : A → M B) :
  layouts_computed m.1 = [] →
  (∀ a, (length (layouts_computed (f a).1) ≤ 1)%nat) →
  (length (layouts_computed (m ≫= f).1) ≤ 1)%nat.
Proof.
  intros Hm Hf. rewrite bind_events, layouts_computed_app, Hm.
  destruct (m.2); simpl; [apply Hf|lia].
Qed.

Lemma plot_full_no_layout env args G d pos :
  Forall not_layout (plot_full env args G d pos).1.
Proof.
  unfold plot_full. repeat (apply bind_Forall; [|intros ?]);
    try (by apply call_Forall); try (by repeat constructor).
  case_decide; [|constructor].
  eapply Forall_impl; [apply label_nodes_texts|]. by intros [].
Qed.

Lemma plot_core_no_layout env args core k pos :
  Forall not_layout (plot_core env args core k pos).1.
Proof.
  unfold plot_core. repeat (apply bind_Forall; [|intros ?]);
    try (by apply call_Forall); try (by repeat constructor).
  case_decide; [|constructor].
  eapply Forall_impl; [apply label_nodes_texts|]. by intros [].
Qed.

Lemma extract_core_no_layout args G : Forall not_layout (extract_core args G).1.
Proof.
  unfold extract_core. apply try_except_Forall; [|intros ?];
    repeat (apply bind_Forall; [|intros ?]); by repeat constructor.
Qed.

Lemma plots_layouts_once env args G d :
  (length (layouts_computed (plots env args G d).1) ≤ 1)%nat.
Proof.
  unfold plots. destruct (plot args); [|simpl; lia].
  rewrite bind_emit. cbn [fst]. rewrite layouts_computed_app.
  match goal with
  | |- context [layouts_computed (?m ≫= ?f).1] =>
      rewrite (not_layout_quiet (m ≫= f).1); [cbn; lia|]
  end.
  apply bind_Forall; [constructor|intros pos].
  apply bind_Forall; [apply plot_full_no_layout|intros _].
  apply bind_Forall; [apply extract_core_no_layout|intros ck].
  apply plot_core_no_layout.
Qed.

(** X23: in every run, whatever its end, the layout is computed once at
    most. *)
Lemma layout_computed_at_most_once env args :
  (length (layouts_computed (main env args).1) ≤ 1)%nat.
Proof.
  unfold main. apply bind_layouts_once; [done|intros found].
  destruct found; cbn [negb];
    [|apply bind_layouts_once; [done|intros resolved]; simpl; lia].
  repeat (apply bind_layouts_once; [done|intros ?]).
  unfold report.
  apply bind_layouts_once;
    [apply prints_quiet, basic_statistics_prints|intros ?].
  apply bind_layouts_once;
    [apply prints_quiet, centralities_prints|intros ?].
  apply bind_layouts_once;
    [apply prints_quiet, eigenvector_section_prints|intros ?].
  apply plots_layouts_once.
Qed.

(** C8: in a run with the plots that returns, the layout is computed
    once; the graph and its k-core are both drawn with the mapping that
    this computation returned, so a node has the same coordinates in the
    two images; the nodes of the k-core are nodes of the graph, and each
    label is placed where this mapping has its node. *)
Theorem layout_computed_once (env : Env) (args : Args) :
  plot args = true →
  (main env args).2 = Ok tt →
  ∃ G pos core,
    layouts_computed (main env args).1 = [(G, seed args)]
    ∧ spring_layout env G (seed args) = Ok pos
    ∧ drawn (main env args).1 = [(G, pos); (G, pos); (core, pos); (core, pos)]
    ∧ (∀ n, n ∈ nodes core → n ∈ nodes G)
    ∧ (∀ x y n fs, EvText x y n fs ∈ (main env args).1 → pos !! n = Some (x, y)).
Proof.
  intros Hplot Hret.
  destruct (main_returns env args Hret) as (Graw & G & _ & _ & HG & Hplots & ->).
  pose proof (simplify_loopfree Graw G HG) as Hloop.
  destruct (plots_shape env args G (degree G) Hloop Hplot Hplots)
    as (pos & cores & core & sizes & labels & sizes_core & labels_core
        & Hpos & _ & _ & -> & Hl & Hlc & ->).
  pose proof (statistics_events_prints env args G) as Hstats.
  destruct (prints_quiet _ Hstats) as (_ & Hsd & Hsl).
  destruct (texts_quiet _ _ Hl) as (_ & _ & Hld & Hll).
  destruct (texts_quiet _ _ Hlc) as (_ & _ & Hlcd & Hlcl).
  eexists G, pos, _. split_and!; [|done| | |].
  - change (EvReadGraphml (graphml args) :: ?w) with ([EvReadGraphml (graphml args)] ++ w)%list.
    rewrite !layouts_computed_app, Hsl, Hll, Hlcl. reflexivity.
  - change (EvReadGraphml (graphml args) :: ?w) with ([EvReadGraphml (graphml args)] ++ w)%list.
    rewrite !drawn_app, Hsd, Hld, Hlcd. reflexivity.
  - intros n Hn. by apply subgraph_nodes in Hn as [? _].
  - intros x y n fs Hin.
    apply (Forall_impl _ (text_ok pos)) in Hstats; [|by intros []].
    apply (Forall_impl _ (text_ok pos)) in Hl; [|by intros []].
    apply (Forall_impl _ (text_ok pos)) in Hlc; [|by intros []].
    revert Hin. apply (Forall_forall (text_ok pos)).
    rewrite !Forall_cons, !Forall_app, !Forall_cons. split_and!; done.
Qed.

Lemma layout_computed_once_witness :
  plot demo_args = true
  ∧ (main demo_env demo_args).2 = Ok tt
  ∧ ∃ G pos core,
      layouts_computed (main demo_env demo_args).1 = [(G, seed demo_args)]
      ∧ spring_layout demo_env G (seed demo_args) = Ok pos
      ∧ drawn (main demo_env demo_args).1
        = [(G, pos); (G, pos); (core, pos); (core, pos)]
      ∧ (∀ n, n ∈ nodes core → n ∈ nodes G)
      ∧ (∀ x y n fs, EvText x y n fs ∈ (main demo_env demo_args).1 →
                  pos !! n = Some (x, y)).
Proof.
  split; [reflexivity|]. split; [vm_compute; reflexivity|].
  apply (layout_computed_once demo_env demo_args);
    [reflexivity|vm_compute; reflexivity].
Defined.

(** C10: the graph that the script builds has no self-loop, so the
    k-core extraction returns for every [k]: the handler of the fallback
    never runs, no notice is printed and [args.k] keeps its value.  For a
    [k] above every core number the k-core is the empty graph; a run with
    the plots that returns then draws this empty graph and saves it under
    the name made with the [k] of the command line. *)
Theorem kcore_fallback_unreachable (env : Env) (args : Args) (Graw : RawGraph)
    (G : Graph) :
  path_exists env (graphml args) = Ok true →
  read_graphml env (graphml args) = Ok Graw →
  simplify Graw = Ok G →
  ∃ cores core,
    core_number G = Ok cores
    ∧ k_core G (k args) = Ok core
    ∧ extract_core args G = ([], Ok (core, k args))
    ∧ ((∀ v c, cores !! v = Some c → c < k args) → core = empty_graph)
    ∧ (∀ kmax, max_values cores = Ok kmax → kmax < k args → core = empty_graph)
    ∧ (plot args = true → (main env args).2 = Ok tt →
       stdout (main env args)
       = (printed (statistics_events env args G)
          ++ ["Wrote " +:+ out_full args; "Wrote " +:+ out_core args (k args)])%list
       ∧ files_written (main env args) = [out_full args; out_core args (k args)]
       ∧ ∃ pos, drawn (main env args).1
                = [(G, pos); (G, pos); (core, pos); (core, pos)]).
Proof.
  intros Hex Hread HG.
  pose proof (simplify_loopfree Graw G HG) as Hloop.
  destruct (extract_core_loopfree args G Hloop) as (cores & core & Hc & Hk & Hsub & Hx).
  exists cores, core.
  assert ((∀ v c, cores !! v = Some c → c < k args) → core = empty_graph) as Habove.
  { intros Hlt. rewrite Hsub. by apply k_core_above. }
  split_and!; try done.
  - intros kmax Hmax Hlt. apply Habove. intros v c Hv.
    pose proof (max_values_ge cores kmax Hmax v c Hv). lia.
  - intros Hplot Hret.
    destruct (main_returns env args Hret) as (Graw' & G' & _ & Hread' & HG' & Hplots & Hev).
    assert (Graw' = Graw) as -> by congruence.
    assert (G' = G) as -> by congruence.
    destruct (plots_shape env args G (degree G) Hloop Hplot Hplots)
      as (pos & cores' & core' & sizes & labels & sizes_core & labels_core
          & _ & _ & Hk' & _ & Hl & Hlc & Hpl).
    assert (core' = core) as -> by congruence.
    pose proof (statistics_events_prints env args G) as Hstats.
    destruct (prints_quiet _ Hstats) as (Hss & Hsd & _).
    destruct (texts_quiet _ _ Hl) as (Hlp & Hls & Hld & _).
    destruct (texts_quiet _ _ Hlc) as (Hlcp & Hlcs & Hlcd & _).
    unfold stdout, files_written. rewrite Hev, Hpl. split_and!.
    + rewrite printed_cons, !printed_app, Hlp, Hlcp. reflexivity.
    + rewrite saved_cons, !saved_app, Hss, Hls, Hlcs. reflexivity.
    + exists pos.
      change (EvReadGraphml (graphml args) :: ?w)
        with ([EvReadGraphml (graphml args)] ++ w)%list.
      rewrite !drawn_app, Hsd, Hld, Hlcd. reflexivity.
Qed.

Lemma kcore_fallback_unreachable_witness :
  path_exists demo_env (graphml demo_args) = Ok true
  ∧ read_graphml demo_env (graphml demo_args) = Ok path4
  ∧ simplify path4 = Ok path4_graph
  ∧ ∃ cores core,
      core_number path4_graph = Ok cores
      ∧ k_core path4_graph (k demo_args) = Ok core
      ∧ extract_core demo_args path4_graph = ([], Ok (core, k demo_args))
      ∧ ((∀ v c, cores !! v = Some c → c < k demo_args) → core = empty_graph)
      ∧ (∀ kmax, max_values cores = Ok kmax → kmax < k demo_args →
                 core = empty_graph)
      ∧ (plot demo_args = true → (main demo_env demo_args).2 = Ok tt →
         stdout (main demo_env demo_args)
         = (printed (statistics_events demo_env demo_args path4_graph)
            ++ ["Wrote " +:+ out_full demo_args;
                "Wrote " +:+ out_core demo_args (k demo_args)])%list
         ∧ files_written (main demo_env demo_args)
           = [out_full demo_args; out_core demo_args (k demo_args)]
         ∧ ∃ pos, drawn (main demo_env demo_args).1
                  = [(path4_graph, pos); (path4_graph, pos); (core, pos); (core, pos)]).
Proof.
  split; [reflexivity|]. split; [reflexivity|]. split; [vm_compute; reflexivity|].
  apply (kcore_fallback_unreachable demo_env demo_args path4 path4_graph);
    [reflexivity|reflexivity|vm_compute; reflexivity].
Defined.

(** C3 on the path A - B - C - D with [--plot --k 20]: the largest core
    number is 1 and the 1-core is the whole graph, yet the run prints no
    notice, draws the empty 20-core and names the file with 20. *)
Theorem kcore_request_above_max_path4 :
  (∃ cores, core_number path4_graph = Ok cores ∧ max_values cores = Ok 1)
  ∧ k demo_args = 20
  ∧ k_core path4_graph 1 = Ok path4_graph
  ∧ k_core path4_graph 20 = Ok empty_graph
  ∧ extract_core demo_args path4_graph = ([], Ok (empty_graph, 20))
  ∧ (main demo_env demo_args).2 = Ok tt
  ∧ files_written (main demo_env demo_args)
    = ["marvel_network_full.png"; "marvel_network_kcore20.png"]
  ∧ drop 22 (stdout (main demo_env demo_args))
    = ["Wrote marvel_network_full.png"; "Wrote marvel_network_kcore20.png"]
  ∧ fallback_note 1 ∉ stdout (main demo_env demo_args).
Proof.
  split_and!; try (vm_compute; reflexivity).
  - eexists. split; vm_compute; reflexivity.
  - apply (bool_decide_unpack (fallback_note 1 ∉ stdout (main demo_env demo_args))).
    vm_compute. exact I.
Qed.

Lemma eigenvector_failure_skipped_witness :
  path_exists demo_env (graphml demo_args) = Ok true
  ∧ read_graphml demo_env (graphml demo_args) = Ok path4
  ∧ simplify path4 = Ok path4_graph
  ∧ is_connected path4_graph = Ok true
  ∧ eigenvector_centrality demo_env path4_graph
    = Raise (mkExn PowerIterationFailedConvergence
               "power iteration failed to converge within 1000 iterations")
  ∧ stdout (main demo_env demo_args)
    = (stdout (basic_statistics path4_graph (top demo_args))
       ++ stdout (centralities demo_env path4_graph (top demo_args))
       ++ [eigenvector_notice
             (mkExn PowerIterationFailedConvergence
                "power iteration failed to converge within 1000 iterations")]
       ++ stdout (plots demo_env demo_args path4_graph (degree path4_graph)))%list.
Proof.
  split; [reflexivity|]. split; [reflexivity|]. split; [vm_compute; reflexivity|].
  split; [vm_compute; reflexivity|]. split; [reflexivity|].
  apply (eigenvector_failure_skipped demo_env demo_args path4 path4_graph true
           (degree_centrality path4_graph)
           ((λ _, Q2Qc 0) <$> node path4_graph)
           ((λ _, Q2Qc (1 # 4)) <$> node path4_graph)
           (mkExn PowerIterationFailedConvergence
              "power iteration failed to converge within 1000 iterations"));
    first [reflexivity|vm_compute; reflexivity].
Defined.

(** The section is reached only if the earlier ones return: on a graph
    with no node the connectivity test raises, after four lines. *)
Example null_graph_stops_at_connectivity :
  main null_env demo_args
  = ([EvReadGraphml "path4.graphml"; EvPrint "=== Basic Statistics ===";
      EvPrint "Nodes: 0"; EvPrint "Edges: 0"; EvPrint "Density: 0.000000"],
     Raise (mkExn NetworkXPointlessConcept
              "Connectivity is undefined for the null graph.")).
Proof. vm_compute. reflexivity. Qed.

(** With [--top -1] the degree section of the report on the path
    A - B - C - D lists three of the four nodes. *)
Example negative_top_report :
  drop 5 (stdout (basic_statistics path4_graph (-1)))
  = [nl +:+ "=== Top by Degree (most interactions) ===";
     "1. B: 2"; "2. C: 2"; "3. A: 1"].
Proof. vm_compute. reflexivity. Qed.

(** * Further properties *)

(** ** Rankings *)

Section TopNMore.
Context {A : Type} `{Score A}.
Implicit Types (x y z : string * A) (l : list (string * A)) (d : gmap string A).

(** Two rankings of the same items are the same list. *)
Lemma ranked_unique l1 l2 :
  StronglySorted ranks_before l1 → StronglySorted ranks_before l2 →
  l1 ≡ₚ l2 → l1 = l2.
Proof.
  apply StronglySorted_unique_strong.
  intros x1 x2 _ _ H12 H21.
  destruct (ranks_before_irrefl x1). by eapply ranks_before_trans.
Qed.

(** X1: the ranking does not depend on the order in which the dict
    yields its items: two listings of the same items, with distinct
    names, are sorted to the same list. *)
Theorem sorted_order_irrelevant l1 l2 :
  NoDup l1.*1 → l1 ≡ₚ l2 →
  sorted l1 sort_key key_lt = sorted l2 sort_key key_lt.
Proof.
  intros Hnd Hp. apply ranked_unique.
  - by apply sorted_ranked.
  - apply sorted_ranked. by rewrite <-Hp.
  - by rewrite !sorted_Permutation.
Qed.

Lemma slice_to_take {X} (l : list X) (k : Z) : ∃ n, slice_to l k = take n l.
Proof. unfold slice_to. case_decide; eauto. Qed.

Lemma ranking_NoDup d : NoDup (ranking d).*1.
Proof. rewrite ranking_Permutation. apply NoDup_fst_map_to_list. Qed.

(** X2: [top_n] keeps the best: every entry of [top_n d k] ranks before
    every item of [d] that it leaves out, for a count [k] of either
    sign. *)
Theorem top_n_selects_best d (k : Z) x y :
  x ∈ top_n d k → d !! y.1 = Some y.2 → y ∉ top_n d k → ranks_before x y.
Proof.
  intros Hx Hy Hny. unfold top_n in *.
  destruct (slice_to_take (ranking d) k) as [n Hn]. rewrite Hn in Hx, Hny.
  assert (y ∈ ranking d) as Hy'.
  { destruct y as [yn ys]. by apply elem_of_ranking. }
  rewrite <-(take_drop n (ranking d)) in Hy'.
  apply elem_of_app in Hy' as [?|Hy']; [done|].
  eapply (StronglySorted_app_1_elem_of ranks_before (take n (ranking d)));
    [|done..].
  rewrite take_drop. apply ranking_ranked.
Qed.

(** X3: a larger count only appends entries: for two counts of the same
    sign, [k <= k'], the list [top_n d k] is a prefix of [top_n d k']. *)
Theorem top_n_grows d (k k' : Z) :
  0 ≤ k ≤ k' ∨ k ≤ k' < 0 → top_n d k `prefix_of` top_n d k'.
Proof.
  intros Hk. unfold top_n, slice_to.
  assert (∀ n m, (n ≤ m)%nat → take n (ranking d) `prefix_of` take m (ranking d)) as Ht.
  { intros n m Hnm. replace n with (n `min` m)%nat by lia.
    rewrite <-take_take. apply prefix_take. }
  repeat case_decide; try lia; apply Ht; lia.
Qed.

(** X4: with a count of at least the number of items, [top_n] returns
    the whole ranking: every item of [d] once, and no name twice. *)
Theorem top_n_whole d (k : Z) :
  Z.of_nat (size d) ≤ k →
  top_n d k = ranking d ∧ top_n d k ≡ₚ map_to_list d ∧ NoDup (top_n d k).*1.
Proof.
  intros Hk.
  assert (top_n d k = ranking d) as ->.
  { unfold top_n. rewrite slice_to_nonneg by lia.
    apply take_ge. rewrite length_ranking. lia. }
  split; [done|]. split; [apply ranking_Permutation|apply ranking_NoDup].
Qed.

End TopNMore.

Lemma sorted_order_irrelevant_witness :
  NoDup [("a", 1); ("b", 2)].*1
  ∧ [("a", 1); ("b", 2)] ≡ₚ [("b", 2); ("a", 1)]
  ∧ sorted [("a", 1); ("b", 2)] sort_key key_lt
    = sorted [("b", 2); ("a", 1)] sort_key key_lt.
Proof.
  assert (NoDup [("a", 1); ("b", 2)].*1) as Hnd.
  { apply (bool_decide_unpack (NoDup [("a", 1); ("b", 2)].*1)). vm_compute. reflexivity. }
  assert ([("a", 1); ("b", 2)] ≡ₚ [("b", 2); ("a", 1)]) as Hp by apply perm_swap.
  split; [exact Hnd|]. split; [exact Hp|].
  exact (sorted_order_irrelevant [("a", 1); ("b", 2)] [("b", 2); ("a", 1)] Hnd Hp).
Defined.

Lemma top_n_selects_best_witness :
  ("B", 2) ∈ top_n (degree path4_graph) 2
  ∧ degree path4_graph !! "A" = Some 1
  ∧ (("A", 1) ∉ top_n (degree path4_graph) 2)
  ∧ ranks_before ("B", 2) ("A", 1).
Proof.
  assert (("B", 2) ∈ top_n (degree path4_graph) 2) as H1.
  { apply (bool_decide_unpack (("B", 2) ∈ top_n (degree path4_graph) 2)).
    vm_compute. reflexivity. }
  assert (degree path4_graph !! "A" = Some 1) as H2 by (vm_compute; reflexivity).
  assert (("A", 1) ∉ top_n (degree path4_graph) 2) as H3.
  { apply (bool_decide_unpack (("A", 1) ∉ top_n (degree path4_graph) 2)).
    vm_compute. reflexivity. }
  split; [exact H1|]. split; [exact H2|]. split; [exact H3|].
  exact (top_n_selects_best (degree path4_graph) 2 ("B", 2) ("A", 1) H1 H2 H3).
Defined.

Lemma top_n_grows_witness :
  (0 ≤ 1 ≤ 2 ∨ 1 ≤ 2 < 0)
  ∧ top_n (degree path4_graph) 1 `prefix_of` top_n (degree path4_graph) 2.
Proof.
  assert (0 ≤ 1 ≤ 2 ∨ 1 ≤ 2 < 0) as Hk by (left; lia).
  split; [exact Hk|]. exact (top_n_grows (degree path4_graph) 1 2 Hk).
Defined.

Lemma top_n_whole_witness :
  Z.of_nat (size (degree path4_graph)) ≤ 10
  ∧ top_n (degree path4_graph) 10 = ranking (degree path4_graph)
  ∧ top_n (degree path4_graph) 10 ≡ₚ map_to_list (degree path4_graph)
  ∧ NoDup (top_n (degree path4_graph) 10).*1.
Proof.
  assert (Z.of_nat (size (degree path4_graph)) ≤ 10) as Hk by (vm_compute; discriminate).
  split; [exact Hk|]. exact (top_n_whole (degree path4_graph) 10 Hk).
Defined.

(** ** The graph that is built *)

(** The loop stops at the first inserted edge with a refused attribute
    name, and only there. *)
Lemma simplify_loop_raises es G :
  ((∃ e, simplify_loop G es = Raise e) ↔ Exists reserved_clash es)
  ∧ (∀ e, simplify_loop G es = Raise e → exn_cls e = TypeError).
Proof.
  revert G. induction es as [|[[a b] d] es IH]; intros G; simpl.
  { split; [|done]. split; [by intros [? ?]|by intros ?%Exists_nil]. }
  rewrite Exists_cons. unfold call_add_edge, reserved_clash at 1. simpl.
  destruct (decide (a ≠ b)) as [Hab|Hab]; simpl.
  - case_decide as Hex; simpl.
    + split; [|by intros e [= <-]]. split; [by left|by eexists].
    + destruct (IH (add_edge G a b d)) as [IH1 IH2]. split; [|done].
      rewrite IH1. split; [by right|]. by intros [[_ ?]|?].
  - destruct (IH G) as [IH1 IH2]. split; [|done].
    rewrite IH1. split; [by right|]. by intros [[? _]|?].
Qed.

(** X5: lines 40-44 fail exactly when some raw edge between two
    different nodes has an attribute named [self], [u_of_edge] or
    [v_of_edge], the parameters of [add_edge]; the exception is then a
    [TypeError]. *)
Theorem simplify_type_error (Graw : RawGraph) :
  ((∃ e, simplify Graw = Raise e) ↔ Exists reserved_clash (raw_edges Graw))
  ∧ (∀ e, simplify Graw = Raise e → exn_cls e = TypeError).
Proof. apply simplify_loop_raises. Qed.

Lemma ensure_node_id G n : is_Some (node G !! n) → ensure_node G n = G.
Proof. intros [x Hx]. unfold ensure_node. by rewrite Hx. Qed.

Lemma add_edge_node G a b d :
  is_Some (node G !! a) → is_Some (node G !! b) → node (add_edge G a b d) = node G.
Proof.
  intros Ha Hb. unfold add_edge. simpl.
  by rewrite (ensure_node_id G a), (ensure_node_id G b).
Qed.

(** An edge between nodes that are there adds no node. *)
Lemma simplify_loop_node es G G' :
  (∀ e, e ∈ es → e.1.1 ≠ e.1.2 →
        is_Some (node G !! e.1.1) ∧ is_Some (node G !! e.1.2)) →
  simplify_loop G es = Ok G' → node G' = node G.
Proof.
  revert G. induction es as [|[[a b] d] es IH]; intros G Hes; simpl.
  { by intros [= <-]. }
  unfold call_add_edge. case_decide as Hab; simpl.
  - case_decide; [done|]. simpl. intros Hloop.
    destruct (Hes (a, b, d)) as [Ha Hb]; [by left|done|]. simpl in *.
    apply IH in Hloop; rewrite add_edge_node in * by done; [done|].
    intros e He. apply Hes. by right.
  - apply IH. intros e He. apply Hes. by right.
Qed.

Lemma simplify_keeps_node (Graw : RawGraph) (G : Graph) :
  simplify Graw = Ok G →
  (∀ e, e ∈ raw_edges Graw → e.1.1 ≠ e.1.2 →
        is_Some (raw_node Graw !! e.1.1) ∧ is_Some (raw_node Graw !! e.1.2)) →
  node G = raw_node Graw.
Proof.
  unfold simplify. intros Hloop Hes.
  apply simplify_loop_node in Hloop; by rewrite add_nodes_from_raw in *.
Qed.

(** X6: when the endpoints of the inserted edges are nodes of the parsed
    graph, as they are in a graph that the parser returns, the graph
    built has exactly the parsed nodes, with their attributes, and the
    line [Nodes:] shows their number. *)
Theorem simplify_keeps_node_set (Graw : RawGraph) (G : Graph) :
  simplify Graw = Ok G →
  (∀ e, e ∈ raw_edges Graw → e.1.1 ≠ e.1.2 →
        is_Some (raw_node Graw !! e.1.1) ∧ is_Some (raw_node Graw !! e.1.2)) →
  node G = raw_node Graw
  ∧ number_of_nodes G = Z.of_nat (size (raw_node Graw)).
Proof.
  intros HG Hes. unfold number_of_nodes.
  by rewrite (simplify_keeps_node Graw G HG Hes).
Qed.

(** The edges of the path join nodes of the path. *)
Lemma path4_edges_between_nodes :
  ∀ e, e ∈ raw_edges path4 → e.1.1 ≠ e.1.2 →
       is_Some (raw_node path4 !! e.1.1) ∧ is_Some (raw_node path4 !! e.1.2).
Proof.
  intros e He _. unfold path4 in He. cbn [raw_edges] in He.
  rewrite !elem_of_cons, elem_of_nil in He.
  destruct He as [->|[->|[->|[]]]]; split; by eexists.
Qed.

Lemma simplify_keeps_node_set_witness :
  simplify path4 = Ok path4_graph
  ∧ (∀ e, e ∈ raw_edges path4 → e.1.1 ≠ e.1.2 →
          is_Some (raw_node path4 !! e.1.1) ∧ is_Some (raw_node path4 !! e.1.2))
  ∧ node path4_graph = raw_node path4
  ∧ number_of_nodes path4_graph = Z.of_nat (size (raw_node path4)).
Proof.
  split; [exact simplify_path4|]. split; [exact path4_edges_between_nodes|].
  exact (simplify_keeps_node_set path4 path4_graph simplify_path4
           path4_edges_between_nodes).
Defined.

(** The neighbours of a node are the nodes that an edge joins to it. *)
Lemma neighbors_spec G n v : v ∈ neighbors G n ↔ is_Some (edge_data G n v).
Proof.
  unfold neighbors, edge_data. by rewrite elem_of_dom, default_empty_lookup.
Qed.

Lemma degree_of_neighbors G n :
  edge_data G n n = None → degree_of G n = Z.of_nat (size (neighbors G n)).
Proof.
  intros Hn. unfold degree_of, neighbors. rewrite size_dom.
  rewrite default_empty_lookup. fold (edge_data G n n). rewrite Hn.
  rewrite decide_False; [lia|]. by intros [? ?].
Qed.

(** Both ends of an edge are nodes. *)
Lemma edge_ends_are_nodes G u v :
  adj_in_node G → symmetric G → is_Some (edge_data G u v) →
  is_Some (node G !! u) ∧ is_Some (node G !! v).
Proof.
  intros Hwf Hsym Huv.
  assert (∀ a b, is_Some (edge_data G a b) → is_Some (node G !! a)) as Hleft.
  { intros a b [x Hx]. destruct (node G !! a) eqn:Ha; [done|].
    unfold edge_data in Hx. by rewrite (Hwf a Ha) in Hx. }
  split; [by eapply Hleft|]. apply (Hleft v u). by rewrite <-(Hsym u v).
Qed.

Lemma degree_dom G : dom (degree G) = dom (node G).
Proof.
  apply set_eq. intros n. rewrite !elem_of_dom. unfold degree.
  rewrite map_lookup_imap. destruct (node G !! n); simpl; split; by intros [? ?].
Qed.


(** The invariants of the graph built. *)
Lemma simplify_wf Graw G :
  simplify Graw = Ok G → adj_in_node G ∧ symmetric G ∧ ∀ u, edge_data G u u = None.
Proof.
  intros HG. split_and!.
  - revert HG. unfold simplify. intros Hloop.
    pose proof (add_nodes_from_invariants (nodes_data Graw) empty_graph) as Hinv.
    set (G0 := add_nodes_from empty_graph (nodes_data Graw)) in *.
    assert (adj_in_node G0) as Hwf by apply (Hinv "" "" adj_in_node_empty).
    assert (∀ u v, edge_data G0 u v = None) as Hnone.
    { intros u v. destruct (Hinv u v adj_in_node_empty) as [_ ->].
      unfold edge_data. simpl. by rewrite lookup_empty. }
    assert (symmetric G0) as Hsym by (intros u v; by rewrite !Hnone).
    by destruct (simplify_loop_spec _ _ _ Hwf Hsym Hloop) as (? & _).
  - by destruct (simplify_edge_data Graw G HG) as (? & _).
  - by apply (simplify_loopfree Graw).
Qed.

(** Without self-loops a node has at most the other nodes as
    neighbours. *)
Lemma degree_of_bound G n :
  adj_in_node G → symmetric G → (∀ u, edge_data G u u = None) →
  is_Some (node G !! n) →
  0 ≤ degree_of G n ≤ number_of_nodes G - 1.
Proof.
  intros Hwf Hsym Hloop Hn. split; [apply degree_of_nonneg|].
  rewrite degree_of_neighbors by done. unfold number_of_nodes.
  assert (neighbors G n ⊆ dom (node G) ∖ {[n]}) as Hsub.
  { intros v Hv. apply neighbors_spec in Hv.
    apply elem_of_difference. split.
    - apply elem_of_dom. by apply (edge_ends_are_nodes G n v).
    - rewrite elem_of_singleton. intros ->. rewrite Hloop in Hv. by destruct Hv. }
  apply subseteq_size in Hsub. rewrite size_difference in Hsub.
  - rewrite size_dom, size_singleton in Hsub.
    assert (size (node G) ≠ 0)%nat; [|lia].
    intros Hz%map_size_empty_inv. rewrite Hz, lookup_empty in Hn. by destruct Hn.
  - intros m ->%elem_of_singleton. by apply elem_of_dom.
Qed.

(** X7: in the graph built, [degree] has one item for every node and no
    other, so that [degree[n]] is defined for every node; the degree of
    a node is the number of its neighbours, between 0 and [N - 1]. *)
Theorem degree_range (Graw : RawGraph) (G : Graph) :
  simplify Graw = Ok G →
  dom (degree G) = dom (node G)
  ∧ ∀ n d, degree G !! n = Some d →
      d = Z.of_nat (size (neighbors G n)) ∧ 0 ≤ d ≤ number_of_nodes G - 1.
Proof.
  intros HG. destruct (simplify_wf Graw G HG) as (Hwf & Hsym & Hloop).
  split; [apply degree_dom|]. intros n d Hd.
  assert (is_Some (node G !! n)) as Hn.
  { apply elem_of_dom. rewrite <-degree_dom. apply elem_of_dom. by eexists. }
  apply degree_lookup in Hd as ->. split.
  - by apply degree_of_neighbors.
  - by apply degree_of_bound.
Qed.

Lemma degree_range_witness :
  simplify path4 = Ok path4_graph
  ∧ dom (degree path4_graph) = dom (node path4_graph)
  ∧ ∀ n d, degree path4_graph !! n = Some d →
      d = Z.of_nat (size (neighbors path4_graph n))
      ∧ 0 ≤ d ≤ number_of_nodes path4_graph - 1.
Proof.
  split; [exact simplify_path4|].
  exact (degree_range path4 path4_graph simplify_path4).
Defined.

(** *** The number of edges *)

Lemma sum_Permutation (l1 l2 : list Z) :
  l1 ≡ₚ l2 → foldr Z.add 0 l1 = foldr Z.add 0 l2.
Proof. induction 1; simpl; lia. Qed.

Lemma sum_values_empty : sum_values ∅ = 0.
Proof. unfold sum_values. by rewrite map_to_list_empty. Qed.

(** Summing over a dict with one more item. *)
Lemma sum_values_insert (d : gmap string Z) i x :
  d !! i = None → sum_values (<[i := x]> d) = x + sum_values d.
Proof.
  intros Hi. unfold sum_values.
  rewrite (sum_Permutation _ (x :: (map_to_list d).*2)); [done|].
  by rewrite map_to_list_insert.
Qed.

Lemma sum_over_empty {V} f : sum_over (V := V) f ∅ = 0.
Proof. unfold sum_over. by rewrite map_imap_empty, sum_values_empty. Qed.

Lemma sum_over_insert {V} f (m : gmap string V) i x :
  m !! i = None → sum_over f (<[i := x]> m) = f i + sum_over f m.
Proof.
  intros Hi. unfold sum_over.
  rewrite (map_imap_insert_Some _ _ _ _ (f i)) by done.
  apply sum_values_insert. by rewrite map_lookup_imap, Hi.
Qed.

Lemma sum_over_ext {V} f g (m : gmap string V) :
  (∀ n, is_Some (m !! n) → f n = g n) → sum_over f m = sum_over g m.
Proof.
  intros Hfg. unfold sum_over. f_equal. apply map_imap_ext. intros n.
  destruct (m !! n) eqn:Hn; simpl; [|done]. by rewrite Hfg.
Qed.

Lemma sum_over_add {V} f g (m : gmap string V) :
  sum_over (λ n, f n + g n) m = sum_over f m + sum_over g m.
Proof.
  induction m as [|i x m Hi IH] using map_ind.
  - by rewrite !sum_over_empty.
  - rewrite !sum_over_insert by done. lia.
Qed.

Lemma sum_over_zero {V} f (m : gmap string V) :
  (∀ n, is_Some (m !! n) → f n = 0) → sum_over f m = 0.
Proof.
  induction m as [|i x m Hi IH] using map_ind; intros Hf.
  - by rewrite sum_over_empty.
  - rewrite sum_over_insert by done. rewrite (Hf i), IH.
    + done.
    + intros n [y Hn]. apply Hf. rewrite lookup_insert_ne by congruence. by eexists.
    + by rewrite lookup_insert_eq.
Qed.

Lemma sum_over_indicator {V} (m : gmap string V) a :
  is_Some (m !! a) → sum_over (λ n, if decide (n = a) then 1 else 0) m = 1.
Proof.
  induction m as [|i x m Hi IH] using map_ind; intros Ha.
  - rewrite lookup_empty in Ha. by destruct Ha.
  - rewrite sum_over_insert by done. destruct (decide (i = a)) as [->|Hne].
    + rewrite sum_over_zero; [done|]. intros n [y Hn].
      rewrite decide_False; [done|]. congruence.
    + rewrite lookup_insert_ne in Ha by done. by rewrite IH.
Qed.

Lemma sum_over_ensure_node f G n :
  (node G !! n = None → f n = 0) →
  sum_over f (node (ensure_node G n)) = sum_over f (node G).
Proof.
  intros Hf. unfold ensure_node. destruct (node G !! n) eqn:Hn; [done|].
  simpl. rewrite sum_over_insert by done. rewrite Hf by done. lia.
Qed.

Lemma degree_of_isolated G n : adj G !! n = None → degree_of G n = 0.
Proof.
  intros Hn. unfold degree_of. rewrite Hn. simpl.
  rewrite decide_False; [done|]. rewrite lookup_empty. by intros [? ?].
Qed.

Lemma add_edge_loopfree G a b d :
  adj_in_node G → symmetric G → a ≠ b →
  (∀ u, edge_data G u u = None) → ∀ u, edge_data (add_edge G a b d) u u = None.
Proof.
  intros Hwf Hsym Hab Hloop u. rewrite add_edge_edge_data by done.
  rewrite decide_False; [done|]. intros [[? ?]|[? ?]]; congruence.
Qed.

(** An insertion makes its two endpoints neighbours of each other and
    changes no other neighbourhood. *)
Lemma add_edge_neighbors G a b d n :
  adj_in_node G → symmetric G → a ≠ b →
  neighbors (add_edge G a b d) n
  = neighbors G n ∪ (if decide (n = a) then {[b]} else ∅)
    ∪ (if decide (n = b) then {[a]} else ∅).
Proof.
  intros Hwf Hsym Hab. apply set_eq. intros v.
  rewrite !elem_of_union, !neighbors_spec, add_edge_edge_data by done.
  destruct (decide (n = a)) as [Hna|Hna], (decide (n = b)) as [Hnb|Hnb];
    subst; rewrite ?elem_of_singleton, ?elem_of_empty; try done.
  - destruct (decide (v = b)) as [->|Hvb].
    + rewrite decide_True by auto. split; [auto|by eexists].
    + rewrite decide_False; [tauto|]. intros [[_ ?]|[? _]]; congruence.
  - destruct (decide (v = a)) as [->|Hva].
    + rewrite decide_True by auto. split; [auto|by eexists].
    + rewrite decide_False; [tauto|]. intros [[? _]|[_ ?]]; congruence.
  - rewrite decide_False; [tauto|]. intros [[? _]|[? _]]; congruence.
Qed.

(** The insertion of a new edge raises the degree of its two endpoints
    by one; the insertion of an edge that is there changes no degree. *)
Lemma degree_of_add_edge G a b d n :
  adj_in_node G → symmetric G → a ≠ b → (∀ u, edge_data G u u = None) →
  degree_of (add_edge G a b d) n
  = degree_of G n
    + ((if decide (is_Some (edge_data G a b)) then 0
        else if decide (n = a) then 1 else 0)
       + (if decide (is_Some (edge_data G a b)) then 0
          else if decide (n = b) then 1 else 0)).
Proof.
  intros Hwf Hsym Hab Hloop.
  rewrite !degree_of_neighbors by auto using add_edge_loopfree.
  rewrite add_edge_neighbors by done.
  assert (∀ (X : gset string) x,
            Z.of_nat (size (X ∪ {[x]}))
            = Z.of_nat (size X) + if decide (x ∈ X) then 0 else 1) as Hsz.
  { intros X x. case_decide as Hx.
    - replace (X ∪ {[x]}) with X; [lia|].
      apply set_eq. intros y. rewrite elem_of_union, elem_of_singleton.
      split; [auto|]. by intros [?| ->].
    - rewrite size_union, size_singleton; [lia|].
      intros y ? ->%elem_of_singleton. done. }
  destruct (decide (n = a)) as [Hna|Hna], (decide (n = b)) as [Hnb|Hnb];
    subst; try done.
  - rewrite (right_id_L ∅ (∪)), Hsz.
    destruct (decide (is_Some (edge_data G a b))) as [He|He].
    + rewrite decide_True; [lia|]. by apply neighbors_spec.
    + rewrite decide_False; [lia|]. by rewrite neighbors_spec.
  - rewrite (right_id_L ∅ (∪)), Hsz.
    destruct (decide (is_Some (edge_data G a b))) as [He|He].
    + rewrite decide_True; [lia|]. apply neighbors_spec. by rewrite (Hsym b a).
    + rewrite decide_False; [lia|]. by rewrite neighbors_spec, (Hsym b a).
  - rewrite !(right_id_L ∅ (∪)). case_decide; lia.
Qed.

(** A new edge adds two to the sum of the degrees. *)
Lemma sum_degree_add_edge G a b d :
  adj_in_node G → symmetric G → a ≠ b → (∀ u, edge_data G u u = None) →
  sum_values (degree (add_edge G a b d))
  = sum_values (degree G) + if decide (is_Some (edge_data G a b)) then 0 else 2.
Proof.
  intros Hwf Hsym Hab Hloop.
  change (sum_values (degree (add_edge G a b d)))
    with (sum_over (degree_of (add_edge G a b d))
            (node (ensure_node (ensure_node G a) b))).
  change (sum_values (degree G)) with (sum_over (degree_of G) (node G)).
  rewrite (sum_over_ext _ _ _ (λ n _, degree_of_add_edge G a b d n Hwf Hsym Hab Hloop)).
  rewrite !sum_over_add.
  rewrite !(sum_over_ensure_node (degree_of G)).
  - destruct (decide (is_Some (edge_data G a b))) as [He|He].
    + rewrite !(sum_over_zero (λ _, 0)) by done. lia.
    + rewrite !sum_over_indicator; [lia| |].
      * apply ensure_node_is_node.
      * destruct (ensure_node_is_node G a) as [x Hx].
        exists x. by apply ensure_node_keeps.
  - intros Hn. apply degree_of_isolated. by apply Hwf.
  - intros Hn. apply degree_of_isolated. apply Hwf.
    destruct (node G !! b) eqn:Hb; [|done].
    by rewrite (ensure_node_keeps _ _ _ _ Hb) in Hn.
Qed.

(** Equality of unordered pairs. *)
Lemma pair_eq (u v a b : string) :
  ({[u; v]} : gset string) = {[a; b]} ↔
  (u = a ∧ v = b) ∨ (u = b ∧ v = a) ∨ (u = v ∧ a = b ∧ u = a).
Proof.
  split.
  - intros Heq. rewrite set_eq in Heq.
    pose proof (proj1 (Heq u)) as Hu. pose proof (proj1 (Heq v)) as Hv.
    pose proof (proj2 (Heq a)) as Ha. pose proof (proj2 (Heq b)) as Hb.
    rewrite !elem_of_union, !elem_of_singleton in Hu, Hv, Ha, Hb.
    specialize (Hu (or_introl eq_refl)). specialize (Hv (or_intror eq_refl)).
    specialize (Ha (or_introl eq_refl)). specialize (Hb (or_intror eq_refl)).
    destruct Hu as [Hu|Hu], Hv as [Hv|Hv], Ha as [Ha|Ha], Hb as [Hb|Hb];
      first [ left; split; congruence
            | right; left; split; congruence
            | right; right; split_and!; congruence ].
  - intros [[-> ->]|[[-> ->]|(-> & -> & ->)]]; [done| |done].
    apply set_eq. intros x. rewrite !elem_of_union, !elem_of_singleton. tauto.
Qed.

Lemma linked_pairs_cons e es :
  linked_pairs (e :: es)
  = if decide (e.1.1 ≠ e.1.2) then {[endpoints e]} ∪ linked_pairs es
    else linked_pairs es.
Proof.
  unfold linked_pairs. rewrite filter_cons. by case_decide.
Qed.

(** Through the loop the sum of the degrees is twice the number of pairs
    joined so far. *)
Lemma simplify_loop_handshake es G G' (P : gset (gset string)) :
  adj_in_node G → symmetric G → (∀ u, edge_data G u u = None) →
  (∀ u v, u ≠ v → (is_Some (edge_data G u v) ↔ {[u; v]} ∈ P)) →
  sum_values (degree G) = 2 * Z.of_nat (size P) →
  simplify_loop G es = Ok G' →
  sum_values (degree G') = 2 * Z.of_nat (size (P ∪ linked_pairs es)).
Proof.
  revert G P. induction es as [|[[a b] d] es IH]; intros G P Hwf Hsym Hloop HP Hsum.
  { simpl. intros [= <-]. unfold linked_pairs. simpl.
    by rewrite (right_id_L ∅ (∪)). }
  rewrite linked_pairs_cons. simpl. unfold call_add_edge.
  destruct (decide (a ≠ b)) as [Hab|Hab]; simpl; [|by apply IH].
  case_decide; [done|]. simpl. intros HG'.
  rewrite (assoc_L (∪)).
  apply (IH (add_edge G a b d)); try done.
  - by apply add_edge_adj_in_node.
  - by apply add_edge_symmetric.
  - by apply add_edge_loopfree.
  - intros u v Huv. rewrite add_edge_edge_data by done.
    rewrite elem_of_union, elem_of_singleton, <-HP by done.
    unfold endpoints. simpl. rewrite pair_eq.
    destruct (decide ((u = a ∧ v = b) ∨ (u = b ∧ v = a))) as [Hc|Hc].
    + split; [tauto|by eexists].
    + tauto.
  - rewrite sum_degree_add_edge, Hsum by done.
    destruct (decide (is_Some (edge_data G a b))) as [He|He].
    + apply HP in He; [|done].
      replace (P ∪ {[endpoints (a, b, d)]}) with P; [lia|].
      apply set_eq. intros x. rewrite elem_of_union, elem_of_singleton.
      split; [auto|]. by intros [?| ->].
    + rewrite size_union, size_singleton; [lia|].
      intros x Hx ->%elem_of_singleton. apply He, HP; done.
Qed.

Lemma simplify_handshake (Graw : RawGraph) (G : Graph) :
  simplify Graw = Ok G →
  number_of_edges G = Z.of_nat (size (linked_pairs (raw_edges Graw)))
  ∧ sum_values (degree G) = 2 * number_of_edges G.
Proof.
  unfold simplify. intros Hloop.
  pose proof (add_nodes_from_invariants (nodes_data Graw) empty_graph) as Hinv.
  set (G0 := add_nodes_from empty_graph (nodes_data Graw)) in *.
  assert (adj_in_node G0) as Hwf by apply (Hinv "" "" adj_in_node_empty).
  assert (∀ u v, edge_data G0 u v = None) as Hnone.
  { intros u v. destruct (Hinv u v adj_in_node_empty) as [_ ->].
    unfold edge_data. simpl. by rewrite lookup_empty. }
  assert (symmetric G0) as Hsym by (intros u v; by rewrite !Hnone).
  assert (sum_values (degree G0) = 2 * Z.of_nat (size (∅ : gset (gset string)))) as H0.
  { rewrite size_empty. change (sum_values (degree G0)) with (sum_over (degree_of G0) (node G0)).
    apply sum_over_zero. intros n _. rewrite degree_of_neighbors by done.
    replace (neighbors G0 n) with (∅ : gset string); [done|].
    apply set_eq. intros v. rewrite neighbors_spec, Hnone, elem_of_empty.
    split; [done|]. by intros [? ?]. }
  apply (simplify_loop_handshake _ _ _ ∅) in Hloop; try done.
  - rewrite (left_id_L ∅ (∪)) in Hloop. unfold number_of_edges. rewrite Hloop.
    rewrite Z.mul_comm, Z.div_mul by done. split; lia.
  - intros u v _. rewrite Hnone, elem_of_empty. split; [by intros [? ?]|done].
Qed.

(** X8: the number on the line [Edges:] is the number of unordered pairs
    of different nodes that some raw edge joins: parallel edges and
    edges of both directions count once, self-loops do not count; the
    degrees sum to twice this number. *)
Theorem number_of_edges_counts_pairs (Graw : RawGraph) (G : Graph) :
  simplify Graw = Ok G →
  number_of_edges G = Z.of_nat (size (linked_pairs (raw_edges Graw)))
  ∧ sum_values (degree G) = 2 * number_of_edges G.
Proof. apply simplify_handshake. Qed.

Lemma number_of_edges_counts_pairs_witness :
  simplify path4 = Ok path4_graph
  ∧ number_of_edges path4_graph = Z.of_nat (size (linked_pairs (raw_edges path4)))
  ∧ sum_values (degree path4_graph) = 2 * number_of_edges path4_graph.
Proof.
  split; [exact simplify_path4|].
  exact (number_of_edges_counts_pairs path4 path4_graph simplify_path4).
Defined.

(** *** The density *)

(** Rounding does not take a value of at most 1 above 1. *)
Lemma to_double_le_1 (q : Q) : (0 < q)%Q → (q <= 1)%Q → (to_double q <= 1)%Q.
Proof.
  intros Hq Hq1. pose proof (ilog2_le q Hq) as HL.
  assert (ilog2 q ≤ 0) as HL0.
  { apply Qpower2_le_inv. change (2 ^ (0 + 1))%Q with 2%Q. lra. }
  destruct (decide (ilog2 q = 0)) as [Hz|Hnz].
  - rewrite Hz in HL. change (2 ^ 0)%Q with 1%Q in HL.
    rewrite (to_double_Qeq q 1 Hq); [|lra]. by vm_compute.
  - rewrite to_double_pos by done.
    pose proof (significand_range q Hq) as [_ Hm].
    set (e := ilog2 q - 52) in *. set (m := round_half_even (q / 2 ^ e)) in *.
    pose proof (Qpower2_pos e) as Hs.
    assert (2 ^ (e + 53) <= 2 ^ 0)%Q as Hp.
    { apply Qpower_le_compat_l; [lia|done]. }
    rewrite Qpower_plus in Hp by done.
    change (2 ^ 0)%Q with 1%Q in Hp.
    change (2 ^ 53)%Q with (9007199254740992 # 1)%Q in Hp.
    assert (inject_Z m <= 9007199254740992 # 1)%Q as Hm'.
    { change (9007199254740992 # 1)%Q with (inject_Z (2 ^ 53)).
      rewrite <-Zle_Qle. lia. }
    set (s := (2 ^ e)%Q) in *. clearbody s.
    apply Qle_trans with ((9007199254740992 # 1) * s)%Q; [|lra].
    apply Qmult_le_compat_r; [done|lra].
Qed.

Lemma sum_over_le {V} f (m : gmap string V) (c : Z) :
  (∀ n, is_Some (m !! n) → f n ≤ c) → sum_over f m ≤ c * Z.of_nat (size m).
Proof.
  induction m as [|i x m Hi IH] using map_ind; intros Hf.
  - rewrite sum_over_empty, map_size_empty. lia.
  - rewrite sum_over_insert, map_size_insert_None by done.
    assert (f i ≤ c) by (apply Hf; by rewrite lookup_insert_eq).
    assert (sum_over f m ≤ c * Z.of_nat (size m)).
    { apply IH. intros n [y Hn]. apply Hf.
      rewrite lookup_insert_ne by congruence. by eexists. }
    lia.
Qed.

(** A simple graph on [N] nodes has at most [N (N - 1) / 2] edges. *)
Lemma simple_edge_bound G :
  adj_in_node G → symmetric G → (∀ u, edge_data G u u = None) →
  2 * number_of_edges G ≤ number_of_nodes G * (number_of_nodes G - 1).
Proof.
  intros Hwf Hsym Hloop. unfold number_of_edges.
  pose proof (Z.mul_div_le (sum_values (degree G)) 2 ltac:(done)) as Hdiv.
  assert (sum_values (degree G)
          ≤ (number_of_nodes G - 1) * Z.of_nat (size (node G))) as Hsum.
  { apply (sum_over_le (degree_of G) (node G)). intros n Hn.
    by apply degree_of_bound. }
  unfold number_of_nodes in *. lia.
Qed.

(** The exact quotient is not negative. *)
Lemma exact_density_nonneg (G : Graph) : (0 <= exact_density G)%Q.
Proof.
  unfold exact_density. pose proof (number_of_edges_nonneg G) as HE.
  case_decide as HN; [|done].
  apply Qle_shift_div_l.
  - change 0%Q with (inject_Z 0). rewrite <-Zlt_Qlt. nia.
  - rewrite Qmult_0_l. change 0%Q with (inject_Z 0). rewrite <-Zle_Qle. lia.
Qed.

(** X9: the density of the graph built lies between 0 and 1, as the
    float that is printed and as the exact quotient, and it is 0
    exactly when the graph has no edge. *)
Theorem density_unit_interval (Graw : RawGraph) (G : Graph) :
  simplify Graw = Ok G →
  (Q2Qc 0 <= density G)%Qc ∧ (density G <= Q2Qc 1)%Qc
  ∧ (density G = Q2Qc 0 ↔ number_of_edges G = 0)
  ∧ (0 <= exact_density G)%Q ∧ (exact_density G <= 1)%Q.
Proof.
  intros HG. destruct (simplify_wf Graw G HG) as (Hwf & Hsym & Hloop).
  pose proof (simple_edge_bound G Hwf Hsym Hloop) as Hb.
  pose proof (number_of_edges_nonneg G) as HE.
  pose proof (exact_density_nonneg G) as Hexact0.
  assert ((exact_density G <= 1)%Q) as Hexact.
  { unfold exact_density. case_decide as HN; [|done].
    apply Qle_shift_div_r.
    - change 0%Q with (inject_Z 0). rewrite <-Zlt_Qlt. nia.
    - rewrite Qmult_1_l, <-Zle_Qle. done. }
  destruct (decide (number_of_edges G = 0)) as [Hz|Hnz].
  { assert (density G = Q2Qc 0) as ->.
    { unfold density. by rewrite decide_True by auto. }
    split_and!; done. }
  assert (0 ≤ number_of_nodes G) as HN0 by (unfold number_of_nodes; lia).
  assert (2 ≤ number_of_nodes G) as HN by nia.
  rewrite density_formula by done.
  set (x := (Qc_of_Z (2 * number_of_edges G)
             / Qc_of_Z (number_of_nodes G * (number_of_nodes G - 1)))%Qc).
  assert (this x == inject_Z (2 * number_of_edges G)
                    / inject_Z (number_of_nodes G * (number_of_nodes G - 1)))%Q as Hx
    by apply this_Qcdiv_Z.
  assert (0 < inject_Z (number_of_nodes G * (number_of_nodes G - 1)))%Q as Hden.
  { change 0%Q with (inject_Z 0). rewrite <-Zlt_Qlt. nia. }
  assert (0 < this x)%Q as Hpos.
  { rewrite Hx. apply Qlt_shift_div_l; [done|].
    rewrite Qmult_0_l. change 0%Q with (inject_Z 0). rewrite <-Zlt_Qlt. lia. }
  assert (this x <= 1)%Q as Hle.
  { rewrite Hx. apply Qle_shift_div_r; [done|].
    by rewrite Qmult_1_l, <-Zle_Qle. }
  pose proof (to_double_positive _ Hpos) as Hfp.
  pose proof (to_double_le_1 _ Hpos Hle) as Hf1.
  split_and!; [| | |done|done].
  - unfold Qcle. rewrite this_float_of. change (this (Q2Qc 0)) with 0%Q. lra.
  - unfold Qcle. rewrite this_float_of. change (this (Q2Qc 1)) with 1%Q. lra.
  - split; [|done]. intros Hd. exfalso.
    assert (this (float_of x) == 0)%Q as H0 by (by rewrite Hd).
    rewrite this_float_of in H0. lra.
Qed.

Lemma density_unit_interval_witness :
  simplify path4 = Ok path4_graph
  ∧ (Q2Qc 0 <= density path4_graph)%Qc ∧ (density path4_graph <= Q2Qc 1)%Qc
  ∧ (density path4_graph = Q2Qc 0 ↔ number_of_edges path4_graph = 0)
  ∧ (0 <= exact_density path4_graph)%Q ∧ (exact_density path4_graph <= 1)%Q.
Proof.
  split; [exact simplify_path4|].
  exact (density_unit_interval path4 path4_graph simplify_path4).
Defined.

(** *** The density line *)

(** The exact quotient of the graph built is at most 1. *)
Lemma exact_density_le_1 (Graw : RawGraph) (G : Graph) :
  simplify Graw = Ok G → (exact_density G <= 1)%Q.
Proof.
  intros HG. destruct (simplify_wf Graw G HG) as (Hwf & Hsym & Hloop).
  pose proof (simple_edge_bound G Hwf Hsym Hloop) as Hb.
  unfold exact_density. case_decide as HN; [|done].
  apply Qle_shift_div_r.
  - change 0%Q with (inject_Z 0). rewrite <-Zlt_Qlt. nia.
  - rewrite Qmult_1_l, <-Zle_Qle. done.
Qed.

(** Rounding the float and rounding the exact quotient give numbers of
    millionths one apart at most. *)
Lemma millionths_near_spec (Graw : RawGraph) (G : Graph) :
  simplify Graw = Ok G →
  Z.abs (millionths (density G) - spec_density_millionths G) ≤ 1.
Proof.
  intros HG.
  pose proof (exact_density_nonneg G) as He0.
  pose proof (exact_density_le_1 Graw G HG) as He1.
  pose proof (density_error G) as Hd.
  pose proof (round_half_even_near (this (density G) * inject_Z 1000000)) as Hm.
  pose proof (round_half_even_near (exact_density G * inject_Z 1000000)) as Hs.
  fold (millionths (density G)) in Hm. fold (spec_density_millionths G) in Hs.
  set (m := millionths (density G)) in *. set (sp := spec_density_millionths G) in *.
  apply Qabs_Qle_condition in Hd, Hm, Hs.
  change (2 ^ (-53))%Q with (1 # 9007199254740992)%Q in *.
  change (inject_Z 1000000) with (1000000 # 1)%Q in *.
  assert (inject_Z (m - sp) < inject_Z 2)%Q as Hup.
  { unfold Z.sub. rewrite inject_Z_plus, inject_Z_opp.
    change (inject_Z 2) with 2%Q. lra. }
  assert (inject_Z (-2) < inject_Z (m - sp))%Q as Hlo.
  { unfold Z.sub. rewrite inject_Z_plus, inject_Z_opp.
    change (inject_Z (-2)) with (-2 # 1)%Q. lra. }
  rewrite <-Zlt_Qlt in Hup, Hlo. lia.
Qed.

(** *** Reading the printed density back *)

Lemma string_length_app (s1 s2 : string) :
  String.length (s1 +:+ s2) = (String.length s1 + String.length s2)%nat.
Proof.
  induction s1 as [|c s1 IH]; [done|].
  change (String c s1 +:+ s2) with (String c (s1 +:+ s2)). simpl. by rewrite IH.
Qed.

Lemma string_app_assoc (s1 s2 s3 : string) : (s1 +:+ s2) +:+ s3 = s1 +:+ (s2 +:+ s3).
Proof.
  induction s1 as [|c s1 IH]; [done|].
  change (String c ((s1 +:+ s2) +:+ s3) = String c (s1 +:+ s2 +:+ s3)).
  by rewrite IH.
Qed.

Lemma decimal_value_app (acc : Z) (s1 s2 : string) :
  decimal_value acc (s1 +:+ s2) = decimal_value acc s1 ≫= λ a, decimal_value a s2.
Proof.
  revert acc. induction s1 as [|c s1 IH]; intros acc; [done|].
  change (String c s1 +:+ s2) with (String c (s1 +:+ s2)). simpl.
  destruct (digit_value c) as [d|]; simpl; [apply IH|done].
Qed.

Lemma digit_value_char (y : N) :
  (y < 10)%N → digit_value (pretty_N_char y) = Some (Z.of_N y).
Proof.
  intros Hy.
  assert (y = 0 ∨ y = 1 ∨ y = 2 ∨ y = 3 ∨ y = 4 ∨ y = 5 ∨ y = 6 ∨ y = 7 ∨ y = 8
          ∨ y = 9)%N as Hc by lia.
  repeat destruct Hc as [->|Hc]; try subst y; reflexivity.
Qed.

(** The digits of a number come before what follows them. *)
Lemma pretty_N_go_app (x : N) (s : string) : pretty_N_go x s = pretty_N_go x "" +:+ s.
Proof.
  revert s. induction (N.lt_wf_0 x) as [x _ IH]; intros s.
  destruct (decide (x = 0%N)) as [->|Hx]; [by rewrite !pretty_N_go_0|].
  rewrite !(pretty_N_go_step x) by lia.
  rewrite (IH (x `div` 10)%N) by (apply N.div_lt; lia).
  rewrite (IH (x `div` 10)%N ltac:(apply N.div_lt; lia) (String _ "")).
  by rewrite string_app_assoc.
Qed.

(** The digits printed for a number denote it. *)
Lemma decimal_value_pretty_N_go (x : N) :
  decimal_value 0 (pretty_N_go x "") = Some (Z.of_N x).
Proof.
  induction (N.lt_wf_0 x) as [x _ IH].
  destruct (decide (x = 0%N)) as [->|Hx]; [by rewrite pretty_N_go_0|].
  rewrite pretty_N_go_step, pretty_N_go_app, decimal_value_app by lia.
  rewrite IH by (apply N.div_lt; lia). simpl.
  rewrite digit_value_char by (apply N.mod_lt; lia). simpl.
  f_equal. pose proof (N.div_mod x 10 ltac:(lia)). lia.
Qed.

Lemma pretty_N_go_length (k : nat) (x : N) :
  (x < 10 ^ N.of_nat k)%N → (String.length (pretty_N_go x "") ≤ k)%nat.
Proof.
  revert x. induction k as [|k IH]; intros x Hx.
  - assert (x = 0%N) as -> by (simpl in Hx; lia). by rewrite pretty_N_go_0.
  - destruct (decide (x = 0%N)) as [->|Hx0]; [rewrite pretty_N_go_0; simpl; lia|].
    rewrite pretty_N_go_step, pretty_N_go_app, string_length_app by lia.
    assert (x `div` 10 < 10 ^ N.of_nat k)%N as Hd.
    { apply N.Div0.div_lt_upper_bound.
      rewrite Nat2N.inj_succ, N.pow_succ_r' in Hx. lia. }
    specialize (IH _ Hd). simpl. lia.
Qed.

Lemma decimal_value_pretty (z : Z) : 0 ≤ z → decimal_value 0 (pretty z) = Some z.
Proof.
  intros Hz. destruct z as [|p|p]; [done| |lia].
  change (pretty (Z.pos p)) with (pretty_N_go (N.pos p) "").
  by rewrite decimal_value_pretty_N_go.
Qed.

Lemma pretty_length_6 (z : Z) : 0 ≤ z < 1000000 → (String.length (pretty z) ≤ 6)%nat.
Proof.
  intros Hz. destruct z as [|p|p]; [simpl; lia| |lia].
  change (pretty (Z.pos p)) with (pretty_N_go (N.pos p) "").
  apply pretty_N_go_length. simpl. lia.
Qed.

Lemma decimal_value_zero (s : string) :
  decimal_value 0 (String (Ascii.Ascii false false false false true true false false) s)
  = decimal_value 0 s.
Proof. reflexivity. Qed.

(** Padding with zeros gives six digits and keeps the number. *)
Lemma zero_pad_spec (s : string) :
  (String.length s ≤ 6)%nat →
  String.length (zero_pad 6 s) = 6%nat
  ∧ decimal_value 0 (zero_pad 6 s) = decimal_value 0 s.
Proof.
  intros Hs. unfold zero_pad.
  destruct (String.length s) as [|[|[|[|[|[|[|n]]]]]]] eqn:Hlen; [..|lia];
    lazy beta iota zeta delta [String.concat replicate Nat.sub String.append];
    rewrite ?decimal_value_zero; cbn [String.length]; rewrite ?Hlen; done.
Qed.

(** A text made of digits, the point and six digits. *)
Lemma fixed6_value_app (acc q : Z) (s1 s2 : string) :
  decimal_value acc s1 = Some q →
  String.length s2 = 6%nat →
  fixed6_value acc (s1 +:+ String point s2)
  = frac ← decimal_value 0 s2; Some (q * 1000000 + frac).
Proof.
  intros Hq Hlen. revert acc Hq. induction s1 as [|c s1 IH]; intros acc Hq.
  - injection Hq as ->. change ("" +:+ ?s) with s. cbn [fixed6_value].
    rewrite decide_True by done. by rewrite decide_True.
  - change (String c s1 +:+ ?s) with (String c (s1 +:+ s)). cbn [fixed6_value].
    cbn [decimal_value] in Hq.
    destruct (digit_value c) as [d|] eqn:Hd; [|done]. simpl in Hq.
    rewrite decide_False; [by apply IH|].
    intros ->. vm_compute in Hd. discriminate.
Qed.

Lemma round_half_even_nonneg (q : Q) : (0 <= q)%Q → 0 ≤ round_half_even q.
Proof.
  intros Hq. destruct q as [n d]. unfold Qle in Hq. simpl in Hq.
  unfold round_half_even. cbn [Qnum Qden].
  assert (0 ≤ n `div` Z.pos d) by (apply Z.div_pos; lia).
  repeat case_decide; try destruct (Z.even _); lia.
Qed.

(** The text of a non-negative number denotes the number of millionths
    that is printed. *)
Lemma read_fmt6f (x : Qc) :
  (Q2Qc 0 <= x)%Qc → read_fixed6 (fmt6f x) = Some (millionths x).
Proof.
  intros Hx. unfold read_fixed6, fmt6f.
  assert (0 ≤ millionths x) as Hm.
  { apply round_half_even_nonneg. unfold Qcle in Hx.
    change (this (Q2Qc 0)) with 0%Q in Hx.
    change (inject_Z 1000000) with (1000000 # 1)%Q.
    apply Qmult_le_0_compat; [done|]. by vm_compute. }
  rewrite decide_False by (by apply Qcle_not_lt).
  rewrite Z.abs_eq by done. cbv zeta.
  set (m := millionths x) in *.
  pose proof (Z.div_mod m 1000000 ltac:(done)) as Hdm.
  pose proof (Z.mod_pos_bound m 1000000 ltac:(done)) as Hr.
  assert (0 ≤ m `div` 1000000) as Hq by (apply Z.div_pos; lia).
  destruct (zero_pad_spec (pretty (m `mod` 1000000))) as [Hlen Hval];
    [by apply pretty_length_6|].
  change ("" +:+ ?s) with s.
  change ("." +:+ ?s) with (String point s).
  rewrite (fixed6_value_app 0 (m `div` 1000000));
    [|by apply decimal_value_pretty|done].
  rewrite Hval, decimal_value_pretty by lia. simpl. f_equal. lia.
Qed.

(** The density is not negative. *)
Lemma density_nonneg (G : Graph) : (Q2Qc 0 <= density G)%Qc.
Proof.
  pose proof (number_of_edges_nonneg G) as HE.
  unfold density. case_decide as Hc; [done|].
  assert (0 < number_of_edges G ∧ 2 ≤ number_of_nodes G) as [HE' HN] by lia.
  set (x := (Qc_of_Z (number_of_edges G)
             / Qc_of_Z (number_of_nodes G * (number_of_nodes G - 1)))%Qc).
  assert (0 < this x)%Q as Hpos.
  { apply (Qcmult_pos_pos (Qc_of_Z (number_of_edges G))).
    - by apply Qc_of_Z_pos.
    - apply Qcinv_pos, Qc_of_Z_pos. nia. }
  cbv zeta. fold x.
  pose proof (to_double_positive _ Hpos) as Hd.
  rewrite <-this_float_of in Hd.
  assert (0 < this (float_of x * float_of_int 2)%Qc)%Q as Hpos2.
  { apply (Qcmult_pos_pos (float_of x) (float_of_int 2)); [done|].
    by vm_compute. }
  pose proof (to_double_positive _ Hpos2) as Hd2.
  unfold Qcle. rewrite this_float_of. change (this (Q2Qc 0)) with 0%Q. lra.
Qed.

(** C6: the fourth line of the report is the density to six decimal
    places: read back digit by digit, the text denotes the number of
    millionths nearest to the density.  With [N >= 2] nodes and [E] edges
    the density is the float nearest to [2E / (N (N - 1))]; with [N < 2]
    it is 0, printed [0.000000].  The number printed differs from the
    exact quotient by at most half a millionth and the rounding of one
    float operation; for the graph built it is one millionth away, at
    most, from the exact quotient rounded to six places, and [tie_graph]
    below is a graph on which the two differ. *)
Theorem density_printed (G : Graph) (top : Z) :
  let N := number_of_nodes G in
  let E := number_of_edges G in
  (basic_statistics G top).1 !! 3%nat
  = Some (EvPrint ("Density: " +:+ fmt6f (density G)))
  ∧ density G
    = (if decide (2 ≤ N)
       then float_of (Qc_of_Z (2 * E) / Qc_of_Z (N * (N - 1)))
       else Q2Qc 0)
  ∧ read_fixed6 (fmt6f (density G)) = Some (millionths (density G))
  ∧ (N < 2 → fmt6f (density G) = "0.000000")
  ∧ (Qabs (inject_Z (millionths (density G))
           - this (density G) * inject_Z 1000000) <= 1 # 2)%Q
  ∧ (Qabs (inject_Z (millionths (density G))
           - exact_density G * inject_Z 1000000)
     <= (1 # 2) + exact_density G * inject_Z 1000000 * 2 ^ (-53))%Q
  ∧ (∀ Graw, simplify Graw = Ok G →
       Z.abs (millionths (density G) - spec_density_millionths G) ≤ 1).
Proof.
  intros N E. split_and!.
  - apply basic_statistics_density_line.
  - subst N E. case_decide.
    + by apply density_formula.
    + apply density_small. lia.
  - apply read_fmt6f, density_nonneg.
  - intros HN. rewrite density_small by done. apply fmt6f_zero.
  - apply round_half_even_near.
  - pose proof (round_half_even_near (this (density G) * inject_Z 1000000)) as Hr.
    pose proof (density_error G) as Hd.
    fold (millionths (density G)) in Hr.
    apply Qabs_Qle_condition in Hr, Hd. apply Qabs_Qle_condition.
    change (2 ^ (-53))%Q with (1 # 9007199254740992)%Q in *.
    change (inject_Z 1000000) with (1000000 # 1)%Q in *.
    split; lra.
  - intros Graw HG. by apply (millionths_near_spec Graw).
Qed.

(** *** The graph at a rounding boundary *)

Lemma simplify_tie : simplify tie_raw = Ok tie_graph.
Proof.
  destruct (simplify_total tie_raw) as [G HG].
  - unfold tie_raw. cbn [raw_edges]. rewrite Forall_fmap. apply Forall_forall.
    intros i _ _. apply Forall_forall. intros key _. apply lookup_empty.
  - unfold tie_graph. rewrite HG. reflexivity.
Qed.

Lemma tie_graph_size : number_of_nodes tie_graph = 256 ∧ number_of_edges tie_graph = 153.
Proof. split; vm_compute; reflexivity. Qed.

Lemma tie_graph_density : density tie_graph = float_of (Qc_of_Z 306 / Qc_of_Z 65280).
Proof.
  destruct tie_graph_size as [HN HE].
  rewrite density_formula by (rewrite HN; lia). rewrite HN, HE. reflexivity.
Qed.

Lemma tie_graph_fmt6f : fmt6f (density tie_graph) = "0.004687".
Proof. rewrite tie_graph_density. vm_compute. reflexivity. Qed.

(** C6, counterexample: with 256 nodes and 153 edges the quotient
    [2E / (N (N - 1))] is 0.0046875, half-way between two numbers of
    millionths, and rounds to 0.004688; the float nearest to it is
    below, and the report prints 0.004687. *)
Theorem density_tie_rounds_down :
  simplify tie_raw = Ok tie_graph
  ∧ number_of_nodes tie_graph = 256
  ∧ number_of_edges tie_graph = 153
  ∧ (exact_density tie_graph * inject_Z 1000000 == 9375 # 2)%Q
  ∧ spec_density_millionths tie_graph = 4688
  ∧ millionths (density tie_graph) = 4687
  ∧ (basic_statistics tie_graph 5).1 !! 3%nat = Some (EvPrint "Density: 0.004687")
  ∧ read_fixed6 (fmt6f (density tie_graph)) = Some 4687
  ∧ read_fixed6 (fmt6f (density tie_graph)) ≠ Some (spec_density_millionths tie_graph).
Proof.
  destruct tie_graph_size as [HN HE].
  assert (spec_density_millionths tie_graph = 4688) as HS.
  { unfold spec_density_millionths, exact_density. rewrite HN, HE.
    vm_compute. reflexivity. }
  split; [exact simplify_tie|]. split; [exact HN|]. split; [exact HE|].
  split. { unfold exact_density. rewrite HN, HE. vm_compute. reflexivity. }
  split; [exact HS|].
  split. { rewrite tie_graph_density. vm_compute. reflexivity. }
  split. { rewrite basic_statistics_density_line, tie_graph_fmt6f. reflexivity. }
  rewrite tie_graph_fmt6f, HS.
  split; [vm_compute; reflexivity|]. vm_compute. discriminate.
Qed.

(** *** Direction of the raw edges *)

Lemma ensure_node_comm G a b :
  ensure_node (ensure_node G a) b = ensure_node (ensure_node G b) a.
Proof.
  destruct (decide (a = b)) as [->|Hab]; [done|].
  unfold ensure_node.
  destruct (node G !! a) eqn:Ha, (node G !! b) eqn:Hb; simpl;
    rewrite ?Ha, ?Hb, ?lookup_insert_ne by done; rewrite ?Ha, ?Hb; try done.
  f_equal; by apply insert_insert_ne.
Qed.

(** The two endpoints of an insertion can be exchanged. *)
Lemma add_edge_comm G a b d :
  adj_in_node G → symmetric G → a ≠ b → add_edge G a b d = add_edge G b a d.
Proof.
  intros Hwf Hsym Hab. unfold add_edge. rewrite (ensure_node_comm G b a).
  set (G1 := ensure_node (ensure_node G a) b).
  assert (edge_data G1 b a = edge_data G1 a b) as ->.
  { unfold G1. rewrite !ensure_node_edge_data; auto using ensure_node_adj_in_node. }
  f_equal. rewrite !lookup_insert_ne by done.
  by apply insert_insert_ne.
Qed.

Lemma simplify_step_flip G e :
  adj_in_node G → symmetric G →
  simplify_step G (flip_edge e) = simplify_step G e.
Proof.
  intros Hwf Hsym. destruct e as [[a b] d]. unfold flip_edge, simplify_step. simpl.
  destruct (decide (a = b)) as [->|Hab]; [done|].
  rewrite !decide_True by done. unfold call_add_edge.
  case_decide; [done|]. f_equal. symmetry. by apply add_edge_comm.
Qed.

Lemma simplify_loop_undirected es es' G :
  Forall2 same_undirected es es' → adj_in_node G → symmetric G →
  simplify_loop G es' = simplify_loop G es.
Proof.
  intros Hes. revert G. induction Hes as [|e e' es es' He Hes IH]; intros G Hwf Hsym.
  { done. }
  simpl. assert (simplify_step G e' = simplify_step G e) as ->.
  { destruct He as [->| ->]; [done|by apply simplify_step_flip]. }
  destruct (simplify_step G e) as [G1|] eqn:Hstep; simpl; [|done].
  destruct (simplify_step_spec G e G1 Hwf Hsym Hstep) as (Hwf1 & Hsym1 & _).
  by apply IH.
Qed.

(** X10: the direction of the raw edges does not matter: two parsed
    graphs with the same nodes whose edge lists differ only in the
    direction of some edges give the same graph, or fail alike. *)
Theorem simplify_undirected (Graw Graw' : RawGraph) :
  raw_node Graw' = raw_node Graw →
  Forall2 same_undirected (raw_edges Graw) (raw_edges Graw') →
  simplify Graw' = simplify Graw.
Proof.
  intros Hn Hes. unfold simplify, nodes_data. rewrite Hn.
  pose proof (add_nodes_from_invariants (map_to_list (raw_node Graw)) empty_graph) as Hinv.
  set (G0 := add_nodes_from empty_graph (map_to_list (raw_node Graw))) in *.
  assert (adj_in_node G0) as Hwf by apply (Hinv "" "" adj_in_node_empty).
  assert (∀ u v, edge_data G0 u v = None) as Hnone.
  { intros u v. destruct (Hinv u v adj_in_node_empty) as [_ ->].
    unfold edge_data. simpl. by rewrite lookup_empty. }
  apply simplify_loop_undirected; [done..|].
  intros u v. by rewrite !Hnone.
Qed.

Lemma simplify_undirected_witness :
  raw_node parallel2_reversed = raw_node parallel2
  ∧ Forall2 same_undirected (raw_edges parallel2) (raw_edges parallel2_reversed)
  ∧ simplify parallel2_reversed = simplify parallel2.
Proof.
  assert (Forall2 same_undirected (raw_edges parallel2)
            (raw_edges parallel2_reversed)) as Hes.
  { constructor; [right; reflexivity|]. constructor; [left; reflexivity|].
    constructor. }
  split; [reflexivity|]. split; [exact Hes|].
  exact (simplify_undirected parallel2 parallel2_reversed eq_refl Hes).
Defined.

(** ** Runs and their ends *)

(** The files written by a step and what follows it. *)
Lemma saved_bind {A B} (m : M A) (f : A → M B) :
  saved (m ≫= f).1
  = (saved m.1 ++ match m.2 with Ok a => saved (f a).1 | Raise _ => [] end)%list.
Proof. rewrite bind_events, saved_app. by destruct (m.2). Qed.

(** Without plots the report only prints. *)
Lemma report_no_plot env args G :
  plot args = false → Forall is_print (report env args G).1.
Proof.
  intros Hplot. unfold report.
  apply bind_Forall; [apply basic_statistics_prints|intros d].
  apply bind_Forall; [apply centralities_prints|intros _].
  apply bind_Forall; [apply eigenvector_section_prints|intros _].
  unfold plots. rewrite Hplot. constructor.
Qed.

(** X11: without [--plot] a run, whatever its end, only parses the input
    and prints: it writes no file, draws nothing and computes no
    layout. *)
Theorem stats_only_run (env : Env) (args : Args) :
  plot args = false →
  Forall (prints_or_reads (graphml args)) (main env args).1
  ∧ files_written (main env args) = []
  ∧ drawn (main env args).1 = []
  ∧ layouts_computed (main env args).1 = [].
Proof.
  intros Hplot.
  assert (Forall (prints_or_reads (graphml args)) (main env args).1) as Hall.
  { unfold main. apply bind_Forall; [constructor|intros found].
    destruct found; cbn [negb];
      [|apply bind_Forall; [constructor|intros resolved]; constructor].
    apply bind_Forall; [repeat constructor; by right|intros _].
    apply bind_Forall; [constructor|intros Graw].
    apply bind_Forall; [constructor|intros G].
    eapply Forall_impl; [by apply report_no_plot|]. intros ev ?. by left. }
  split; [done|]. unfold files_written.
  induction Hall as [|ev w Hev _ IH]; [done|].
  destruct Hev as [Hev| ->]; [destruct ev; done|done].
Qed.

Lemma stats_only_run_witness :
  plot stats_args = false
  ∧ Forall (prints_or_reads (graphml stats_args)) (main demo_env stats_args).1
  ∧ files_written (main demo_env stats_args) = []
  ∧ drawn (main demo_env stats_args).1 = []
  ∧ layouts_computed (main demo_env stats_args).1 = [].
Proof.
  split; [reflexivity|]. exact (stats_only_run demo_env stats_args eq_refl).
Defined.

(** X12: when the parser raises, or the simplification does, the run
    ends with that exception before a line is printed; the exit status
    is 1. *)
Theorem parse_failure_silent (env : Env) (args : Args) (e : exn) :
  path_exists env (graphml args) = Ok true →
  read_graphml env (graphml args) = Raise e
  ∨ (∃ Graw, read_graphml env (graphml args) = Ok Graw ∧ simplify Graw = Raise e) →
  main env args = ([EvReadGraphml (graphml args)], Raise e)
  ∧ stdout (main env args) = []
  ∧ exit_status (main env args) = 1.
Proof.
  intros Hex Hfail.
  assert (main env args = ([EvReadGraphml (graphml args)], Raise e)) as ->.
  { unfold main. rewrite Hex, bind_lift_ok. cbn [negb]. rewrite bind_emit.
    destruct Hfail as [Hread|(Graw & Hread & Hsimp)]; rewrite Hread.
    - by rewrite bind_lift_raise.
    - by rewrite bind_lift_ok, Hsimp, bind_lift_raise. }
  done.
Qed.

Lemma parse_failure_silent_witness :
  path_exists (unreadable_env (mkExn OtherError "not well-formed (invalid token)"))
    (graphml demo_args) = Ok true
  ∧ (read_graphml (unreadable_env (mkExn OtherError "not well-formed (invalid token)"))
       (graphml demo_args)
     = Raise (mkExn OtherError "not well-formed (invalid token)")
     ∨ ∃ Graw,
         read_graphml (unreadable_env (mkExn OtherError "not well-formed (invalid token)"))
           (graphml demo_args) = Ok Graw
         ∧ simplify Graw = Raise (mkExn OtherError "not well-formed (invalid token)"))
  ∧ main (unreadable_env (mkExn OtherError "not well-formed (invalid token)")) demo_args
    = ([EvReadGraphml (graphml demo_args)],
       Raise (mkExn OtherError "not well-formed (invalid token)"))
  ∧ stdout (main (unreadable_env (mkExn OtherError "not well-formed (invalid token)"))
              demo_args) = []
  ∧ exit_status (main (unreadable_env (mkExn OtherError "not well-formed (invalid token)"))
                   demo_args) = 1.
Proof.
  split; [reflexivity|]. split; [left; reflexivity|].
  exact (parse_failure_silent
           (unreadable_env (mkExn OtherError "not well-formed (invalid token)"))
           demo_args (mkExn OtherError "not well-formed (invalid token)")
           eq_refl (or_introl eq_refl)).
Defined.

(** X27: the existence test can itself fail.  When [exists()] raises, or
    returns [False] and [resolve()] raises, the run ends with that
    exception before any parse attempt: the error stream gets a
    traceback and not the [ERROR] line, nothing is printed and no file
    is written. *)
Theorem path_check_failure (env : Env) (args : Args) (e : exn) :
  path_exists env (graphml args) = Raise e
  ∨ (path_exists env (graphml args) = Ok false
     ∧ path_resolve env (graphml args) = Raise e) →
  main env args = ([], Raise e)
  ∧ exit_status (main env args) = 1
  ∧ stdout (main env args) = []
  ∧ files_written (main env args) = []
  ∧ (exn_cls e ≠ SystemExit →
     stderr (main env args) = ["Traceback (most recent call last):"; exn_msg e]).
Proof.
  intros Hfail.
  assert (main env args = ([], Raise e)) as ->.
  { unfold main. destruct Hfail as [Hex|[Hex Hres]]; rewrite Hex.
    - by rewrite bind_lift_raise.
    - rewrite bind_lift_ok. cbn [negb]. by rewrite Hres, bind_lift_raise. }
  split_and!; try done.
  intros Hcls. unfold stderr. cbn [snd]. by rewrite decide_False.
Qed.

Lemma path_check_failure_witness :
  (path_exists looping_env (graphml demo_args) = Raise symlink_loop
   ∨ (path_exists looping_env (graphml demo_args) = Ok false
      ∧ path_resolve looping_env (graphml demo_args) = Raise symlink_loop))
  ∧ main looping_env demo_args = ([], Raise symlink_loop)
  ∧ exit_status (main looping_env demo_args) = 1
  ∧ stdout (main looping_env demo_args) = []
  ∧ files_written (main looping_env demo_args) = []
  ∧ (exn_cls symlink_loop ≠ SystemExit →
     stderr (main looping_env demo_args)
     = ["Traceback (most recent call last):"; exn_msg symlink_loop]).
Proof.
  split; [right; split; reflexivity|].
  exact (path_check_failure looping_env demo_args symlink_loop
           (or_intror (conj eq_refl eq_refl))).
Defined.

(** A name that the system refuses ends the run in the test itself. *)
Example refused_name_run :
  main refused_name_env demo_args = ([], Raise name_too_long)
  ∧ stderr (main refused_name_env demo_args)
    = ["Traceback (most recent call last):"; "[Errno 36] File name too long"].
Proof. split; reflexivity. Qed.

Lemma nodes_empty G : node G = ∅ → nodes G = [].
Proof. intros Hn. unfold nodes. by rewrite Hn, map_to_list_empty. Qed.


(** X13: on an input without nodes the run prints the header and the
    lines [Nodes: 0], [Edges: 0] and [Density: 0.000000], then ends
    with the exception of the connectivity test: no ranking is printed
    and no plot is made. *)
Theorem null_graph_aborts (env : Env) (args : Args) (Graw : RawGraph) (G : Graph) :
  path_exists env (graphml args) = Ok true →
  read_graphml env (graphml args) = Ok Graw →
  simplify Graw = Ok G →
  node G = ∅ →
  main env args
  = ([EvReadGraphml (graphml args); EvPrint "=== Basic Statistics ===";
      EvPrint "Nodes: 0"; EvPrint "Edges: 0"; EvPrint "Density: 0.000000"],
     Raise (mkExn NetworkXPointlessConcept
              "Connectivity is undefined for the null graph.")).
Proof.
  intros Hex Hread Hsimp Hnull.
  rewrite (main_reads env args Graw G Hex Hread Hsimp).
  assert (number_of_nodes G = 0) as HN.
  { unfold number_of_nodes. by rewrite Hnull, map_size_empty. }
  assert (number_of_edges G = 0) as HE.
  { unfold number_of_edges, degree. by rewrite Hnull, map_imap_empty. }
  assert (density G = Q2Qc 0) as HD.
  { unfold density. by rewrite decide_True by auto. }
  unfold report, basic_statistics. rewrite HN, HE, HD, fmt6f_zero.
  unfold is_connected. rewrite (nodes_empty G Hnull).
  rewrite !bind_print. cbn [fst snd]. rewrite bind_lift_raise. done.
Qed.

Lemma null_graph_aborts_witness :
  path_exists null_env (graphml demo_args) = Ok true
  ∧ read_graphml null_env (graphml demo_args) = Ok (mkRaw ∅ [])
  ∧ simplify (mkRaw ∅ []) = Ok empty_graph
  ∧ node empty_graph = ∅
  ∧ main null_env demo_args
    = ([EvReadGraphml (graphml demo_args); EvPrint "=== Basic Statistics ===";
        EvPrint "Nodes: 0"; EvPrint "Edges: 0"; EvPrint "Density: 0.000000"],
       Raise (mkExn NetworkXPointlessConcept
                "Connectivity is undefined for the null graph.")).
Proof.
  assert (simplify (mkRaw ∅ []) = Ok empty_graph) as Hs by (vm_compute; reflexivity).
  split; [reflexivity|]. split; [reflexivity|]. split; [exact Hs|].
  split; [reflexivity|].
  exact (null_graph_aborts null_env demo_args (mkRaw ∅ []) empty_graph
           eq_refl eq_refl Hs eq_refl).
Defined.

(** *** Failures of the centralities *)

(** The first of the three unguarded calls that raises ends the
    section. *)
Lemma centralities_raise env G top e :
  closeness_centrality env G = Raise e
  ∨ (∃ close, closeness_centrality env G = Ok close
       ∧ (betweenness_centrality env G = Raise e
          ∨ ∃ bet, betweenness_centrality env G = Ok bet
               ∧ pagerank env G = Raise e)) →
  (centralities env G top).2 = Raise e.
Proof.
  intros Hfail. unfold centralities, print_ranking.
  rewrite !bind_print. cbn [fst snd]. rewrite bind_emit. cbn [fst snd].
  destruct Hfail as [Hclose|(close & Hclose & Hfail)]; rewrite Hclose.
  { by rewrite bind_lift_raise. }
  rewrite bind_lift_ok, !bind_print. cbn [fst snd].
  rewrite bind_emit. cbn [fst snd].
  destruct Hfail as [Hbet|(bet & Hbet & Hpr)]; rewrite Hbet.
  { by rewrite bind_lift_raise. }
  rewrite bind_lift_ok, !bind_print. cbn [fst snd].
  rewrite bind_emit. cbn [fst snd].
  by rewrite Hpr, bind_lift_raise.
Qed.

(** X14: closeness, betweenness and PageRank are not guarded: an
    exception of any class raised by one of them, a library exception
    included, ends the run after the lines printed so far; no file is
    written and no layout is computed. *)
Theorem centrality_failure_aborts (env : Env) (args : Args) (Graw : RawGraph)
    (G : Graph) (c : bool) (e : exn) :
  path_exists env (graphml args) = Ok true →
  read_graphml env (graphml args) = Ok Graw →
  simplify Graw = Ok G →
  is_connected G = Ok c →
  closeness_centrality env G = Raise e
  ∨ (∃ close, closeness_centrality env G = Ok close
       ∧ (betweenness_centrality env G = Raise e
          ∨ ∃ bet, betweenness_centrality env G = Ok bet
               ∧ pagerank env G = Raise e)) →
  main env args
  = ((EvReadGraphml (graphml args)
      :: (basic_statistics G (top args)).1 ++ (centralities env G (top args)).1)%list,
     Raise e)
  ∧ exit_status (main env args) = 1
  ∧ files_written (main env args) = []
  ∧ layouts_computed (main env args).1 = [].
Proof.
  intros Hex Hread Hsimp Hc Hfail.
  assert (main env args
          = ((EvReadGraphml (graphml args)
              :: (basic_statistics G (top args)).1
                 ++ (centralities env G (top args)).1)%list,
             Raise e)) as Hmain.
  { rewrite (main_reads env args Graw G Hex Hread Hsimp). unfold report.
    rewrite (bind_ok_eq _ _ _ (basic_statistics_ok G (top args) c Hc)).
    cbn [fst snd].
    by rewrite (bind_raise_eq _ _ e (centralities_raise env G (top args) e Hfail)). }
  rewrite Hmain. split; [done|]. split; [done|].
  assert (Forall is_print ((basic_statistics G (top args)).1
                           ++ (centralities env G (top args)).1)) as Hp.
  { apply Forall_app. auto using basic_statistics_prints, centralities_prints. }
  apply prints_quiet in Hp as (Hs & _ & Hl). unfold files_written. cbn [fst].
  split; [exact Hs|exact Hl].
Qed.

Lemma centrality_failure_aborts_witness :
  path_exists (pagerank_fails_env (mkExn NetworkXError "pagerank failed"))
    (graphml demo_args) = Ok true
  ∧ read_graphml (pagerank_fails_env (mkExn NetworkXError "pagerank failed"))
      (graphml demo_args) = Ok path4
  ∧ simplify path4 = Ok path4_graph
  ∧ is_connected path4_graph = Ok true
  ∧ pagerank (pagerank_fails_env (mkExn NetworkXError "pagerank failed")) path4_graph
    = Raise (mkExn NetworkXError "pagerank failed")
  ∧ main (pagerank_fails_env (mkExn NetworkXError "pagerank failed")) demo_args
    = ((EvReadGraphml (graphml demo_args)
        :: (basic_statistics path4_graph (top demo_args)).1
           ++ (centralities (pagerank_fails_env (mkExn NetworkXError "pagerank failed"))
                 path4_graph (top demo_args)).1)%list,
       Raise (mkExn NetworkXError "pagerank failed"))
  ∧ exit_status (main (pagerank_fails_env (mkExn NetworkXError "pagerank failed"))
                   demo_args) = 1
  ∧ files_written (main (pagerank_fails_env (mkExn NetworkXError "pagerank failed"))
                     demo_args) = []
  ∧ layouts_computed
      (main (pagerank_fails_env (mkExn NetworkXError "pagerank failed")) demo_args).1
    = [].
Proof.
  assert (is_connected path4_graph = Ok true) as Hc by (vm_compute; reflexivity).
  split; [reflexivity|]. split; [reflexivity|]. split; [exact simplify_path4|].
  split; [exact Hc|]. split; [reflexivity|].
  exact (centrality_failure_aborts
           (pagerank_fails_env (mkExn NetworkXError "pagerank failed"))
           demo_args path4 path4_graph true
           (mkExn NetworkXError "pagerank failed")
           eq_refl eq_refl simplify_path4 Hc
           (or_intror (ex_intro _ (degree_centrality path4_graph)
              (conj eq_refl
                 (or_intror (ex_intro _ ((λ _, Q2Qc 0) <$> node path4_graph)
                    (conj eq_refl eq_refl))))))).
Defined.

(** An exception that the handler does not take leaves the section. *)
Lemma eigenvector_section_uncaught env G top e :
  eigenvector_centrality env G = Raise e →
  issubclass (exn_cls e) NetworkXException = false →
  eigenvector_section env G top = ([], Raise e).
Proof.
  intros He Hsub. unfold eigenvector_section. rewrite He, bind_lift_raise.
  unfold try_except. simpl. by rewrite Hsub.
Qed.

(** X15: the handler of the eigenvector section takes library
    exceptions only: an exception of another class raised by
    [eigenvector_centrality] ends the run; the notice is not printed
    and no file is written. *)
Theorem eigenvector_other_failure_aborts (env : Env) (args : Args)
    (Graw : RawGraph) (G : Graph) (c : bool) (close bet pr : gmap string Qc)
    (e : exn) :
  path_exists env (graphml args) = Ok true →
  read_graphml env (graphml args) = Ok Graw →
  simplify Graw = Ok G →
  is_connected G = Ok c →
  closeness_centrality env G = Ok close →
  betweenness_centrality env G = Ok bet →
  pagerank env G = Ok pr →
  eigenvector_centrality env G = Raise e →
  issubclass (exn_cls e) NetworkXException = false →
  main env args
  = ((EvReadGraphml (graphml args)
      :: (basic_statistics G (top args)).1 ++ (centralities env G (top args)).1)%list,
     Raise e)
  ∧ stdout (main env args)
    = (stdout (basic_statistics G (top args))
       ++ stdout (centralities env G (top args)))%list
  ∧ files_written (main env args) = [].
Proof.
  intros Hex Hread Hsimp Hc Hclose Hbet Hpr He Hsub.
  assert (main env args
          = ((EvReadGraphml (graphml args)
              :: (basic_statistics G (top args)).1
                 ++ (centralities env G (top args)).1)%list,
             Raise e)) as Hmain.
  { rewrite (main_reads env args Graw G Hex Hread Hsimp). unfold report.
    rewrite (bind_ok_eq _ _ _ (basic_statistics_ok G (top args) c Hc)).
    cbn [fst snd].
    rewrite (bind_ok_eq _ _ _ (centralities_ok env G (top args) _ _ _ Hclose Hbet Hpr)).
    cbn [fst snd].
    rewrite (eigenvector_section_uncaught env G (top args) e He Hsub).
    rewrite (bind_raise_eq ([], Raise e) _ e eq_refl). cbn [fst snd].
    by rewrite app_nil_r. }
  rewrite Hmain. split; [done|].
  assert (Forall is_print ((basic_statistics G (top args)).1
                           ++ (centralities env G (top args)).1)) as Hp.
  { apply Forall_app. auto using basic_statistics_prints, centralities_prints. }
  split; [|unfold files_written; cbn [fst]; by apply prints_quiet in Hp as (Hs & _)].
  unfold stdout. cbn [fst]. by rewrite printed_cons, printed_app.
Qed.

Lemma eigenvector_other_failure_aborts_witness :
  path_exists (eigenvector_fails_env (mkExn OtherError "out of memory"))
    (graphml demo_args) = Ok true
  ∧ read_graphml (eigenvector_fails_env (mkExn OtherError "out of memory"))
      (graphml demo_args) = Ok path4
  ∧ simplify path4 = Ok path4_graph
  ∧ is_connected path4_graph = Ok true
  ∧ eigenvector_centrality (eigenvector_fails_env (mkExn OtherError "out of memory"))
      path4_graph = Raise (mkExn OtherError "out of memory")
  ∧ issubclass (exn_cls (mkExn OtherError "out of memory")) NetworkXException = false
  ∧ main (eigenvector_fails_env (mkExn OtherError "out of memory")) demo_args
    = ((EvReadGraphml (graphml demo_args)
        :: (basic_statistics path4_graph (top demo_args)).1
           ++ (centralities (eigenvector_fails_env (mkExn OtherError "out of memory"))
                 path4_graph (top demo_args)).1)%list,
       Raise (mkExn OtherError "out of memory"))
  ∧ stdout (main (eigenvector_fails_env (mkExn OtherError "out of memory")) demo_args)
    = (stdout (basic_statistics path4_graph (top demo_args))
       ++ stdout (centralities (eigenvector_fails_env (mkExn OtherError "out of memory"))
                    path4_graph (top demo_args)))%list
  ∧ files_written (main (eigenvector_fails_env (mkExn OtherError "out of memory"))
                     demo_args) = [].
Proof.
  assert (is_connected path4_graph = Ok true) as Hc by (vm_compute; reflexivity).
  split; [reflexivity|]. split; [reflexivity|]. split; [exact simplify_path4|].
  split; [exact Hc|]. split; [reflexivity|]. split; [reflexivity|].
  exact (eigenvector_other_failure_aborts
           (eigenvector_fails_env (mkExn OtherError "out of memory"))
           demo_args path4 path4_graph true
           (degree_centrality path4_graph)
           ((λ _, Q2Qc 0) <$> node path4_graph)
           ((λ _, Q2Qc (1 # 4)) <$> node path4_graph)
           (mkExn OtherError "out of memory")
           eq_refl eq_refl simplify_path4 Hc eq_refl eq_refl eq_refl eq_refl eq_refl).
Defined.

(** *** Labels and the k-core statement *)

(** Labelling a list in two parts. *)
Lemma label_nodes_app {A} (pos : layout) (fontsize : Z) (l1 l2 : list (string * A)) :
  (label_nodes pos fontsize l1).2 = Ok tt →
  label_nodes pos fontsize (l1 ++ l2)
  = (((label_nodes pos fontsize l1).1 ++ (label_nodes pos fontsize l2).1)%list,
     (label_nodes pos fontsize l2).2).
Proof.
  induction l1 as [|[n s] l1 IH]; cbn [label_nodes app].
  { intros _. by destruct (label_nodes pos fontsize l2). }
  unfold getitem. destruct (pos !! n) as [xy|] eqn:Hn.
  - rewrite !bind_lift_ok, !bind_emit. cbn [fst snd]. intros Hok.
    by rewrite (IH Hok).
  - by rewrite bind_lift_raise.
Qed.

(** Labelling goes through when the layout has every node of the
    list, with one label for each. *)
Lemma label_nodes_ok {A} (pos : layout) (fontsize : Z) (l : list (string * A)) :
  (∀ x, x ∈ l → is_Some (pos !! x.1)) →
  (label_nodes pos fontsize l).2 = Ok tt
  ∧ length (label_nodes pos fontsize l).1 = length l.
Proof.
  induction l as [|[n s] l IH]; cbn [label_nodes]; intros Hl; [done|].
  destruct (Hl (n, s)) as [xy Hn]; [by left|]. simpl in Hn.
  unfold getitem. rewrite Hn, bind_lift_ok, bind_emit. cbn [fst snd app length].
  destruct IH as [-> ->]; [|done]. intros x Hx. apply Hl. by right.
Qed.

(** X16: the label loop stops at the first node that the layout does not
    have, with [KeyError] of that node; the nodes before it have been
    labelled, each where the layout has it. *)
Theorem label_without_position {A} (pos : layout) (fontsize : Z)
    (l1 l2 : list (string * A)) (n : string) (s : A) :
  (∀ x, x ∈ l1 → is_Some (pos !! x.1)) →
  pos !! n = None →
  label_nodes pos fontsize (l1 ++ (n, s) :: l2)
  = ((label_nodes pos fontsize l1).1, Raise (mkExn KeyError n))
  ∧ length (label_nodes pos fontsize l1).1 = length l1
  ∧ Forall (is_text_at pos) (label_nodes pos fontsize l1).1.
Proof.
  intros Hl1 Hn. destruct (label_nodes_ok pos fontsize l1 Hl1) as [Hok Hlen].
  split_and!; [|done|apply label_nodes_texts].
  rewrite (label_nodes_app _ _ _ _ Hok). cbn [label_nodes].
  unfold getitem. rewrite Hn, bind_lift_raise. cbn [fst snd].
  by rewrite app_nil_r.
Qed.

Lemma label_without_position_witness :
  (∀ x : string * Z, x ∈ [("A", 2)] →
     is_Some (({["A" := (Q2Qc 0, Q2Qc 1)]} : layout) !! x.1))
  ∧ ({["A" := (Q2Qc 0, Q2Qc 1)]} : layout) !! "B" = None
  ∧ label_nodes {["A" := (Q2Qc 0, Q2Qc 1)]} 6 ([("A", 2)] ++ ("B", 1) :: [])
    = ((label_nodes {["A" := (Q2Qc 0, Q2Qc 1)]} 6 [("A", 2)]).1,
       Raise (mkExn KeyError "B"))
  ∧ length (label_nodes {["A" := (Q2Qc 0, Q2Qc 1)]} 6 [("A", 2)]).1
    = length [("A", 2)]
  ∧ Forall (is_text_at {["A" := (Q2Qc 0, Q2Qc 1)]})
      (label_nodes {["A" := (Q2Qc 0, Q2Qc 1)]} 6 [("A", 2)]).1.
Proof.
  assert (∀ x : string * Z, x ∈ [("A", 2)] →
            is_Some (({["A" := (Q2Qc 0, Q2Qc 1)]} : layout) !! x.1)) as H1.
  { intros x Hx. rewrite elem_of_cons, elem_of_nil in Hx.
    destruct Hx as [->|[]]. by eexists. }
  split; [exact H1|]. split; [reflexivity|].
  exact (label_without_position {["A" := (Q2Qc 0, Q2Qc 1)]} 6
           [("A", 2)] [] "B" 1 H1 eq_refl).
Defined.

(** X17: for every graph, with self-loops or not, the k-core statement
    of lines 112-118 prints nothing and leaves [args.k] as given: either
    [k_core] returns, or the statement ends with the exception that
    [core_number] raises, in the handler as in the body. *)
Theorem fallback_note_never_printed (args : Args) (G : Graph) :
  (extract_core args G).1 = []
  ∧ ((∃ core, k_core G (k args) = Ok core
        ∧ (extract_core args G).2 = Ok (core, k args))
     ∨ (∃ e, core_number G = Raise e ∧ k_core G (k args) = Raise e
          ∧ (extract_core args G).2 = Raise e)).
Proof.
  unfold extract_core, k_core.
  destruct (core_number G) as [cores|e] eqn:Hc; cbn [result_bind].
  - rewrite bind_lift_ok. split; [done|]. left. by eexists.
  - rewrite bind_lift_raise. unfold try_except. cbn [fst snd].
    destruct (issubclass (exn_cls e) NetworkXError).
    + rewrite bind_lift_raise. split; [done|]. right. by exists e.
    + split; [done|]. right. by exists e.
Qed.

(** *** Files written *)

(** Lines printed write no file. *)
Lemma saved_prints w : Forall is_print w → saved w = [].
Proof. by intros (? & _)%prints_quiet. Qed.

(** The files written by a step that writes none, then by what follows. *)
Lemma saved_quiet_step {A} (m : M A) (f : A → M unit) (l l' : list string) :
  saved m.1 = [] →
  (∀ a, m.2 = Ok a →
        saved (f a).1 `prefix_of` l ∧ ((f a).2 = Ok tt → saved (f a).1 = l')) →
  saved (m ≫= f).1 `prefix_of` l ∧ ((m ≫= f).2 = Ok tt → saved (m ≫= f).1 = l').
Proof.
  intros Hm Hf. rewrite saved_bind, Hm. cbn [app].
  unfold mbind, M_bind. destruct (m.2) as [a|e] eqn:Hm2; cbn [snd].
  - by apply Hf.
  - split; [apply prefix_nil|done].
Qed.

(** The files written by a step, then by what follows. *)
Lemma saved_seq {A} (m : M A) (f : A → M unit) (l1 l2 : list string) :
  saved m.1 `prefix_of` l1 → (∀ a, m.2 = Ok a → saved m.1 = l1) →
  (∀ a, m.2 = Ok a →
        saved (f a).1 `prefix_of` l2 ∧ ((f a).2 = Ok tt → saved (f a).1 = l2)) →
  saved (m ≫= f).1 `prefix_of` (l1 ++ l2)%list
  ∧ ((m ≫= f).2 = Ok tt → saved (m ≫= f).1 = (l1 ++ l2)%list).
Proof.
  intros Hp Hm Hf. rewrite saved_bind.
  unfold mbind, M_bind. destruct (m.2) as [a|e] eqn:Hm2; cbn [snd].
  - rewrite (Hm a eq_refl). destruct (Hf a eq_refl) as [Hfp Hfr].
    split; [by apply prefix_app|]. intros Hr. by rewrite Hfr.
  - rewrite app_nil_r. split; [by apply prefix_app_r|done].
Qed.

Lemma call_saved_quiet env fig ev : saved [ev] = [] → saved (call env fig ev).1 = [].
Proof. intros Hev. rewrite call_eq. by destruct (plotting env fig ev). Qed.

(** The labels of a plot write no file and print nothing. *)
Lemma labels_quiet {A} {P : Prop} (c : {P} + {¬ P}) (pos : layout) (fontsize : Z)
    (l : list (string * A)) :
  printed (if c then label_nodes pos fontsize l else (mret tt : M unit)).1 = []
  ∧ saved (if c then label_nodes pos fontsize l else (mret tt : M unit)).1 = [].
Proof.
  destruct c; [|done].
  destruct (texts_quiet pos _ (label_nodes_texts pos fontsize l)) as (? & ? & _).
  done.
Qed.

(** A plot writes its file, and no other, and has written it when it
    returns. *)
Lemma plot_full_saved env args G d pos :
  saved (plot_full env args G d pos).1 `prefix_of` [out_full args]
  ∧ ((plot_full env args G d pos).2 = Ok tt →
     saved (plot_full env args G d pos).1 = [out_full args]).
Proof.
  unfold plot_full. cbv zeta.
  apply saved_quiet_step; [done|intros sizes _].
  do 3 (apply saved_quiet_step; [by apply call_saved_quiet|intros _ _]).
  apply saved_quiet_step; [apply labels_quiet|].
  intros _ _.
  do 2 (apply saved_quiet_step; [by apply call_saved_quiet|intros _ _]).
  apply (saved_seq _ _ [out_full args] []).
  - rewrite call_eq. destruct (plotting _ _ _); [done|apply prefix_nil].
  - intros a. rewrite call_eq. by destruct (plotting _ _ _).
  - intros _ _. apply saved_quiet_step; [by apply call_saved_quiet|intros _ _].
    split; [apply prefix_nil|done].
Qed.

Lemma plot_core_saved env args core k pos :
  saved (plot_core env args core k pos).1 `prefix_of` [out_core args k]
  ∧ ((plot_core env args core k pos).2 = Ok tt →
     saved (plot_core env args core k pos).1 = [out_core args k]).
Proof.
  unfold plot_core. cbv zeta.
  apply saved_quiet_step; [done|intros sizes _].
  do 3 (apply saved_quiet_step; [by apply call_saved_quiet|intros _ _]).
  apply saved_quiet_step; [apply labels_quiet|].
  intros _ _.
  do 2 (apply saved_quiet_step; [by apply call_saved_quiet|intros _ _]).
  apply (saved_seq _ _ [out_core args k] []).
  - rewrite call_eq. destruct (plotting _ _ _); [done|apply prefix_nil].
  - intros a. rewrite call_eq. by destruct (plotting _ _ _).
  - intros _ _. apply saved_quiet_step; [by apply call_saved_quiet|intros _ _].
    split; [apply prefix_nil|done].
Qed.

(** The files written by the plotting phase, whatever its end. *)
Lemma plots_saved env args G d :
  (∀ u, edge_data G u u = None) →
  saved (plots env args G d).1 `prefix_of` [out_full args; out_core args (k args)]
  ∧ ((plots env args G d).2 = Ok tt →
     saved (plots env args G d).1
     = if plot args then [out_full args; out_core args (k args)] else []).
Proof.
  intros Hloop. unfold plots. destruct (plot args); [|split; [by eexists|done]].
  destruct (extract_core_loopfree args G Hloop) as (cores & core & _ & _ & _ & Hx).
  apply saved_quiet_step; [done|intros _ _].
  apply saved_quiet_step; [done|intros pos _].
  apply (saved_seq _ _ [out_full args] [out_core args (k args)]).
  - apply plot_full_saved.
  - intros [] Hr. by apply plot_full_saved.
  - intros _ _. rewrite Hx. apply saved_quiet_step; [done|].
    intros [core' k'] [= <- <-]. apply plot_core_saved.
Qed.

Lemma main_saved (env : Env) (args : Args) :
  files_written (main env args) `prefix_of` [out_full args; out_core args (k args)]
  ∧ ((main env args).2 = Ok tt →
     files_written (main env args)
     = if plot args then [out_full args; out_core args (k args)] else []).
Proof.
  unfold files_written, main.
  apply saved_quiet_step; [done|intros found _].
  destruct found; cbn [negb].
  2:{ apply saved_quiet_step; [done|intros resolved _].
      split; [apply prefix_nil|done]. }
  apply saved_quiet_step; [done|intros _ _].
  apply saved_quiet_step; [done|intros Graw _].
  apply saved_quiet_step; [done|intros G HG%lift_returns].
  unfold report.
  apply saved_quiet_step; [apply saved_prints, basic_statistics_prints|intros d _].
  apply saved_quiet_step; [apply saved_prints, centralities_prints|intros _ _].
  apply saved_quiet_step; [apply saved_prints, eigenvector_section_prints|intros _ _].
  apply plots_saved. by apply (simplify_loopfree Graw).
Qed.

(** X18: the files written by a run, whatever its end, are a prefix of
    the list [<prefix>_full.png], [<prefix>_kcore<k>.png] with the [k] of
    the command line; a run that returns wrote both with [--plot] and
    none without. *)
Theorem files_written_any_run (env : Env) (args : Args) :
  files_written (main env args) `prefix_of` [out_full args; out_core args (k args)]
  ∧ ((main env args).2 = Ok tt →
     files_written (main env args)
     = if plot args then [out_full args; out_core args (k args)] else []).
Proof. apply main_saved. Qed.

(** *** Runs that return *)

(** A comprehension returns when its element expression does on every
    element. *)
Lemma comprehension_ok {X Y} (f : X → result Y) (l : list X) :
  (∀ x, x ∈ l → ∃ y, f x = Ok y) → ∃ ys, comprehension f l = Ok ys.
Proof.
  induction l as [|x l IH]; intros Hl; simpl; [by eexists|].
  destruct (Hl x) as [y ->]; [by left|]. simpl.
  destruct IH as [ys ->]; [|by eexists]. intros z Hz. apply Hl. by right.
Qed.

(** *** A plot that cannot be saved *)

(** A step that writes no file, then a computation that writes none and
    does not return. *)
Lemma failing_step {A} (m : M A) (f : A → M unit) :
  saved m.1 = [] →
  (∀ a, m.2 = Ok a → saved (f a).1 = [] ∧ (f a).2 ≠ Ok tt) →
  saved (m ≫= f).1 = [] ∧ (m ≫= f).2 ≠ Ok tt.
Proof.
  intros Hm Hf. rewrite saved_bind, Hm. cbn [app].
  unfold mbind, M_bind. destruct (m.2) as [a|e] eqn:Hm2; cbn [snd]; [by apply Hf|done].
Qed.

Lemma plot_full_savefig_fails env args G d pos e :
  plotting env FullFigure (EvSavefig (out_full args) 200) = Raise e →
  saved (plot_full env args G d pos).1 = [] ∧ (plot_full env args G d pos).2 ≠ Ok tt.
Proof.
  intros He. unfold out_full in He. unfold plot_full. cbv zeta.
  apply failing_step; [done|intros sizes _].
  do 3 (apply failing_step; [by apply call_saved_quiet|intros _ _]).
  apply failing_step; [apply labels_quiet|intros _ _].
  do 2 (apply failing_step; [by apply call_saved_quiet|intros _ _]).
  by rewrite (bind_call_raise _ _ _ _ _ He).
Qed.

(** X28: when [savefig] raises for the plot of the whole graph (a prefix
    in a directory that is not there, a directory that cannot be
    written), a run with [--plot] does not return: the exit status is 1
    and no file is written, the k-core image included. *)
Theorem savefig_failure_aborts (env : Env) (args : Args) (e : exn) :
  plot args = true →
  plotting env FullFigure (EvSavefig (out_full args) 200) = Raise e →
  (main env args).2 ≠ Ok tt
  ∧ exit_status (main env args) = 1
  ∧ files_written (main env args) = [].
Proof.
  intros Hplot He.
  assert (saved (main env args).1 = [] ∧ (main env args).2 ≠ Ok tt) as [Hs Hr].
  { unfold main.
    apply failing_step; [done|intros found _]. destruct found; cbn [negb].
    2:{ apply failing_step; [done|intros resolved _]. done. }
    apply failing_step; [done|intros _ _].
    apply failing_step; [done|intros Graw _].
    apply failing_step; [done|intros G _].
    unfold report.
    apply failing_step; [apply saved_prints, basic_statistics_prints|intros d _].
    apply failing_step; [apply saved_prints, centralities_prints|intros _ _].
    apply failing_step; [apply saved_prints, eigenvector_section_prints|intros _ _].
    unfold plots. rewrite Hplot.
    apply failing_step; [done|intros _ _].
    apply failing_step; [done|intros pos _].
    destruct (plot_full_savefig_fails env args G d pos e He) as [Hfs Hfr].
    apply failing_step; [done|intros [] Hok]. done. }
  split; [done|]. split; [|done].
  unfold exit_status. by destruct ((main env args).2) as [[]|].
Qed.

Lemma savefig_failure_aborts_witness :
  plot no_directory_args = true
  ∧ plotting no_directory_env FullFigure (EvSavefig (out_full no_directory_args) 200)
    = Raise no_such_directory
  ∧ (main no_directory_env no_directory_args).2 ≠ Ok tt
  ∧ exit_status (main no_directory_env no_directory_args) = 1
  ∧ files_written (main no_directory_env no_directory_args) = [].
Proof.
  split; [reflexivity|]. split; [reflexivity|].
  exact (savefig_failure_aborts no_directory_env no_directory_args no_such_directory
           eq_refl eq_refl).
Defined.

(** On the sample input the run ends with the exception of [savefig],
    after the statistics and the drawing of the whole graph. *)
Example missing_directory_run :
  (main no_directory_env no_directory_args).2 = Raise no_such_directory
  ∧ stdout (main no_directory_env no_directory_args)
    = printed (statistics_events no_directory_env no_directory_args path4_graph)
  ∧ length (drawn (main no_directory_env no_directory_args).1) = 2%nat.
Proof. split_and!; vm_compute; reflexivity. Qed.

Lemma nodes_spec G n : n ∈ nodes G ↔ is_Some (node G !! n).
Proof.
  unfold nodes. rewrite list_elem_of_fmap. split.
  - intros ([m a] & -> & Hin). apply elem_of_map_to_list in Hin. by eexists.
  - intros [a Ha]. exists (n, a). by rewrite elem_of_map_to_list.
Qed.










Lemma path4_graph_not_null : node path4_graph ≠ ∅.
Proof.
  intros Hn. apply (f_equal (λ m, m !! "A")) in Hn. vm_compute in Hn. discriminate.
Qed.



(** *** The labels placed *)

Lemma labelled_app w1 w2 : labelled (w1 ++ w2) = (labelled w1 ++ labelled w2)%list.
Proof. apply omap_app. Qed.

Lemma prints_no_labels w : Forall is_print w → labelled w = [].
Proof. induction 1 as [|ev w Hev _ IH]; [done|]. destruct ev; done. Qed.

(** The labels placed by a label loop that returns: the names of the
    list, in order. *)
Lemma label_nodes_names {A} (pos : layout) (fontsize : Z) (l : list (string * A)) :
  (label_nodes pos fontsize l).2 = Ok tt →
  labelled (label_nodes pos fontsize l).1 = (λ x, (x.1, fontsize)) <$> l.
Proof.
  induction l as [|[n s] l IH]; cbn [label_nodes]; [done|].
  unfold getitem. destruct (pos !! n) as [xy|] eqn:Hn.
  - rewrite bind_lift_ok, bind_emit. cbn [fst snd]. intros Hok.
    rewrite labelled_app, (IH Hok). done.
  - by rewrite bind_lift_raise.
Qed.

Lemma plot_full_labels env args G d pos :
  (plot_full env args G d pos).2 = Ok tt →
  labelled (plot_full env args G d pos).1
  = if decide (0 < label_top args)
    then (λ x, (x.1, 6)) <$> top_n d (label_top args) else [].
Proof.
  unfold plot_full. intros Hret.
  apply bind_returns in Hret as (sizes & Hsizes & Hret & ->).
  do 3 call_returned Hret.
  apply bind_returns in Hret as ([] & Hlab & Hret & ->).
  do 4 call_returned Hret.
  cbn [lift fst app].
  change (labelled (_ :: _ :: _ :: ?w)) with (labelled w).
  rewrite labelled_app.
  change (labelled (EvAxisOff :: _)) with (@nil (string * Z)).
  rewrite app_nil_r.
  destruct (decide (0 < label_top args)); [|done].
  by apply label_nodes_names.
Qed.

Lemma plot_core_labels env args core k pos :
  (plot_core env args core k pos).2 = Ok tt →
  labelled (plot_core env args core k pos).1
  = if decide (0 < label_top args)
    then (λ x, (x.1, 7)) <$> top_n (degree core) (label_top args) else [].
Proof.
  unfold plot_core. intros Hret.
  apply bind_returns in Hret as (sizes & Hsizes & Hret & ->).
  do 3 call_returned Hret.
  apply bind_returns in Hret as ([] & Hlab & Hret & ->).
  do 4 call_returned Hret.
  cbn [lift fst app].
  change (labelled (_ :: _ :: _ :: ?w)) with (labelled w).
  rewrite labelled_app.
  change (labelled (EvAxisOff :: _)) with (@nil (string * Z)).
  rewrite app_nil_r.
  destruct (decide (0 < label_top args)); [|done].
  by apply label_nodes_names.
Qed.

(** X20: in a run with the plots that returns, the labels placed are the
    names of the first [label_top] nodes by degree in the graph, at font
    size 6, then those of the first [label_top] nodes of the k-core by
    degree within it, at font size 7; none when [label_top] is not
    positive. *)
Theorem labels_are_top_degree (env : Env) (args : Args) :
  plot args = true →
  (main env args).2 = Ok tt →
  ∃ Graw G core,
    read_graphml env (graphml args) = Ok Graw
    ∧ simplify Graw = Ok G
    ∧ k_core G (k args) = Ok core
    ∧ labelled (main env args).1
      = if decide (0 < label_top args)
        then (((λ x, (x.1, 6)) <$> top_n (degree G) (label_top args))
              ++ ((λ x, (x.1, 7)) <$> top_n (degree core) (label_top args)))%list
        else [].
Proof.
  intros Hplot Hret.
  destruct (main_returns env args Hret) as (Graw & G & _ & Hread & HG & Hp & ->).
  pose proof (simplify_loopfree Graw G HG) as Hloop.
  destruct (extract_core_loopfree args G Hloop) as (cores & core & _ & Hk & _ & Hx).
  exists Graw, G, core. split_and!; [done..|].
  match goal with
  | |- labelled (?ev :: ?w) = _ => change (labelled (ev :: w)) with (labelled w)
  end.
  rewrite labelled_app, (prints_no_labels _ (statistics_events_prints env args G)).
  cbn [app].
  revert Hp. unfold plots. rewrite Hplot, bind_emit. cbn [fst snd]. intros Hp.
  apply bind_returns in Hp as (pos & Hpos%lift_returns & Hp & ->).
  apply bind_returns in Hp as ([] & Hfull & Hp & ->).
  rewrite Hx in Hp |- *.
  apply bind_returns in Hp as ([core' k'] & [= <- <-] & Hp & ->).
  cbn [fst snd] in Hp |- *.
  rewrite !labelled_app, (plot_full_labels _ _ _ _ _ Hfull), (plot_core_labels _ _ _ _ _ Hp).
  cbn [lift fst labelled omap app].
  by case_decide.
Qed.

(** The sample run returns. *)
Lemma demo_run_returns : (main demo_env demo_args).2 = Ok tt.
Proof. vm_compute. reflexivity. Qed.

Lemma labels_are_top_degree_witness :
  plot demo_args = true
  ∧ (main demo_env demo_args).2 = Ok tt
  ∧ ∃ Graw G core,
      read_graphml demo_env (graphml demo_args) = Ok Graw
      ∧ simplify Graw = Ok G
      ∧ k_core G (k demo_args) = Ok core
      ∧ labelled (main demo_env demo_args).1
        = if decide (0 < label_top demo_args)
          then (((λ x, (x.1, 6)) <$> top_n (degree G) (label_top demo_args))
                ++ ((λ x, (x.1, 7)) <$> top_n (degree core) (label_top demo_args)))%list
          else [].
Proof.
  split; [reflexivity|]. split; [exact demo_run_returns|].
  exact (labels_are_top_degree demo_env demo_args eq_refl demo_run_returns).
Defined.

(** ** Connectivity *)

(** The next level of the search: the unseen neighbours of this
    level. *)
Lemma next_level_spec G (seen thislevel : gset string) v :
  v ∈ ⋃ (neighbors G <$> elements thislevel) ∖ seen
  ↔ (∃ a, a ∈ thislevel ∧ linked G a v) ∧ v ∉ seen.
Proof.
  rewrite elem_of_difference, elem_of_union_list. split.
  - intros [(X & HX & Hv) Hs]. split; [|done].
    apply list_elem_of_fmap in HX as (a & -> & Ha).
    exists a. split; [by apply elem_of_elements|by apply neighbors_spec].
  - intros [(a & Ha & Hv) Hs]. split; [|done].
    exists (neighbors G a). split; [|by apply neighbors_spec].
    apply list_elem_of_fmap. exists a. split; [done|by apply elem_of_elements].
Qed.

(** A set that has the source and is closed under edges has every node
    joined to the source. *)
Lemma joined_closed G s (X : gset string) :
  s ∈ X → (∀ a b, a ∈ X → linked G a b → b ∈ X) → ∀ v, joined G s v → v ∈ X.
Proof.
  intros Hs Hcl. apply rtc_ind_r; [done|].
  intros a b _ Hab Ha. by apply (Hcl a b).
Qed.

Lemma joined_nodes G s v :
  (∀ a b, is_Some (node G !! a) → linked G a b → is_Some (node G !! b)) →
  is_Some (node G !! s) → joined G s v → is_Some (node G !! v).
Proof.
  intros Hclosed Hs Hv. apply elem_of_dom.
  apply (joined_closed G s (dom (node G))); [by apply elem_of_dom| |done].
  intros a b Ha Hab. apply elem_of_dom. apply (Hclosed a b); [|done].
  by apply elem_of_dom.
Qed.

(** The search returns the nodes joined to the source, when the fuel
    covers the nodes not yet seen. *)
Lemma bfs_levels_spec fuel G (s : string) (seen thislevel : gset string) :
  (∀ a b, is_Some (node G !! a) → linked G a b → is_Some (node G !! b)) →
  s ∈ seen →
  thislevel ⊆ seen →
  seen ⊆ dom (node G) →
  (∀ a, a ∈ seen → joined G s a) →
  (∀ a b, a ∈ seen → a ∉ thislevel → linked G a b → b ∈ seen) →
  (size (node G) ≤ fuel + size seen)%nat →
  ∀ v, v ∈ bfs_levels fuel G seen thislevel ↔ joined G s v.
Proof.
  intros Hclosed. revert seen thislevel.
  induction fuel as [|fuel IH]; intros seen thislevel Hs Hthis Hdom Hreach Hold Hfuel v;
    cbn [bfs_levels].
  - split; [apply Hreach|].
    assert (seen = dom (node G)) as ->.
    { apply set_subseteq_size_eq; [done|]. rewrite size_dom. lia. }
    intros Hv. apply elem_of_dom. apply (joined_nodes G s v); [done| |done].
    by apply elem_of_dom.
  - set (nextlevel := ⋃ (neighbors G <$> elements thislevel) ∖ seen).
    destruct (decide (nextlevel = ∅)) as [Hemp|Hne].
    + split; [apply Hreach|]. apply joined_closed; [done|].
      intros a b Ha Hab. destruct (decide (a ∈ thislevel)) as [Hin|Hout]; [|by eauto].
      destruct (decide (b ∈ seen)) as [|Hb]; [done|]. exfalso.
      assert (b ∈ nextlevel) as Hbn.
      { apply next_level_spec. split; [by exists a|done]. }
      rewrite Hemp in Hbn. by apply elem_of_empty in Hbn.
    + assert (∀ b, b ∈ nextlevel → (∃ a, a ∈ thislevel ∧ linked G a b) ∧ b ∉ seen)
        as Hnext by (intros b; apply next_level_spec).
      apply IH.
      * apply elem_of_union. by left.
      * intros b Hb. apply elem_of_union. by right.
      * intros b [Hb|Hb]%elem_of_union; [by apply Hdom|].
        destruct (Hnext b Hb) as [(a & Ha & Hab) _].
        apply elem_of_dom. apply (Hclosed a b); [|done].
        apply elem_of_dom, Hdom, Hthis, Ha.
      * intros b [Hb|Hb]%elem_of_union; [by apply Hreach|].
        destruct (Hnext b Hb) as [(a & Ha & Hab) _].
        eapply rtc_r; [apply Hreach, Hthis, Ha|done].
      * intros a b [Ha|Ha]%elem_of_union Hout Hab; [|done].
        apply elem_of_union.
        destruct (decide (b ∈ seen)) as [|Hb]; [by left|right].
        apply next_level_spec. split; [|done].
        destruct (decide (a ∈ thislevel)) as [|Hno]; [by exists a|].
        destruct Hb. by apply (Hold a b).
      * assert (size nextlevel ≠ 0)%nat as Hpos.
        { intros Hz. apply Hne. by apply size_empty_inv, leibniz_equiv in Hz. }
        rewrite size_union; [lia|].
        intros b Hb Hbn. by destruct (Hnext b Hbn) as [_ ?].
Qed.

Lemma plain_bfs_spec G s v :
  (∀ a b, is_Some (node G !! a) → linked G a b → is_Some (node G !! b)) →
  is_Some (node G !! s) →
  v ∈ plain_bfs G s ↔ joined G s v.
Proof.
  intros Hclosed Hs. unfold plain_bfs. apply bfs_levels_spec; try done.
  - by apply elem_of_singleton.
  - intros a ->%elem_of_singleton. by apply elem_of_dom.
  - intros a ->%elem_of_singleton. apply rtc_refl.
  - rewrite size_singleton. lia.
Qed.

Lemma joined_sym G u v : symmetric G → joined G u v → joined G v u.
Proof.
  intros Hsym Huv. induction Huv as [|a b c Hab _ IH]; [apply rtc_refl|].
  eapply rtc_r; [exact IH|]. unfold linked. by rewrite <-(Hsym a b).
Qed.

(** X21: on the graph built, when it has a node, the connectivity test
    returns, and the line [Connected:] shows [True] exactly when every
    two nodes are joined by a path. *)
Theorem is_connected_spec (Graw : RawGraph) (G : Graph) :
  simplify Graw = Ok G →
  node G ≠ ∅ →
  ∃ c, is_connected G = Ok c
    ∧ (c = true ↔
       ∀ u v, is_Some (node G !! u) → is_Some (node G !! v) → joined G u v).
Proof.
  intros HG Hne. destruct (simplify_wf Graw G HG) as (Hwf & Hsym & _).
  assert (∀ a b, is_Some (node G !! a) → linked G a b → is_Some (node G !! b))
    as Hclosed.
  { intros a b _ Hab. by apply (edge_ends_are_nodes G a b). }
  unfold is_connected.
  destruct (nodes G) as [|s l] eqn:Hl.
  { destruct Hne. apply map_to_list_empty_iff.
    unfold nodes in Hl. by apply fmap_nil_inv in Hl. }
  assert (is_Some (node G !! s)) as Hs.
  { apply nodes_spec. rewrite Hl. by left. }
  eexists. split; [done|]. rewrite bool_decide_eq_true.
  assert (plain_bfs G s ⊆ dom (node G)) as Hsub.
  { intros v Hv%(plain_bfs_spec G s v Hclosed Hs).
    apply elem_of_dom. by apply (joined_nodes G s v). }
  split.
  - intros Hsize u v Hu Hv.
    assert (plain_bfs G s = dom (node G)) as Heq.
    { apply set_subseteq_size_eq; [done|]. rewrite size_dom. lia. }
    assert (∀ w, is_Some (node G !! w) → joined G s w) as Hall.
    { intros w Hw. apply (plain_bfs_spec G s w Hclosed Hs).
      rewrite Heq. by apply elem_of_dom. }
    assert (joined G u s) as Hus by (apply joined_sym; auto).
    specialize (Hall v Hv). unfold joined in *. by transitivity s.
  - intros Hall. rewrite <-size_dom. f_equal. apply set_eq. intros v.
    split; [apply Hsub|]. intros Hv%elem_of_dom.
    apply (plain_bfs_spec G s v Hclosed Hs). by apply Hall.
Qed.

Lemma is_connected_spec_witness :
  simplify path4 = Ok path4_graph
  ∧ node path4_graph ≠ ∅
  ∧ ∃ c, is_connected path4_graph = Ok c
      ∧ (c = true ↔
         ∀ u v, is_Some (node path4_graph !! u) → is_Some (node path4_graph !! v) →
                joined path4_graph u v).
Proof.
  split; [exact simplify_path4|]. split; [exact path4_graph_not_null|].
  exact (is_connected_spec path4 path4_graph simplify_path4 path4_graph_not_null).
Defined.

(** ** Degree centrality *)

Section TopNMap.
Context {A B : Type} `{Score A} `{Score B}.

(** Sortedness goes through a map that is monotone on the elements of
    the list. *)
Lemma StronglySorted_fmap_elem {X Y} (R1 : relation X) (R2 : relation Y)
    (f : X → Y) (l : list X) :
  (∀ x y, x ∈ l → y ∈ l → R1 x y → R2 (f x) (f y)) →
  StronglySorted R1 l → StronglySorted R2 (f <$> l).
Proof.
  intros Hf Hl. induction Hl as [|x l Hl IH Hx]; simpl; constructor.
  - apply IH. intros y z Hy Hz. apply Hf; by right.
  - rewrite Forall_fmap. rewrite Forall_forall in Hx |- *. intros y Hy.
    apply Hf; [by left|by right|by apply Hx].
Qed.

Lemma slice_to_fmap {X Y} (f : X → Y) (l : list X) (k : Z) :
  slice_to (f <$> l) k = f <$> slice_to l k.
Proof. unfold slice_to. rewrite length_fmap. case_decide; by rewrite fmap_take. Qed.

(** A strictly increasing change of the scores keeps the ranking. *)
Lemma ranking_fmap (g : A → B) (d : gmap string A) :
  (∀ n m x y, d !! n = Some x → d !! m = Some y →
              score_lt x y → score_lt (g x) (g y)) →
  ranking (g <$> d) = (λ x, (x.1, g x.2)) <$> ranking d.
Proof.
  intros Hg. apply ranked_unique.
  - apply ranking_ranked.
  - apply (StronglySorted_fmap_elem ranks_before); [|apply ranking_ranked].
    intros [n x] [m y] Hx%elem_of_ranking Hy%elem_of_ranking [Hlt|[Heq Hs]].
    + left. simpl in *. by apply (Hg m n).
    + right. simpl in *. by rewrite Heq.
  - rewrite ranking_Permutation, map_to_list_fmap.
    apply fmap_Permutation. symmetry. apply ranking_Permutation.
Qed.

Lemma top_n_fmap_names (g : A → B) (d : gmap string A) (k : Z) :
  (∀ n m x y, d !! n = Some x → d !! m = Some y →
              score_lt x y → score_lt (g x) (g y)) →
  (top_n (g <$> d) k).*1 = (top_n d k).*1.
Proof.
  intros Hg. unfold top_n. rewrite (ranking_fmap g d Hg), slice_to_fmap.
  rewrite <-list_fmap_compose. by apply list_fmap_ext.
Qed.

End TopNMap.

(** The relative error of rounding, as two bounds. *)
Lemma to_double_bounds (q : Q) :
  (0 < q)%Q →
  (q - q * (1 # 9007199254740992) <= to_double q)%Q
  ∧ (to_double q <= q + q * (1 # 9007199254740992))%Q.
Proof.
  intros Hq. pose proof (to_double_error q Hq) as He.
  apply Qabs_Qle_condition in He.
  change (2 ^ (-53))%Q with (1 # 9007199254740992)%Q in He.
  split; lra.
Qed.

Lemma this_float_of_int (d : Z) :
  (this (float_of_int d) == to_double (inject_Z d))%Q.
Proof. unfold float_of_int. by rewrite this_float_of. Qed.

Lemma float_of_int_zero_mul (s : Qc) :
  float_of (float_of_int 0 * s) = Q2Qc 0.
Proof.
  assert (float_of_int 0 = Q2Qc 0) as -> by (apply Qc_is_canon; reflexivity).
  replace (Q2Qc 0 * s)%Qc with (Q2Qc 0); [apply float_of_zero|].
  symmetry. apply Qcmult_0_l.
Qed.

(** The value of [d * s] for a positive [int] [d] and a positive
    [float] [s], between two bounds. *)
Lemma scaled_bounds (s : Qc) (d : Z) :
  (0 < this s)%Q → 0 < d →
  let a := to_double (inject_Z d) in
  let f := this (float_of (float_of_int d * s)) in
  (0 < a)%Q
  ∧ (inject_Z d - inject_Z d * (1 # 9007199254740992) <= a)%Q
  ∧ (a <= inject_Z d + inject_Z d * (1 # 9007199254740992))%Q
  ∧ ((a - a * (1 # 9007199254740992)) * this s <= f)%Q
  ∧ (f <= (a + a * (1 # 9007199254740992)) * this s)%Q.
Proof.
  intros Hs Hd a f.
  assert (0 < inject_Z d)%Q as Hdq.
  { change 0%Q with (inject_Z 0). by rewrite <-Zlt_Qlt. }
  pose proof (to_double_positive _ Hdq) as Ha.
  destruct (to_double_bounds _ Hdq) as [Ha1 Ha2]. fold a in Ha, Ha1, Ha2.
  assert (this (float_of_int d * s)%Qc == a * this s)%Q as Hp.
  { by rewrite this_Qcmult, this_float_of_int. }
  assert (0 < a * this s)%Q as Hpos by (apply Qmult_lt_0_compat; done).
  assert (0 < this (float_of_int d * s)%Qc)%Q as Hpos' by (by rewrite Hp).
  assert (f == to_double (a * this s))%Q as Hf.
  { unfold f. rewrite this_float_of. by rewrite (to_double_Qeq _ _ Hpos' Hp). }
  destruct (to_double_bounds _ Hpos) as [Hf1 Hf2].
  split_and!; [done..| |]; rewrite Hf.
  - eapply Qle_trans; [|exact Hf1]. apply Qle_lteq. right. ring.
  - eapply Qle_trans; [exact Hf2|]. apply Qle_lteq. right. ring.
Qed.

(** Scaling by a positive float keeps integers below [2^50] apart. *)
Lemma scaled_lt (s : Qc) (d1 d2 : Z) :
  (0 < this s)%Q → 0 ≤ d1 < d2 → d2 ≤ 2 ^ 50 →
  (float_of (float_of_int d1 * s) < float_of (float_of_int d2 * s))%Qc.
Proof.
  intros Hs Hd Hmax. unfold Qclt.
  destruct (scaled_bounds s d2 Hs ltac:(lia)) as (Ha2 & Hl2 & _ & Hf2 & _).
  destruct (decide (d1 = 0)) as [->|Hnz].
  { rewrite float_of_int_zero_mul. change (this (Q2Qc 0)) with 0%Q.
    set (a2 := to_double (inject_Z d2)) in *.
    assert (0 < (a2 - a2 * (1 # 9007199254740992)) * this s)%Q; [|lra].
    apply Qmult_lt_0_compat; [lra|done]. }
  destruct (scaled_bounds s d1 Hs ltac:(lia)) as (Ha1 & _ & Hu1 & _ & Hf1).
  set (a1 := to_double (inject_Z d1)) in *.
  set (a2 := to_double (inject_Z d2)) in *.
  assert (inject_Z 1 <= inject_Z d1)%Q as Hd1 by (rewrite <-Zle_Qle; lia).
  assert (inject_Z d1 + inject_Z 1 <= inject_Z d2)%Q as Hd12.
  { rewrite <-inject_Z_plus, <-Zle_Qle. lia. }
  assert (inject_Z d1 <= inject_Z (2 ^ 50))%Q as Hd50 by (rewrite <-Zle_Qle; lia).
  change (inject_Z 1) with 1%Q in *.
  change (inject_Z (2 ^ 50)) with (1125899906842624 # 1)%Q in Hd50.
  set (x1 := inject_Z d1) in *. set (x2 := inject_Z d2) in *.
  assert (a1 + a1 * (1 # 9007199254740992) < a2 - a2 * (1 # 9007199254740992))%Q
    as Hgap by lra.
  eapply Qle_lt_trans; [exact Hf1|]. eapply Qlt_le_trans; [|exact Hf2].
  by apply Qmult_lt_compat_r.
Qed.

Lemma float_of_positive (x : Qc) : (0 < this x)%Q → (0 < this (float_of x))%Q.
Proof. intros Hx. rewrite this_float_of. by apply to_double_positive. Qed.

(** The scale [1.0 / (len(G) - 1.0)] is positive from two nodes on. *)
Lemma centrality_scale_positive (N : Z) :
  2 ≤ N →
  (0 < this (float_of (Q2Qc 1 / float_of (float_of_int N - Q2Qc 1))))%Q.
Proof.
  intros HN. apply float_of_positive.
  assert (0 < inject_Z N)%Q as HNq.
  { change 0%Q with (inject_Z 0). rewrite <-Zlt_Qlt. lia. }
  destruct (to_double_bounds _ HNq) as [Hlow _].
  assert (2 <= inject_Z N)%Q as H2.
  { change 2%Q with (inject_Z 2). by rewrite <-Zle_Qle. }
  assert (0 < this (float_of_int N - Q2Qc 1)%Qc)%Q as Hx.
  { assert (this (float_of_int N - Q2Qc 1)%Qc == this (float_of_int N) - 1)%Q as ->
      by apply Qred_correct.
    rewrite this_float_of_int. lra. }
  apply float_of_positive in Hx.
  set (y := float_of (float_of_int N - Q2Qc 1)) in *.
  assert (0 < Q2Qc 1 / y)%Qc as Hdiv.
  { unfold Qcdiv. apply Qcmult_pos_pos; [done|]. by apply Qcinv_pos. }
  exact Hdiv.
Qed.

(** X22: the section on degree centrality lists the same nodes, in the
    same order, as the section on degree, for a graph of at most [2^50]
    nodes: scaling and rounding keep different degrees apart. *)
Theorem degree_centrality_same_order (Graw : RawGraph) (G : Graph) (top : Z) :
  simplify Graw = Ok G →
  number_of_nodes G ≤ 2 ^ 50 →
  (top_n (degree_centrality G) top).*1 = (top_n (degree G) top).*1.
Proof.
  intros HG Hmax. destruct (simplify_wf Graw G HG) as (Hwf & Hsym & Hloop).
  assert (∀ n x, degree G !! n = Some x → 0 ≤ x ≤ number_of_nodes G - 1) as Hrange.
  { intros n x Hx.
    assert (is_Some (node G !! n)) as Hn.
    { apply elem_of_dom. rewrite <-degree_dom. apply elem_of_dom. by eexists. }
    apply degree_lookup in Hx as ->. by apply degree_of_bound. }
  unfold degree_centrality. case_decide as HN.
  - replace ((λ _ : attrs, Q2Qc 1) <$> node G)
      with ((λ _ : Z, Q2Qc 1) <$> degree G).
    + apply top_n_fmap_names. intros n m x y Hx Hy Hlt.
      apply Hrange in Hx, Hy. simpl in Hlt. lia.
    + apply map_eq. intros n. unfold degree.
      rewrite !lookup_fmap, map_lookup_imap. by destruct (node G !! n).
  - apply top_n_fmap_names. intros n m x y Hx Hy Hlt.
    apply Hrange in Hx, Hy. simpl in Hlt.
    apply scaled_lt; [|lia..].
    apply centrality_scale_positive. lia.
Qed.

Lemma degree_centrality_same_order_witness :
  simplify path4 = Ok path4_graph
  ∧ number_of_nodes path4_graph ≤ 2 ^ 50
  ∧ (top_n (degree_centrality path4_graph) 2).*1 = (top_n (degree path4_graph) 2).*1.
Proof.
  assert (number_of_nodes path4_graph ≤ 2 ^ 50) as Hmax by (vm_compute; discriminate).
  split; [exact simplify_path4|]. split; [exact Hmax|].
  exact (degree_centrality_same_order path4 path4_graph 2 simplify_path4 Hmax).
Defined.

(** ** The files reported *)

(** The outcome of a step and what follows it. *)
Lemma bind_result {A B} (m : M A) (f : A → M B) :
  (m ≫= f).2 = match m.2 with Ok a => (f a).2 | Raise e => Raise e end.
Proof. unfold mbind, M_bind. by destruct (m.2). Qed.

Lemma printed_bind {A B} (m : M A) (f : A → M B) :
  printed (m ≫= f).1
  = (printed m.1 ++ match m.2 with Ok a => printed (f a).1 | Raise _ => [] end)%list.
Proof. rewrite bind_events, printed_app. by destruct (m.2). Qed.

(** The lines printed by a step that prints nothing, then by what
    follows. *)
Lemma printed_quiet_step {A} (m : M A) (f : A → M unit) (l : list string) :
  printed m.1 = [] →
  (∀ a, m.2 = Ok a →
        printed (f a).1 = match (f a).2 with Ok _ => l | Raise _ => [] end) →
  printed (m ≫= f).1 = match (m ≫= f).2 with Ok _ => l | Raise _ => [] end.
Proof.
  intros Hm Hf. rewrite printed_bind, bind_result, Hm. cbn [app].
  destruct (m.2) as [a|e] eqn:Hm2; [by apply Hf|done].
Qed.

Lemma call_printed_quiet env fig ev :
  printed [ev] = [] → printed (call env fig ev).1 = [].
Proof. intros Hev. rewrite call_eq. by destruct (plotting env fig ev). Qed.

(** A plot reports its file when it returns, and prints nothing when it
    does not. *)
Lemma plot_full_printed env args G d pos :
  printed (plot_full env args G d pos).1
  = match (plot_full env args G d pos).2 with
    | Ok _ => [wrote (out_full args)]
    | Raise _ => []
    end.
Proof.
  unfold plot_full. cbv zeta.
  apply printed_quiet_step; [done|intros sizes _].
  do 3 (apply printed_quiet_step; [by apply call_printed_quiet|intros _ _]).
  apply printed_quiet_step; [apply labels_quiet|intros _ _].
  do 4 (apply printed_quiet_step; [by apply call_printed_quiet|intros _ _]).
  done.
Qed.

Lemma plot_core_printed env args core k pos :
  printed (plot_core env args core k pos).1
  = match (plot_core env args core k pos).2 with
    | Ok _ => [wrote (out_core args k)]
    | Raise _ => []
    end.
Proof.
  unfold plot_core. cbv zeta.
  apply printed_quiet_step; [done|intros sizes _].
  do 3 (apply printed_quiet_step; [by apply call_printed_quiet|intros _ _]).
  apply printed_quiet_step; [apply labels_quiet|intros _ _].
  do 4 (apply printed_quiet_step; [by apply call_printed_quiet|intros _ _]).
  done.
Qed.

(** The files reported by the plotting phase are files written, in the
    order of writing, and all of them when the phase returns. *)
Lemma plots_printed env args G d :
  (∀ u, edge_data G u u = None) →
  ∃ fs, printed (plots env args G d).1 = wrote <$> fs
    ∧ fs `prefix_of` saved (plots env args G d).1
    ∧ ((plots env args G d).2 = Ok tt → fs = saved (plots env args G d).1).
Proof.
  intros Hloop. unfold plots. destruct (plot args); [|by exists []].
  destruct (extract_core_loopfree args G Hloop) as (cores & core & _ & _ & _ & Hx).
  rewrite printed_bind, saved_bind, bind_result. cbn [emit fst snd].
  change (printed [EvSpringLayout G (seed args)]) with (@nil string).
  change (saved [EvSpringLayout G (seed args)]) with (@nil string). cbn [app].
  rewrite printed_bind, saved_bind, bind_result. cbn [lift fst snd].
  change (printed []) with (@nil string). change (saved []) with (@nil string).
  cbn [app].
  destruct (spring_layout env G (seed args)) as [pos|e]; [|by exists []].
  rewrite printed_bind, saved_bind, bind_result, plot_full_printed.
  destruct (plot_full_saved env args G d pos) as [Hfp Hfr].
  destruct ((plot_full env args G d pos).2) as [[]|e] eqn:Hf.
  2:{ exists []. rewrite !app_nil_r. split; [done|]. split; [apply prefix_nil|done]. }
  rewrite (Hfr eq_refl), Hx.
  rewrite printed_bind, saved_bind, bind_result. cbn [fst snd app].
  rewrite plot_core_printed.
  destruct (plot_core_saved env args core (k args) pos) as [Hcp Hcr].
  destruct ((plot_core env args core (k args) pos).2) as [[]|e] eqn:Hc.
  - exists [out_full args; out_core args (k args)]. by rewrite (Hcr eq_refl).
  - exists [out_full args]. split; [done|]. split; [|done].
    by apply prefix_cons, prefix_nil.
Qed.

(** X24: in a run that has built the graph, whatever its end, the lines
    printed are lines of the statistics sections, in their order, then
    one line [Wrote f] for each file reported; the files reported are
    files written, in the order of writing, and all of them when the run
    returns. *)
Theorem wrote_lines_match_files (env : Env) (args : Args) (Graw : RawGraph)
    (G : Graph) :
  path_exists env (graphml args) = Ok true →
  read_graphml env (graphml args) = Ok Graw →
  simplify Graw = Ok G →
  ∃ n fs,
    stdout (main env args)
    = (take n (printed (statistics_events env args G)) ++ (wrote <$> fs))%list
    ∧ fs `prefix_of` files_written (main env args)
    ∧ ((main env args).2 = Ok tt → fs = files_written (main env args)).
Proof.
  intros Hex Hread HG.
  rewrite (main_reads env args Graw G Hex Hread HG).
  unfold stdout, files_written. cbn [fst snd].
  rewrite printed_cons, saved_cons. cbn [printed saved omap app].
  pose proof (simplify_loopfree Graw G HG) as Hloop.
  unfold report, statistics_events.
  set (b := basic_statistics G (top args)).
  set (c := centralities env G (top args)).
  set (e := eigenvector_section env G (top args)).
  assert (saved b.1 = []) as Hb by apply saved_prints, basic_statistics_prints.
  assert (saved c.1 = []) as Hc by apply saved_prints, centralities_prints.
  assert (saved e.1 = []) as He by apply saved_prints, eigenvector_section_prints.
  rewrite !printed_app, printed_bind, saved_bind, bind_result, Hb. cbn [app].
  destruct (b.2) as [d|x].
  2:{ exists (length (printed b.1)), []. cbn [fmap list_fmap].
      rewrite take_app_length, !app_nil_r.
      split; [done|]. split; [apply prefix_nil|done]. }
  rewrite printed_bind, saved_bind, bind_result, Hc. cbn [app].
  destruct (c.2) as [[]|x].
  2:{ exists (length (printed b.1 ++ printed c.1)), []. cbn [fmap list_fmap].
      rewrite (assoc_L (++) (printed b.1) (printed c.1) (printed e.1)).
      rewrite take_app_length, !app_nil_r.
      split; [done|]. split; [apply prefix_nil|done]. }
  rewrite printed_bind, saved_bind, bind_result, He. cbn [app].
  destruct (e.2) as [[]|x].
  2:{ exists (length (printed b.1 ++ printed c.1 ++ printed e.1)), [].
      cbn [fmap list_fmap]. rewrite firstn_all, !app_nil_r.
      split; [done|]. split; [apply prefix_nil|done]. }
  destruct (plots_printed env args G d Hloop) as (fs & Hp & Hpre & Hr).
  exists (length (printed b.1 ++ printed c.1 ++ printed e.1)), fs.
  rewrite firstn_all, Hp. split; [by rewrite <-!(assoc_L (++))|]. by split.
Qed.

Lemma wrote_lines_match_files_witness :
  path_exists demo_env (graphml demo_args) = Ok true
  ∧ read_graphml demo_env (graphml demo_args) = Ok path4
  ∧ simplify path4 = Ok path4_graph
  ∧ ∃ n fs,
      stdout (main demo_env demo_args)
      = (take n (printed (statistics_events demo_env demo_args path4_graph))
         ++ (wrote <$> fs))%list
      ∧ fs `prefix_of` files_written (main demo_env demo_args)
      ∧ ((main demo_env demo_args).2 = Ok tt →
         fs = files_written (main demo_env demo_args)).
Proof.
  split; [reflexivity|]. split; [reflexivity|]. split; [exact simplify_path4|].
  exact (wrote_lines_match_files demo_env demo_args path4 path4_graph
           eq_refl eq_refl simplify_path4).
Defined.

(** A file written is not reported when [plt.close()] raises after
    [savefig]. *)
Example unreported_file :
  files_written (main close_fails_env demo_args) = [out_full demo_args]
  ∧ stdout (main close_fails_env demo_args)
    = printed (statistics_events close_fails_env demo_args path4_graph)
  ∧ (main close_fails_env demo_args).2 = Raise (mkExn RuntimeError "close failed").
Proof. split_and!; vm_compute; reflexivity. Qed.

(** ** The graph built, read back *)

(** Every step of the construction keeps an adjacency dict for every
    node. *)
Lemma ensure_node_node_in_adj G n : node_in_adj G → node_in_adj (ensure_node G n).
Proof.
  intros Hna m. unfold ensure_node. destruct (node G !! n) eqn:Hn; [apply Hna|].
  simpl. destruct (decide (n = m)) as [->|Hne].
  - by rewrite !lookup_insert_eq.
  - rewrite !lookup_insert_ne by done. apply Hna.
Qed.

Lemma add_node_data_node_in_adj G nd : node_in_adj G → node_in_adj (add_node_data G nd).
Proof.
  intros Hna m. unfold add_node_data. simpl. intros Hm.
  apply (ensure_node_node_in_adj G nd.1 Hna).
  destruct (decide (nd.1 = m)) as [<-|Hne].
  - apply ensure_node_is_node.
  - by rewrite lookup_insert_ne in Hm.
Qed.

Lemma add_nodes_from_node_in_adj l G :
  node_in_adj G → node_in_adj (add_nodes_from G l).
Proof.
  revert G. induction l as [|nd l IH]; intros G Hna; simpl; [done|].
  by apply IH, add_node_data_node_in_adj.
Qed.

Lemma add_edge_node_in_adj G a b d : node_in_adj G → node_in_adj (add_edge G a b d).
Proof.
  intros Hna m. unfold add_edge.
  set (G1 := ensure_node (ensure_node G a) b). simpl. intros Hm.
  assert (is_Some (adj G1 !! m)) as [x Hx].
  { by apply (ensure_node_node_in_adj _ b (ensure_node_node_in_adj G a Hna)). }
  destruct (decide (b = m)) as [->|Hb]; [by rewrite lookup_insert_eq|].
  rewrite lookup_insert_ne by done.
  destruct (decide (a = m)) as [->|Ha]; [by rewrite lookup_insert_eq|].
  rewrite lookup_insert_ne by done. by rewrite Hx.
Qed.

Lemma simplify_loop_node_in_adj es G G' :
  node_in_adj G → simplify_loop G es = Ok G' → node_in_adj G'.
Proof.
  revert G. induction es as [|[[a b] d] es IH]; intros G Hna; simpl.
  { by intros [= <-]. }
  unfold call_add_edge. case_decide; simpl; [|by apply IH].
  case_decide; [done|]. simpl. by apply IH, add_edge_node_in_adj.
Qed.

Lemma simplify_node_in_adj Graw G : simplify Graw = Ok G → node_in_adj G.
Proof.
  unfold simplify. apply simplify_loop_node_in_adj, add_nodes_from_node_in_adj.
  intros n. unfold empty_graph. simpl. rewrite lookup_empty. by intros [? ?].
Qed.

(** A key that no raw edge between two nodes has is not a key of the
    attributes they leave. *)
Lemma merged_attrs_keys u v es acc x key :
  (∀ e, e ∈ es → joins u v e → e.2 !! key = None) →
  (∀ y, acc = Some y → y !! key = None) →
  foldl (merged_step u v) acc es = Some x → x !! key = None.
Proof.
  revert acc. induction es as [|e es IH]; intros acc Hes Hacc; simpl.
  { intros ->. by apply Hacc. }
  apply IH.
  - intros e' He'. apply Hes. by right.
  - intros y. unfold merged_step. case_decide as Hj; [|apply Hacc].
    intros [= <-]. rewrite dict_update_lookup, (Hes e) by (done || by left).
    destruct acc as [y|]; simpl; [by apply Hacc|apply lookup_empty].
Qed.

(** The attributes of an edge of the graph built have none of the names
    that [add_edge] refuses. *)
Lemma simplify_no_reserved Graw G u v x :
  simplify Graw = Ok G → edge_data G u v = Some x →
  Forall (λ key, x !! key = None) add_edge_params.
Proof.
  intros HG Hx. destruct (simplify_edge_data Graw G HG) as (_ & Hm & _).
  rewrite Hm in Hx. apply Forall_forall. intros key Hkey.
  apply (merged_attrs_keys u v (raw_edges Graw) None x key); [|done|done].
  intros e He Hj. destruct (e.2 !! key) as [y|] eqn:Hy; [|done]. exfalso.
  destruct (simplify_loop_raises (raw_edges Graw)
              (add_nodes_from empty_graph (nodes_data Graw))) as [[_ Hr] _].
  destruct Hr as [exc Hexc].
  - apply Exists_exists. exists e. split; [done|]. split; [apply Hj|].
    apply Exists_exists. exists key. split; [done|by eexists].
  - unfold simplify in HG. congruence.
Qed.

(** Every edge of the graph is yielded by [edges], in one direction. *)
Lemma edges_from_complete seen l u v nu nv x x' :
  NoDup l.*1 → (u, nu) ∈ l → (v, nv) ∈ l →
  nu !! v = Some x → nv !! u = Some x' → u ∉ seen → v ∉ seen → u ≠ v →
  (u, v, x) ∈ edges_from seen l ∨ (v, u, x') ∈ edges_from seen l.
Proof.
  revert seen. induction l as [|[n nbrs] l IH]; intros seen Hnd Hu Hv Hx Hx' Hsu Hsv Huv.
  { by apply elem_of_nil in Hu. }
  simpl in Hnd. apply NoDup_cons in Hnd as [Hn Hnd]. simpl.
  assert (∀ m nm, (m, nm) ∈ l → m ≠ n) as Hfresh.
  { intros m nm Hin ->. apply Hn. apply list_elem_of_fmap. by exists (n, nm). }
  apply elem_of_cons in Hu as [[= <- <-]|Hu].
  { left. apply elem_of_app. left. apply list_elem_of_fmap. exists (v, x).
    split; [done|]. apply list_elem_of_filter. split; [done|].
    by apply elem_of_map_to_list. }
  apply elem_of_cons in Hv as [[= <- <-]|Hv].
  { right. apply elem_of_app. left. apply list_elem_of_fmap. exists (u, x').
    split; [done|]. apply list_elem_of_filter. split; [done|].
    by apply elem_of_map_to_list. }
  pose proof (Hfresh u nu Hu). pose proof (Hfresh v nv Hv).
  destruct (IH ({[n]} ∪ seen)) as [Hin|Hin]; try done.
  - rewrite elem_of_union, elem_of_singleton. by intros [?|?].
  - rewrite elem_of_union, elem_of_singleton. by intros [?|?].
  - left. apply elem_of_app. by right.
  - right. apply elem_of_app. by right.
Qed.

Lemma edges_complete G u v x :
  symmetric G → edge_data G u v = Some x → u ≠ v →
  (u, v, x) ∈ edges G ∨ (v, u, x) ∈ edges G.
Proof.
  intros Hsym Hx Huv. pose proof Hx as Hx'. rewrite (Hsym u v) in Hx'.
  unfold edge_data in Hx, Hx'.
  destruct (adj G !! u) as [nu|] eqn:Hu; [|done].
  destruct (adj G !! v) as [nv|] eqn:Hv; [|done]. simpl in Hx, Hx'.
  apply (edges_from_complete ∅ (map_to_list (adj G)) u v nu nv); try done.
  - apply NoDup_fst_map_to_list.
  - by apply elem_of_map_to_list.
  - by apply elem_of_map_to_list.
Qed.

(** Raw edges between other nodes change nothing. *)
Lemma merged_no_join u v acc es :
  (∀ e, e ∈ es → ¬ joins u v e) → foldl (merged_step u v) acc es = acc.
Proof.
  revert acc. induction es as [|e es IH]; intros acc Hes; simpl; [done|].
  rewrite IH by (intros e' He'; apply Hes; by right).
  unfold merged_step. rewrite decide_False; [done|]. apply Hes. by left.
Qed.

(** The raw edges leave, between two nodes that one of them joins and no
    other does, the attributes of that edge. *)
Lemma merged_attrs_single u v es e :
  NoDup (endpoints <$> es) → e ∈ es → joins u v e →
  merged_attrs u v es = Some e.2.
Proof.
  intros Hnd He Hj.
  assert (∀ e', joins u v e' → endpoints e' = endpoints e) as Hsame.
  { intros e' [_ Hj']. destruct Hj as [_ Hj]. unfold endpoints. apply pair_eq.
    destruct Hj as [[-> ->]|[-> ->]], Hj' as [[-> ->]|[-> ->]]; auto. }
  apply list_elem_of_split in He as (l1 & l2 & ->).
  rewrite fmap_app, fmap_cons in Hnd.
  apply NoDup_app in Hnd as (_ & Hl1 & Hl2). apply NoDup_cons in Hl2 as [Hl2 _].
  unfold merged_attrs. rewrite foldl_app. cbn [foldl].
  rewrite (merged_no_join u v None l1).
  - rewrite merged_no_join.
    + unfold merged_step. rewrite decide_True by done. simpl.
      unfold dict_update. by rewrite (right_id_L ∅ (∪)).
    + intros e' He' Hj'. apply Hl2. rewrite <-(Hsame e' Hj').
      apply list_elem_of_fmap. by exists e'.
  - intros e' He' Hj'. apply (Hl1 (endpoints e')).
    + apply list_elem_of_fmap. by exists e'.
    + rewrite (Hsame e' Hj'). by left.
Qed.

(** X25: the construction is a fixed point: from the nodes and the edges
    of the graph built, read as the script reads those of the parsed
    graph, it builds the same graph again. *)
Theorem simplify_round_trip (Graw : RawGraph) (G : Graph) :
  simplify Graw = Ok G → simplify (as_raw G) = Ok G.
Proof.
  intros HG. destruct (simplify_wf Graw G HG) as (Hwf & Hsym & Hloop).
  pose proof (simplify_node_in_adj Graw G HG) as Hna.
  destruct (simplify_total (as_raw G)) as [G' HG'].
  { apply Forall_forall. intros [[u v] x] He _. simpl.
    apply (simplify_no_reserved Graw G u v x HG). by apply edges_edge_data. }
  rewrite HG'. f_equal.
  destruct (simplify_wf (as_raw G) G' HG') as (Hwf' & Hsym' & Hloop').
  pose proof (simplify_node_in_adj (as_raw G) G' HG') as Hna'.
  assert (node G' = node G) as Hnode.
  { apply (simplify_keeps_node (as_raw G) G' HG'). intros [[u v] x] He _. simpl.
    apply (edge_ends_are_nodes G u v Hwf Hsym).
    rewrite (edges_edge_data G u v x He). by eexists. }
  assert (∀ u v, edge_data G' u v = edge_data G u v) as Hedge.
  { intros u v. destruct (simplify_edge_data (as_raw G) G' HG') as (_ & -> & _).
    simpl. destruct (edge_data G u v) as [x|] eqn:Hx.
    - assert (u ≠ v) as Huv by (intros ->; by rewrite Hloop in Hx).
      destruct (edges_complete G u v x Hsym Hx Huv) as [He|He].
      + apply (merged_attrs_single u v (edges G) (u, v, x)); [apply edges_NoDup|done|].
        split; [done|]. by left.
      + apply (merged_attrs_single u v (edges G) (v, u, x)); [apply edges_NoDup|done|].
        split; [done|]. by right.
    - unfold merged_attrs. apply merged_no_join. intros [[a b] x] He [_ Hj].
      apply edges_edge_data in He. simpl in Hj.
      destruct Hj as [[-> ->]|[-> ->]]; [congruence|].
      rewrite (Hsym v u) in He. congruence. }
  destruct G as [nd ad], G' as [nd' ad']. simpl in *. subst nd'. f_equal.
  apply map_eq. intros u.
  destruct (nd !! u) as [a|] eqn:Hu.
  - destruct (Hna u) as [m Hm]; [exists a; exact Hu|].
    destruct (Hna' u) as [m' Hm']; [exists a; exact Hu|].
    simpl in Hm, Hm'. rewrite Hm, Hm'. f_equal. apply map_eq. intros v.
    specialize (Hedge u v). unfold edge_data in Hedge. simpl in Hedge.
    by rewrite Hm, Hm' in Hedge.
  - pose proof (Hwf u Hu) as Ha. pose proof (Hwf' u Hu) as Ha'.
    simpl in Ha, Ha'. by rewrite Ha, Ha'.
Qed.

Lemma simplify_round_trip_witness :
  simplify path4 = Ok path4_graph
  ∧ simplify (as_raw path4_graph) = Ok path4_graph.
Proof.
  split; [exact simplify_path4|].
  exact (simplify_round_trip path4 path4_graph simplify_path4).
Defined.

(** ** The k-core for a small [k] *)

(** The minimal item is one of the items. *)
Lemma min_item_elem x l : min_item x l ∈ x :: l.
Proof.
  revert x. induction l as [|y l IH]; intros x; simpl; [by left|].
  case_decide.
  - right. apply IH.
  - pose proof (IH x) as Hx. apply elem_of_cons in Hx as [->|?];
      [by left|by right; right].
Qed.

Lemma dom_imap_total {V W} (f : string → V → W) (m : gmap string V) :
  dom (map_imap (λ n x, Some (f n x)) m) = dom m.
Proof.
  apply set_eq. intros n. rewrite !elem_of_dom, map_lookup_imap.
  destruct (m !! n); simpl; split; by intros [? ?].
Qed.

(** The peeling numbers every node that is left and keeps the nodes
    already numbered; no number is negative. *)
Lemma core_peel_spec fuel G deg cur core :
  (size deg ≤ fuel)%nat → 0 ≤ cur →
  (∀ v c, core !! v = Some c → 0 ≤ c) →
  dom (core_peel fuel G deg cur core) = dom core ∪ dom deg
  ∧ ∀ v c, core_peel fuel G deg cur core !! v = Some c → 0 ≤ c.
Proof.
  revert deg cur core. induction fuel as [|fuel IH]; intros deg cur core Hfuel Hcur Hcore.
  { assert (deg = ∅) as -> by (apply map_size_empty_inv; lia).
    simpl. by rewrite dom_empty_L, (right_id_L ∅ (∪)). }
  cbn [core_peel]. destruct (map_to_list deg) as [|x l] eqn:Hl.
  { apply map_to_list_empty_iff in Hl as ->.
    by rewrite dom_empty_L, (right_id_L ∅ (∪)). }
  pose proof (min_item_elem x l) as Hmin. rewrite <-Hl in Hmin.
  destruct (min_item x l) as [v dv]. apply elem_of_map_to_list in Hmin.
  set (deg'' := map_imap _ (delete v deg)).
  assert (dom deg'' = dom deg ∖ {[v]}) as Hdom.
  { unfold deg''. by rewrite dom_imap_total, dom_delete_L. }
  destruct (IH deg'' (Z.max cur dv) (<[v := Z.max cur dv]> core)) as [Hd Hc].
  - rewrite <-size_dom, Hdom, size_difference, size_dom, size_singleton.
    + lia.
    + intros w ->%elem_of_singleton. apply elem_of_dom. by eexists.
  - lia.
  - intros w c. destruct (decide (v = w)) as [->|Hne].
    + rewrite lookup_insert_eq. intros [= <-]. lia.
    + rewrite lookup_insert_ne by done. apply Hcore.
  - split; [|done]. rewrite Hd, Hdom, dom_insert_L.
    apply set_eq. intros w.
    rewrite !elem_of_union, elem_of_difference, elem_of_singleton.
    destruct (decide (w = v)) as [->|Hne]; [|tauto].
    split; [|tauto]. intros _. right. apply elem_of_dom. by eexists.
Qed.

(** The subgraph induced by all the nodes is the graph. *)
Lemma subgraph_all G :
  adj_in_node G → symmetric G → subgraph G (dom (node G)) = G.
Proof.
  intros Hwf Hsym. destruct G as [nd ad] eqn:HG. unfold subgraph. simpl. f_equal.
  - apply map_filter_id. intros n x Hn. simpl. apply elem_of_dom. by eexists.
  - rewrite map_filter_id.
    + apply map_eq. intros u. rewrite lookup_fmap.
      destruct (ad !! u) as [m|] eqn:Hu; simpl; [|done]. f_equal.
      apply map_filter_id. intros v x Hv. simpl.
      apply elem_of_dom.
      apply (edge_ends_are_nodes (mkGraph nd ad) u v Hwf Hsym).
      unfold edge_data. simpl. rewrite Hu. simpl. by eexists.
    + intros u m Hu. simpl. apply elem_of_dom.
      destruct (nd !! u) as [a|] eqn:Hn; [by eexists|].
      pose proof (Hwf u Hn) as Ha. simpl in Ha. congruence.
Qed.

(** X26: for a [k] that is not positive, the k-core of the graph built
    is the whole graph. *)
Theorem k_core_nonpositive (Graw : RawGraph) (G : Graph) (k : Z) :
  simplify Graw = Ok G → k ≤ 0 → k_core G k = Ok G.
Proof.
  intros HG Hk. destruct (simplify_wf Graw G HG) as (Hwf & Hsym & Hloop).
  unfold k_core. rewrite core_number_loopfree by done. cbn [result_bind].
  destruct (core_peel_spec (size (node G)) G (degree G) 0 ∅) as [Hd Hc].
  - rewrite <-!size_dom, degree_dom. lia.
  - done.
  - intros v c. by rewrite lookup_empty.
  - rewrite map_filter_id.
    + rewrite Hd, dom_empty_L, (left_id_L ∅ (∪)), degree_dom.
      by rewrite subgraph_all.
    + intros v c Hv. simpl. specialize (Hc v c Hv). lia.
Qed.

Lemma k_core_nonpositive_witness :
  simplify path4 = Ok path4_graph
  ∧ 0 ≤ 0
  ∧ k_core path4_graph 0 = Ok path4_graph.
Proof.
  assert (0 ≤ 0) as Hk by lia.
  split; [exact simplify_path4|]. split; [exact Hk|].
  exact (k_core_nonpositive path4 path4_graph 0 simplify_path4 Hk).
Defined.
